(** * fire-db: a shallow embedding of the storage core and its search engine

    The development follows the three classes of [src/core]:
    - [IdSlab]     (slab.h): the user-id log and its in-memory maps;
    - [MatrixSlab] (slab.h): the memory-mapped vector file;
    - [GpuIndex]   (gpu.h) : the brute-force L2 search;
    and the start and the commands of [main.cpp] that use the three
    together ([Main]).

    Machine integers are integers of [Z] with the wrap-around of their C++
    type written out, [float] is given by its operations ([Scalar], with
    IEEE binary32 as an instance), a file is the list of its bytes,
    [std::unordered_map] is a [gmap] and [std::vector] a list together
    with the size limit of the container.  A call either returns, throws, or leaves the behaviour
    defined by C++ (an access outside a buffer): see [outcome]. *)

From Stdlib Require Import ZArith List Lia Bool Ring.
From Stdlib Require Import Floats.SpecFloat.
From Stdlib.Strings Require Import Byte.
From stdpp Require Import base option list sorting gmap.

Local Open Scope Z_scope.

(** ** Machine integers and bytes *)

Definition wrap64 (z : Z) : Z := z mod 2 ^ 64.

(** Conversion to a signed type keeps the low bits (two's complement). *)
Definition to_int64 (z : Z) : Z :=
  let w := z mod 2 ^ 64 in if w <? 2 ^ 63 then w else w - 2 ^ 64.

Definition to_int32 (z : Z) : Z :=
  let w := z mod 2 ^ 32 in if w <? 2 ^ 31 then w else w - 2 ^ 32.

Definition INT_MAX : Z := 2 ^ 31 - 1.

(** [off_t] is a signed 64-bit integer. *)
Definition OFF_MAX : Z := 2 ^ 63 - 1.

Definition byte_of_Z (z : Z) : byte :=
  default x00 (Byte.of_N (Z.to_N (z mod 256))).

Definition Z_of_byte (b : byte) : Z := Z.of_N (Byte.to_N b).

(** Little-endian object representation, as on the x86-64 and CUDA hosts
    the program is built for. *)
Fixpoint le_decode (bs : list byte) : Z :=
  match bs with
  | [] => 0
  | b :: bs' => Z_of_byte b + 256 * le_decode bs'
  end.

Fixpoint le_encode (n : nat) (z : Z) : list byte :=
  match n with
  | O => []
  | S n' => byte_of_Z z :: le_encode n' (z / 256)
  end.

(** ** Outcomes of a call *)

Inductive exn : Type :=
  | mmap_failed        (* std::runtime_error("mmap failed") *)
  | ftruncate_failed   (* std::runtime_error("ftruncate failed") *)
  | length_error.      (* std::length_error of std::vector *)

(** [Undefined] is an access outside the object or buffer it addresses: the
    source checks nothing there and C++ (or CUDA) gives the program no
    meaning from that point on. *)
Inductive outcome (A : Type) : Type :=
  | Ret (a : A)
  | Throw (e : exn)
  | Undefined.
Arguments Ret {A} a.
Arguments Throw {A} e.
Arguments Undefined {A}.

(** Sequencing stops at the first call that does not return; stdpp's
    [x ← m; k] is the notation. *)
Global Instance outcome_bind : MBind outcome := λ A B f m,
  match m with
  | Ret a => f a
  | Throw e => Throw e
  | Undefined => Undefined
  end.

(** ** std::vector<int64_t> *)

(** [max_size()] of libstdc++ on LP64: [PTRDIFF_MAX / sizeof(int64_t)]. *)
Definition vector_max_size : Z := 2 ^ 60 - 1.

Definition vec_size (v : list Z) : Z := Z.of_nat (length v).

Definition vec_resize (v : list Z) (n fill : Z) : outcome (list Z) :=
  if vector_max_size <? n then Throw length_error
  else Ret (take (Z.to_nat n) v ++ replicate (Z.to_nat n - length v) fill).

Definition vec_push_back (v : list Z) (x : Z) : outcome (list Z) :=
  if vector_max_size <=? vec_size v then Throw length_error
  else Ret (v ++ [x]).

(** [v[i] = x]: [operator[]] checks nothing. *)
Definition vec_store (v : list Z) (i x : Z) : outcome (list Z) :=
  if (0 <=? i) && (i <? vec_size v) then Ret (<[Z.to_nat i := x]> v)
  else Undefined.

(** * IdSlab *)

Module IdSlab.

Inductive OpCode : Type := OP_INSERT | OP_DELETE.

Definition OpCode_val (op : OpCode) : Z :=
  match op with OP_INSERT => 1 | OP_DELETE => 2 end.

(** The object: [logfile] is the content of the file at [fpath]. *)
Record t : Type := mk {
  user_auto : gmap Z Z;
  auto_row : list Z;
  logfile : list byte;
  auto_id : Z
}.

(** *** The input side of [std::fstream] *)

Record istream : Type := mk_istream {
  unread : list byte;
  failbit : bool
}.

(** [read(buf, n)]: with [failbit] set nothing is extracted; at the end of
    the file the characters that are left are stored at the front of the
    buffer, the rest of the buffer keeps what it held, and [failbit] is
    set. *)
Definition stream_read (n : nat) (buf : list byte) (s : istream)
  : list byte * istream :=
  if failbit s then (buf, s)
  else if (n <=? length (unread s))%nat
       then (take n (unread s), mk_istream (drop n (unread s)) false)
       else (unread s ++ drop (length (unread s)) buf, mk_istream [] true).

(** Reads into a [uint8_t], a [uint64_t] and an [int64_t] that hold [old]. *)
Definition read_u8 (old : Z) (s : istream) : Z * istream :=
  let '(bs, s') := stream_read 1 (le_encode 1 old) s in (le_decode bs, s').

Definition read_u64 (old : Z) (s : istream) : Z * istream :=
  let '(bs, s') := stream_read 8 (le_encode 8 old) s in (le_decode bs, s').

Definition read_i64 (old : Z) (s : istream) : Z * istream :=
  let '(bs, s') := stream_read 8 (le_encode 8 old) s in
  (to_int64 (le_decode bs), s').

(** The locals of [replay_log]; the source leaves them uninitialised. *)
Record locals : Type := mk_locals {
  op_val : Z;
  user_id : Z;
  read_aid : Z;
  row_index : Z
}.

(** The [OP_INSERT] branch of the loop. *)
Definition replay_insert (s : t) (l : locals) : outcome t :=
  let ua := <[user_id l := read_aid l]> (user_auto s) in
  v1 ← (if vec_size (auto_row s) <=? read_aid l
        then vec_resize (auto_row s) (wrap64 (read_aid l + 1)) (-1)
        else Ret (auto_row s));
  v2 ← vec_store v1 (read_aid l) (row_index l);
  Ret (mk ua v2 (logfile s)
         (if auto_id s <=? read_aid l then wrap64 (read_aid l + 1)
          else auto_id s)).

(** The [OP_DELETE] branch of the loop. *)
Definition replay_delete (s : t) (l : locals) : t :=
  mk (delete (user_id l) (user_auto s))
     (if read_aid l <? vec_size (auto_row s)
      then <[Z.to_nat (read_aid l) := -1]> (auto_row s)
      else auto_row s)
     (logfile s) (auto_id s).

(** The [while] loop.  The condition is the read of [op_val] alone: the three
    reads of the body are not tested.  An iteration extracts at least one
    byte, so [fuel] bounds the iterations when it is the number of unread
    bytes (see [replay_loop_fuel]). *)
Fixpoint replay_loop (fuel : nat) (s : t) (l : locals) (f : istream)
  : outcome t :=
  let '(op, f1) := read_u8 (op_val l) f in
  if failbit f1 then Ret s
  else
    match fuel with
    | O => Ret s
    | S fuel' =>
        let '(uid, f2) := read_u64 (user_id l) f1 in
        let '(aid, f3) := read_u64 (read_aid l) f2 in
        let '(row, f4) := read_i64 (row_index l) f3 in
        let l' := mk_locals op uid aid row in
        if op =? OpCode_val OP_INSERT then
          s' ← replay_insert s l'; replay_loop fuel' s' l' f4
        else if op =? OpCode_val OP_DELETE then
          replay_loop fuel' (replay_delete s l') l' f4
        else replay_loop fuel' s l' f4
    end.

Definition replay_log (s : t) (garbage : locals) : outcome t :=
  s' ← replay_loop (length (logfile s)) s garbage
         (mk_istream (logfile s) false);
  Ret (mk (user_auto s') (auto_row s') (logfile s')
          (if auto_id s' <? vec_size (auto_row s') then vec_size (auto_row s')
           else auto_id s')).

Definition write_log_entry (op : OpCode) (uid aid row : Z) (log : list byte)
  : list byte :=
  log ++ le_encode 1 (OpCode_val op) ++ le_encode 8 uid ++ le_encode 8 aid
      ++ le_encode 8 row.

(** The constructor.  [file] is the content of the file at the path, [None]
    when there is none (it is then created empty); [garbage] is what the
    uninitialised locals of [replay_log] happen to hold. *)
Definition new (file : option (list byte)) (garbage : locals) : outcome t :=
  replay_log (mk ∅ [] (default [] file) 0) garbage.

(** [std::optional<uint64_t> insert(user_id, row_index)] *)
Definition insert (s : t) (uid row : Z) : outcome (option Z * t) :=
  match user_auto s !! uid with
  | Some _ => Ret (None, s)
  | None =>
      let id := auto_id s in
      v ← vec_push_back (auto_row s) row;
      Ret (Some id,
           mk (<[uid := id]> (user_auto s)) v
              (write_log_entry OP_INSERT uid id row (logfile s))
              (wrap64 (id + 1)))
  end.

Definition remove (s : t) (uid : Z) : t :=
  match user_auto s !! uid with
  | None => s
  | Some aid =>
      mk (delete uid (user_auto s))
         (if aid <? vec_size (auto_row s)
          then <[Z.to_nat aid := -1]> (auto_row s)
          else auto_row s)
         (write_log_entry OP_DELETE uid aid (-1) (logfile s))
         (auto_id s)
  end.

Definition get_row (s : t) (aid : Z) : Z :=
  if vec_size (auto_row s) <=? aid then -1
  else default (-1) (auto_row s !! Z.to_nat aid).

Definition get_row_from_user (s : t) (uid : Z) : Z :=
  match user_auto s !! uid with
  | None => -1
  | Some aid => get_row s aid
  end.

(** The states a program can hold: built by the constructor from any file
    content, then changed by calls that return. *)
Inductive Reachable : t → Prop :=
  | Reachable_new file garbage s :
      new file garbage = Ret s → Reachable s
  | Reachable_insert s uid row o s' :
      Reachable s → insert s uid row = Ret (o, s') → Reachable s'
  | Reachable_remove s uid :
      Reachable s → Reachable (remove s uid).

(** The invariant of the two counters: the next auto id is the size of the
    array, and the array is within the limit of the container. *)
Definition inv (s : t) : Prop :=
  auto_id s = vec_size (auto_row s) ∧ vec_size (auto_row s) ≤ vector_max_size.

(** One complete record of the log: 25 bytes. *)
Definition record (op : OpCode) (uid aid row : Z) : list byte :=
  write_log_entry op uid aid row [].

(** Two states used to exercise the theorems: a slab opened on no file, and
    the same slab after [insert(7, 0)]. *)
Definition no_garbage : locals := mk_locals 0 0 0 0.

Definition slab_empty : t := mk ∅ [] [] 0.

Definition slab_user7 : t :=
  mk (<[7 := 0]> ∅) [0] (record OP_INSERT 7 0 0) 1.

(** ** Complete records, and sequences of calls *)

(** The 25 bytes that [write_log_entry] writes for a record whose opcode
    byte is [op]. *)
Definition raw_record (op uid aid row : Z) : list byte :=
  le_encode 1 op ++ le_encode 8 uid ++ le_encode 8 aid ++ le_encode 8 row.

(** The body of the loop of [replay_log] once the four fields are read: the
    two [if]s on the opcode. *)
Definition apply_record (s : t) (l : locals) : outcome t :=
  if op_val l =? OpCode_val OP_INSERT then replay_insert s l
  else if op_val l =? OpCode_val OP_DELETE then Ret (replay_delete s l)
  else Ret s.

Definition replay_records (s : t) (rs : list locals) : outcome t :=
  foldl (λ acc r, s' ← acc; apply_record s' r) (Ret s) rs.

(** A log made of complete records, each given by its four fields. *)
Definition encode_log (rs : list locals) : list byte :=
  concat ((λ l, raw_record (op_val l) (user_id l) (read_aid l) (row_index l))
            <$> rs).

(** The fields are in the range of their types: [uint8_t], [uint64_t],
    [uint64_t], [int64_t]. *)
Definition fields_in_range (l : locals) : Prop :=
  0 ≤ op_val l < 256 ∧ 0 ≤ user_id l < 2 ^ 64 ∧ 0 ≤ read_aid l < 2 ^ 64
  ∧ - 2 ^ 63 ≤ row_index l < 2 ^ 63.

(** A call of [insert] or [remove], and a program that makes a sequence of
    them (the value that [insert] returns is dropped). *)
Inductive call : Type :=
  | Insert (uid row : Z)
  | Remove (uid : Z).

Definition do_call (s : t) (c : call) : outcome t :=
  match c with
  | Insert uid row => r ← insert s uid row; Ret r.2
  | Remove uid => Ret (remove s uid)
  end.

Definition run (s : t) (cs : list call) : outcome t :=
  foldl (λ acc c, s' ← acc; do_call s' c) (Ret s) cs.

(** The arguments are in the range of the parameters: [uint64_t user_id],
    [int64_t row_index]. *)
Definition call_in_range (c : call) : Prop :=
  match c with
  | Insert uid row => 0 ≤ uid < 2 ^ 64 ∧ - 2 ^ 63 ≤ row < 2 ^ 63
  | Remove uid => 0 ≤ uid < 2 ^ 64
  end.

(** What the calls mean for a reader of the slab: a finite map from the
    live user ids to their rows, where an insert of a live user changes
    nothing. *)
Definition rows_after_call (m : gmap Z Z) (c : call) : gmap Z Z :=
  match c with
  | Insert u r => match m !! u with Some _ => m | None => <[u := r]> m end
  | Remove u => delete u m
  end.

Definition rows_after (cs : list call) : gmap Z Z :=
  foldl rows_after_call ∅ cs.

(** Properties of a state used in the proofs: every mapped auto id is an
    index of the array; no two users share an auto id; the map [m] gives
    the row of every live user; the log file is made of complete records
    whose replay gives the state. *)
Definition mapped_in_range (s : t) : Prop :=
  ∀ u a, user_auto s !! u = Some a → 0 ≤ a < vec_size (auto_row s).

Definition unique_ids (s : t) : Prop :=
  ∀ u1 u2 a,
    user_auto s !! u1 = Some a → user_auto s !! u2 = Some a → u1 = u2.

Definition rows_match (s : t) (m : gmap Z Z) : Prop :=
  ∀ u, m !! u = user_auto s !! u ≫= λ a, auto_row s !! Z.to_nat a.

Definition with_log (s : t) (log : list byte) : t :=
  mk (user_auto s) (auto_row s) log (auto_id s).

Definition logged (s : t) : Prop :=
  ∃ rs, Forall fields_in_range rs ∧ logfile s = encode_log rs
        ∧ ∀ log, replay_records (mk ∅ [] log 0) rs = Ret (with_log s log).

(** Examples: three calls on user 7 and the state they lead to from the
    empty slab; a log of three complete records, the second of an unknown
    opcode. *)
Definition example_calls : list call := [Insert 7 0; Remove 7; Insert 7 2].

Definition slab_reinserted : t :=
  mk (<[7 := 1]> ∅) [-1; 2]
     (record OP_INSERT 7 0 0 ++ record OP_DELETE 7 0 (-1)
      ++ record OP_INSERT 7 1 2) 2.

Definition example_records : list locals :=
  [mk_locals 1 7 0 0; mk_locals 9 1 2 3; mk_locals 2 7 0 (-1)].

End IdSlab.

(** * MatrixSlab *)

Module MatrixSlab.

Definition MAGIC : Z := 0x26872687.
Definition sizeof_SlabHeader : Z := 128.
Definition sizeof_float : Z := 4.
Definition INITIAL_CAPACITY : Z := 1000.

(** [struct SlabHeader], the first 128 bytes of the mapped file. *)
Record SlabHeader : Type := mk_header {
  magic : Z;      (* uint32_t, offset 0 *)
  version : Z;    (* uint32_t, offset 4 *)
  count : Z;      (* uint64_t, offset 8 *)
  dim : Z;        (* uint64_t, offset 16 *)
  capacity : Z;   (* uint64_t, offset 24 *)
  pad : list byte (* char _pad[96] *)
}.

(** The object, seen through its two pointers into the shared mapping:
    [header] is the struct at the start of the file and [data_region] the
    bytes of the file that follow it, so that [file_size] is
    [sizeof_SlabHeader + length data_region].  A [float] is four bytes;
    [memcpy] moves bytes. *)
Record t : Type := mk {
  header : SlabHeader;
  data_region : list byte
}.

Definition field (off len : nat) (f : list byte) : Z :=
  le_decode (take len (drop off f)).

(** The view of a file of at least [sizeof_SlabHeader] bytes. *)
Definition view (f : list byte) : t :=
  mk (mk_header (field 0 4 f) (field 4 4 f) (field 8 8 f) (field 16 8 f)
        (field 24 8 f) (take 96 (drop 32 f)))
     (drop 128 f).

(** [ftruncate(fd, len)]: [len] is converted to [off_t], a negative length
    is refused; the file is cut or extended with zero bytes.  (The limit
    of the file system on the size of a file, below that of [off_t], is
    not modelled.) *)
Definition ftruncate (f : list byte) (len : Z) : option (list byte) :=
  if to_int64 len <? 0 then None
  else Some (take (Z.to_nat len) f ++ replicate (Z.to_nat len - length f) x00).

(** [map_file]: [mmap] refuses a length of zero.  The header and the data
    are read and written through the mapping, so what the object holds
    afterwards is the file.  (A mapping that the system refuses for want
    of address space is not modelled.) *)
Definition map_file (f : list byte) (file_size_bytes : Z)
  : outcome (list byte) :=
  if file_size_bytes =? 0 then Throw mmap_failed else Ret f.

(** An object is the view of its file.  On a file that is shorter than the
    header the constructor itself returns, but the header of the object
    then lies outside the file; the model gives such an object no
    outcome. *)
Definition with_header (f : list byte) : outcome t :=
  if Z.of_nat (length f) <? sizeof_SlabHeader then Undefined
  else Ret (view f).

Definition set_capacity (h : SlabHeader) (c : Z) : SlabHeader :=
  mk_header (magic h) (version h) (count h) (dim h) c (pad h).

Definition set_count (h : SlabHeader) (c : Z) : SlabHeader :=
  mk_header (magic h) (version h) c (dim h) (capacity h) (pad h).

(** The constructor.  [file] is the content of the file at the path, [None]
    when there is none.  In the new file only [magic], [count], [dim] and
    [capacity] are stored; the result of [ftruncate] is not tested.  An
    existing file is mapped as it is, nothing of it is read or compared;
    the object is then the view of its bytes (a file too short to hold a
    header leaves [header] pointing outside the file). *)
Definition new (file : option (list byte)) (dimension : Z) : outcome t :=
  match file with
  | None =>
      let size :=
        wrap64 (sizeof_SlabHeader
                + wrap64 (wrap64 (dimension * sizeof_float)
                          * INITIAL_CAPACITY)) in
      let f := default [] (ftruncate [] size) in
      m ← map_file f size;
      s ← with_header m;
      Ret (mk (mk_header MAGIC (version (header s)) 0 dimension
                 INITIAL_CAPACITY (pad (header s)))
              (data_region s))
  | Some f =>
      m ← map_file f (Z.of_nat (length f));
      with_header m
  end.

(** [grow_file(new_capacity)].  The file of the object is its header
    followed by [data_region]: [ftruncate] refuses a length that is negative
    as [off_t] and otherwise cuts or extends the data with zero bytes,
    [map_file] throws on the length zero, and the store to
    [header->capacity] needs the header to be in the file. *)
Definition grow_file (s : t) (new_capacity : Z) : outcome t :=
  let new_capacity_bytes :=
    wrap64 (sizeof_SlabHeader
            + wrap64 (wrap64 (new_capacity * sizeof_float)
                      * dim (header s))) in
  if to_int64 new_capacity_bytes <? 0 then Throw ftruncate_failed
  else if new_capacity_bytes =? 0 then Throw mmap_failed
  else if new_capacity_bytes <? sizeof_SlabHeader then Undefined
  else
    let n := Z.to_nat (new_capacity_bytes - sizeof_SlabHeader) in
    Ret (mk (set_capacity (header s) new_capacity)
            (take n (data_region s)
             ++ replicate (n - length (data_region s)) x00)).

(** [memcpy(&data_region[offset], src, n)]: the bytes read and the bytes
    written have to lie inside the source and inside the file. *)
Definition memcpy_to_data (data : list byte) (offset : Z) (src : list byte)
    (n : Z) : outcome (list byte) :=
  let off := offset * sizeof_float in
  if (Z.of_nat (length src) <? n) || (Z.of_nat (length data) <? off + n)
  then Undefined
  else Ret (take (Z.to_nat off) data ++ take (Z.to_nat n) src
            ++ drop (Z.to_nat (off + n)) data).

(** [add_vector(vector_Data)]: [vector_Data] is the bytes the pointer
    addresses. *)
Definition add_vector (s : t) (vector_Data : list byte) : outcome t :=
  s1 ← (if capacity (header s) <=? count (header s)
        then grow_file s (wrap64 (capacity (header s) * 2))
        else Ret s);
  let h := header s1 in
  let offset := wrap64 (count h * dim h) in
  d ← memcpy_to_data (data_region s1) offset vector_Data
        (wrap64 (dim h * sizeof_float));
  Ret (mk (set_count h (wrap64 (count h + 1))) d).

Definition get_data_ptr (s : t) : list byte := data_region s.
Definition get_count (s : t) : Z := count (header s).
Definition get_capacity (s : t) : Z := capacity (header s).
Definition get_dim (s : t) : Z := dim (header s).

(** Row [i] as read from the data pointer: bytes [i*dim*4 .. (i+1)*dim*4). *)
Definition read_row (s : t) (i : Z) : list byte :=
  take (Z.to_nat (get_dim s * sizeof_float))
       (drop (Z.to_nat (i * get_dim s * sizeof_float)) (get_data_ptr s)).

(** The states reached from the creation of a new file of dimension
    [dimension] by [n] calls of [add_vector] that return. *)
Inductive Reachable (dimension : Z) : nat → t → Prop :=
  | Reachable_new s :
      new None dimension = Ret s → Reachable dimension 0 s
  | Reachable_add n s v s' :
      Reachable dimension n s → add_vector s v = Ret s' →
      Reachable dimension (S n) s'.

(** What a state has to satisfy for the header to describe the file: the
    data region holds [capacity] rows of [dim] floats, the count is within
    the capacity, and the sizes are in the range of their types ([off_t]
    for the file, [uint64_t] for twice the capacity). *)
Definition slab_ok (s : t) : Prop :=
  0 ≤ get_dim s ∧ 1 ≤ get_capacity s < 2 ^ 63
  ∧ 0 ≤ get_count s ≤ get_capacity s
  ∧ Z.of_nat (length (data_region s)) = 4 * get_dim s * get_capacity s
  ∧ sizeof_SlabHeader + 4 * get_dim s * get_capacity s ≤ OFF_MAX.

(** Example files and states: a file of 128 zero bytes; the slab created
    for dimension 1; a full slab of dimension 1 (1000 rows of four bytes
    [0x01]). *)
Definition zero_file : list byte := replicate 128 x00.

Definition slab_dim1 : t :=
  mk (mk_header MAGIC 0 0 1 INITIAL_CAPACITY (replicate 96 x00))
     (replicate 4000 x00).

Definition row_of_ones : list byte := replicate 4 x01.

Definition slab_full : t :=
  mk (mk_header MAGIC 0 1000 1 1000 (replicate 96 x00))
     (replicate 4000 x01).

(** A sequence of appends. *)
Definition add_vectors (s : t) (vs : list (list byte)) : outcome t :=
  foldl (λ acc v, s' ← acc; add_vector s' v) (Ret s) vs.

(** ** The file behind the object *)

(** The bytes of the file that the object maps ([MAP_SHARED]): the header
    as the struct lays it out, then the data region. *)
Definition header_bytes (h : SlabHeader) : list byte :=
  le_encode 4 (magic h) ++ le_encode 4 (version h) ++ le_encode 8 (count h)
  ++ le_encode 8 (dim h) ++ le_encode 8 (capacity h) ++ pad h.

Definition file_of (s : t) : list byte :=
  header_bytes (header s) ++ data_region s.

(** The fields are in the range of their types and the padding has its 96
    bytes. *)
Definition header_in_range (h : SlabHeader) : Prop :=
  0 ≤ magic h < 2 ^ 32 ∧ 0 ≤ version h < 2 ^ 32 ∧ 0 ≤ count h < 2 ^ 64
  ∧ 0 ≤ dim h < 2 ^ 64 ∧ 0 ≤ capacity h < 2 ^ 64 ∧ length (pad h) = 96%nat.

(** A slab of dimension 1 after two appends, and the rows appended. *)
Definition two_rows : list (list byte) := [replicate 4 x01; replicate 4 x02].

Definition slab_two_rows : t :=
  mk (mk_header MAGIC 0 2 1 INITIAL_CAPACITY (replicate 96 x00))
     (replicate 4 x01 ++ replicate 4 x02 ++ replicate 3992 x00).

(** A full slab at the limit of the growth: [2^60] rows of one float, in a
    file whose doubling would pass the range of [off_t]. *)
Definition slab_at_limit : t :=
  mk (mk_header MAGIC 0 (2 ^ 60) 1 (2 ^ 60) (replicate 96 x00))
     (replicate (Z.to_nat (2 ^ 62)) x00).

End MatrixSlab.

(** * GpuIndex *)

(** The arithmetic of [float].  The model is written over the operations
    that the code uses on floats: the sum, the product, the opposite, the
    literals [0.0f] and [1.0f], and [fltb] for [operator<].  Nothing is
    assumed of them but that [operator<] is asymmetric, which IEEE 754
    gives: [float32] below is binary32 with its rounding, its infinities
    and its NaN, and the integers are another instance.  A statement that
    needs exact arithmetic says so with [Exact], a ring with a decidable
    strict total order; on the machine it holds up to the rounding of
    [float].  Each operation of the source is one operation here: a
    compiler or a library that fuses a product and a sum into one rounding,
    or sums in another order, is not modelled. *)
Class Scalar (F : Type) : Type := {
  f0 : F;
  f1 : F;
  fadd : F → F → F;
  fmul : F → F → F;
  fopp : F → F;
  fltb : F → F → bool;
  fltb_asym x y : fltb x y = true → fltb y x = false
}.

Class Exact (F : Type) `{Scalar F} : Prop := {
  scalar_ring :
    ring_theory f0 f1 fadd fmul (λ x y, fadd x (fopp y)) fopp eq;
  fltb_irrefl x : fltb x x = false;
  fltb_trans x y z : fltb x y = true → fltb y z = true → fltb x z = true;
  fltb_total x y : fltb x y = false → fltb y x = false → x = y
}.

#[export] Program Instance Z_scalar : Scalar Z :=
  {| f0 := 0; f1 := 1; fadd := Z.add; fmul := Z.mul; fopp := Z.opp;
     fltb := Z.ltb |}.
Next Obligation.
  intros x y Hxy. apply Z.ltb_lt in Hxy. apply Z.ltb_ge. lia.
Qed.

#[export] Instance Z_exact : Exact Z.
Proof.
  split.
  - constructor; intros; simpl; lia.
  - intros x. apply Z.ltb_irrefl.
  - intros x y z H1 H2. simpl in *. apply Z.ltb_lt in H1, H2.
    apply Z.ltb_lt. lia.
  - intros x y H1 H2. simpl in *. apply Z.ltb_ge in H1, H2. lia.
Qed.

(** [float] itself: IEEE 754 binary32 with rounding to nearest even, as the
    Standard Library specifies it (precision 24, exponents below 128).
    [S754_nan] is NaN, and every comparison with it is false. *)
Definition float32 : Type := spec_float.

(** The [float] nearest to an integer. *)
Definition f32 (z : Z) : float32 := binary_normalize 24 128 z 0 false.

(** The order of the floats that are not NaN, as a rank: the sign class,
    then the exponent and the mantissa. *)
Definition f32_rank (x : float32) : Z * Z * Z :=
  match x with
  | S754_infinity true => (0, 0, 0)
  | S754_finite true m e => (1, - e, - Z.pos m)
  | S754_zero _ => (2, 0, 0)
  | S754_nan => (2, 0, 0)
  | S754_finite false m e => (3, e, Z.pos m)
  | S754_infinity false => (4, 0, 0)
  end.

Definition rank_lt (a b : Z * Z * Z) : Prop :=
  a.1.1 < b.1.1
  ∨ (a.1.1 = b.1.1 ∧ (a.1.2 < b.1.2 ∨ (a.1.2 = b.1.2 ∧ a.2 < b.2))).

Definition f32_is_nan (x : float32) : bool :=
  match x with S754_nan => true | _ => false end.

#[export] Program Instance float32_scalar : Scalar spec_float :=
  {| f0 := S754_zero false; f1 := f32 1; fadd := SFadd 24 128;
     fmul := SFmul 24 128; fopp := SFopp; fltb := SFltb |}.
Next Obligation.
  intros x y. unfold SFltb.
  destruct x as [sx|sx| |sx mx ex], y as [sy|sy| |sy my ey]; simpl;
    try destruct sx; try destruct sy; simpl; try congruence.
  - destruct (Z.compare_spec ex ey), (Z.compare_spec ey ex);
      try congruence; try lia.
    change (PosDef.Pos.compare_cont Eq mx my) with (Pos.compare mx my).
    change (PosDef.Pos.compare_cont Eq my mx) with (Pos.compare my mx).
    rewrite (Pos.compare_antisym mx my).
    destruct (Pos.compare mx my); simpl; congruence.
  - destruct (Z.compare_spec ex ey), (Z.compare_spec ey ex);
      try congruence; try lia.
    change (PosDef.Pos.compare_cont Eq mx my) with (Pos.compare mx my).
    change (PosDef.Pos.compare_cont Eq my mx) with (Pos.compare my mx).
    rewrite (Pos.compare_antisym mx my).
    destruct (Pos.compare mx my); simpl; congruence.
Qed.

Module GpuIndex.

Section Model.
Context {F : Type} `{Scalar F}.

Global Instance scalar_inhabited : Inhabited F := populate f0.

Record SearchResult : Type := mk_result { id : Z; score : F }.

Definition sizeof_float : Z := 4.

(** The literal [2.0f]. *)
Definition two : F := fadd f1 f1.

(** [float sum = 0.0f; for (...) sum += val * val;] *)
Definition sum_sq (v : list F) : F := foldl (λ s x, fadd s (fmul x x)) f0 v.

(** The inner product of two columns, as GEMM accumulates it: from the
    first component to the last here, each product and each sum rounded
    (the library fixes neither the order nor the fusing). *)
Definition dot (x y : list F) : F :=
  foldl (λ s p, fadd s (fmul p.1 p.2)) f0 (zip x y).

(** [‖x‖² + ‖q‖² − 2·x·q], the score an exact search reports for the row
    [x] and the query [q], and the squared distance it stands for. *)
Definition l2_identity (x q : list F) : F :=
  fadd (fadd (sum_sq x) (sum_sq q)) (fopp (fmul two (dot x q))).

Definition sq_dist (x q : list F) : F :=
  foldl (λ s p, fadd s (fmul (fadd p.1 (fopp p.2)) (fadd p.1 (fopp p.2))))
    f0 (zip x q).

(** The score as the device computes it, operation by operation: the cell
    [−2·x·q] of the product, to which the kernel adds the norm of the row,
    then the norm of the query. *)
Definition device_score (x q : list F) : F :=
  fadd (fadd (fmul (fopp two) (dot x q)) (sum_sq x)) (sum_sq q).

(** [x == 0.0f], for an [x] that is not NaN. *)
Definition is_zero (x : F) : bool := negb (fltb x f0) && negb (fltb f0 x).

(** ** Buffers *)

(** A buffer of device or host memory is the list of its floats.  An access
    outside the buffer is [Undefined]: neither C++ nor the CUDA runtime
    defines it, and the source tests no status. *)
Definition load (m : list F) (i : Z) : outcome F :=
  if i <? 0 then Undefined
  else match m !! Z.to_nat i with Some x => Ret x | None => Undefined end.

Definition store (m : list F) (i : Z) (x : F) : outcome (list F) :=
  if (0 <=? i) && (i <? Z.of_nat (length m)) then Ret (<[Z.to_nat i := x]> m)
  else Undefined.

(** [cudaMalloc(&p, bytes)]: the content of a fresh buffer is not specified;
    [junk] stands for it. *)
Definition cudaMalloc (bytes : Z) (junk : F) : list F :=
  replicate (Z.to_nat (bytes / sizeof_float)) junk.

(** [cudaMemcpy(dst + off, src, bytes, ...)] *)
Definition cudaMemcpy (dst : list F) (off : Z) (src : list F) (bytes : Z)
  : outcome (list F) :=
  let n := bytes / sizeof_float in
  if (Z.of_nat (length src) <? n) || (Z.of_nat (length dst) <? off + n)
  then Undefined
  else Ret (take (Z.to_nat off) dst ++ take (Z.to_nat n) src
            ++ drop (Z.to_nat (off + n)) dst).

(** Signed arithmetic of [int]: an overflow is undefined. *)
Definition int_checked (z : Z) : outcome Z :=
  if (z <? - 2 ^ 31) || (INT_MAX <? z) then Undefined else Ret z.

(** ** Kernels *)

(** [kernel<<<blocks, threads>>>(...)]: the threads of the grid run the body
    on the buffer the kernel writes, one after the other here (no two
    threads of the kernels below touch the same cell).  A grid of no block,
    or of more blocks than the device takes, is not launched, and the
    failure is not tested.  [idx] is [blockIdx.x * blockDim.x +
    threadIdx.x], unsigned, converted to [int]. *)
Definition MAX_GRID : Z := 2 ^ 31 - 1.

Definition launch (blocks threads : Z)
    (body : Z → list F → outcome (list F)) (mem : list F)
  : outcome (list F) :=
  if (blocks <? 1) || (MAX_GRID <? blocks) then Ret mem
  else foldl (λ acc tid, m ← acc; body (to_int32 (Z.of_nat tid)) m)
         (Ret mem) (seq 0 (Z.to_nat (blocks * threads))).

(** The body of [compute_norms_kernel(data, norms, rows, cols)] for the
    thread [idx]. *)
Definition compute_norms_kernel (data : list F) (rows cols : Z) (idx : Z)
    (norms : list F) : outcome (list F) :=
  if rows <=? idx then Ret norms
  else
    base ← int_checked (idx * cols);
    if (base <? 0) || (Z.of_nat (length data) <? base + Z.max 0 cols)
    then Undefined
    else store norms idx
           (sum_sq (take (Z.to_nat cols) (drop (Z.to_nat base) data))).

(** The body of [compute_l2_dist_kernel(db_norms, query_norms,
    d_dot_products, num_db, num_queries)] for the thread [idx]; [%] and [/]
    of [int] truncate. *)
Definition compute_l2_dist_kernel (db_norms query_norms : list F)
    (num_db num_queries : Z) (idx : Z) (d_dot_products : list F)
  : outcome (list F) :=
  total ← int_checked (num_db * num_queries);
  if total <=? idx then Ret d_dot_products
  else
    let row := Z.rem idx num_db in
    let col := Z.quot idx num_db in
    val ← load d_dot_products idx;
    a ← load db_norms row;
    b ← load query_norms col;
    store d_dot_products idx (fadd (fadd val a) b).

(** The buffer of norms after the threads [0 .. n-1] of
    [compute_norms_kernel] have run, in closed form. *)
Definition norms_upto (data : list F) (rows cols : Z) (n : nat)
    (norms : list F) : list F :=
  imap (λ p c,
     if (p <? n)%nat && (Z.of_nat p <? rows)
     then sum_sq (take (Z.to_nat cols)
                    (drop (Z.to_nat (Z.of_nat p * cols)) data))
     else c) norms.

(** The buffer of scores after the threads [0 .. n-1] of
    [compute_l2_dist_kernel] have run, in closed form. *)
Definition l2_upto (dbn qn : list F) (cc total : Z) (n : nat) (d : list F)
  : list F :=
  imap (λ p c,
     if (p <? n)%nat && (Z.of_nat p <? total)
     then fadd (fadd c (dbn !!! Z.to_nat (Z.of_nat p `mod` cc)))
               (qn !!! Z.to_nat (Z.of_nat p / cc))
     else c) d.

(** ** cuBLAS *)

(** [cublasSgemm(handle, CUBLAS_OP_T, CUBLAS_OP_N, m, n, k, &alpha, A, lda,
    B, ldb, &beta, C, ldc)]: [C := alpha * Aᵀ * B + beta * C] on column-major
    matrices; for a [beta] that is zero the library does not read [C].
    Arguments that the library refuses leave [C] as it is (the status is
    not tested). *)
Definition cublasSgemm_T_N (m n k : Z) (alpha : F) (A : list F) (lda : Z)
    (B : list F) (ldb : Z) (beta : F) (C : list F) (ldc : Z)
  : outcome (list F) :=
  if (m <? 0) || (n <? 0) || (k <? 0) || (lda <? Z.max 1 k)
     || (ldb <? Z.max 1 k) || (ldc <? Z.max 1 m)
  then Ret C
  else if (m =? 0) || (n =? 0) then Ret C
  else if (Z.of_nat (length A) <? (m - 1) * lda + k)
          || (Z.of_nat (length B) <? (n - 1) * ldb + k)
          || (Z.of_nat (length C) <? (n - 1) * ldc + m)
  then Undefined
  else
    Ret (imap (λ p c,
           let i := Z.of_nat p mod ldc in
           let j := Z.of_nat p / ldc in
           if (i <? m) && (j <? n)
           then
             let ab :=
               fmul alpha
                 (dot (take (Z.to_nat k) (drop (Z.to_nat (i * lda)) A))
                      (take (Z.to_nat k) (drop (Z.to_nat (j * ldb)) B))) in
             if is_zero beta then ab else fadd ab (fmul beta c)
           else c) C).

(** ** The index *)

Record t : Type := mk {
  d_db : list F;
  d_db_norms : list F;
  d_queries : list F;
  d_q_norms : list F;
  d_results : list F;
  max_vectors : Z;
  dim : Z;
  current_count : Z;
  max_batch_size : Z
}.

(** [GpuIndex(dimension, capacity)] *)
Definition new (dimension capacity : Z) (junk : F) : t :=
  let max_batch := 100 in
  mk (cudaMalloc (wrap64 (wrap64 (capacity * dimension) * sizeof_float)) junk)
     (cudaMalloc (wrap64 (capacity * sizeof_float)) junk)
     (cudaMalloc (wrap64 (wrap64 (max_batch * dimension) * sizeof_float)) junk)
     (cudaMalloc (wrap64 (max_batch * sizeof_float)) junk)
     (cudaMalloc (wrap64 (wrap64 (capacity * max_batch) * sizeof_float)) junk)
     capacity dimension 0 max_batch.

(** [add_single_vector(host_vec)]: the copy and the loop of the norm read
    [dim] floats of [host_vec]. *)
Definition add_single_vector (g : t) (host_vec : list F)
  : outcome (bool * t) :=
  if max_vectors g <=? current_count g then Ret (false, g)
  else
    let offset := wrap64 (current_count g * dim g) in
    db ← cudaMemcpy (d_db g) offset host_vec (wrap64 (dim g * sizeof_float));
    if Z.of_nat (length host_vec) <? dim g then Undefined
    else
    let sum := sum_sq (take (Z.to_nat (dim g)) host_vec) in
    norms ← cudaMemcpy (d_db_norms g) (current_count g) [sum] sizeof_float;
    Ret (true,
         mk db norms (d_queries g) (d_q_norms g) (d_results g)
            (max_vectors g) (dim g) (wrap64 (current_count g + 1))
            (max_batch_size g)).

(** [load_data(slab)]: [slab_count] is [slab.get_count()] and [slab_data]
    the floats at [slab.get_data_ptr()]. *)
Definition load_data (g : t) (slab_count : Z) (slab_data : list F)
  : outcome t :=
  let cc := slab_count in
  db ← cudaMemcpy (d_db g) 0 slab_data
         (wrap64 (wrap64 (cc * dim g) * sizeof_float));
  let threads := 256 in
  let blocks := to_int32 (wrap64 (wrap64 (cc + threads) - 1) / threads) in
  norms ← launch blocks threads
            (compute_norms_kernel db (to_int32 cc) (to_int32 (dim g)))
            (d_db_norms g);
  Ret (mk db norms (d_queries g) (d_q_norms g) (d_results g)
          (max_vectors g) (dim g) cc (max_batch_size g)).

(** *** search *)

(** [operator<] of [std::pair<float, int>]. *)
Definition pair_ltb (a b : F * Z) : bool :=
  fltb a.1 b.1 || (negb (fltb b.1 a.1) && (a.2 <? b.2)).

(** "not after", the order [std::partial_sort] leaves its output in. *)
Definition pair_le (a b : F * Z) : Prop := pair_ltb b a = false.

Global Instance pair_le_dec a b : Decision (pair_le a b).
Proof. unfold pair_le. apply _. Defined.

(** [std::partial_sort(first, first + middle, last)]: the [middle] smallest
    elements, in ascending order.  (The order of the others is not
    specified and [search] does not read them.)  This is what the call
    leaves for a comparison that is a strict weak ordering on the elements;
    for another one the standard does not say what it leaves, and what is
    stated of such a case below holds of every arrangement. *)
Definition partial_sort (middle : nat) (l : list (F * Z)) : list (F * Z) :=
  take middle (merge_sort pair_le l).

(** The body of the loop over the queries, for the query [q]. *)
Definition search_query (all_scores : list F) (cc k : Z) (q : Z)
  : outcome (list SearchResult) :=
  let base := wrap64 (q * cc) in
  if Z.of_nat (length all_scores) <? base + cc then Undefined
  else
    let query_scores := drop (Z.to_nat base) all_scores in
    let candidates :=
      imap (λ i s, (s, Z.of_nat i)) (take (Z.to_nat cc) query_scores) in
    let safe_k := to_int32 (Z.min (wrap64 k) cc) in
    if (safe_k <? 0) || (cc <? safe_k) then Undefined
    else
      Ret ((λ c, mk_result (wrap64 c.2) c.1)
             <$> partial_sort (Z.to_nat safe_k) candidates).

Fixpoint for_each {A B} (f : A → outcome B) (l : list A)
  : outcome (list B) :=
  match l with
  | [] => Ret []
  | x :: l' => y ← f x; ys ← for_each f l'; Ret (y :: ys)
  end.

Definition search (g : t) (queries : list (list F)) (k : Z)
  : outcome (list (list SearchResult) * t) :=
  let num_queries := to_int32 (Z.of_nat (length queries)) in
  if num_queries =? 0 then Ret ([], g)
  else
    let flat_queries := concat queries in
    let host_q_norms := sum_sq <$> queries in
    dq ← cudaMemcpy (d_queries g) 0 flat_queries
           (wrap64 (Z.of_nat (length flat_queries) * sizeof_float));
    dqn ← cudaMemcpy (d_q_norms g) 0 host_q_norms
            (wrap64 (Z.of_nat (length host_q_norms) * sizeof_float));
    let alpha := fopp two in
    let beta := f0 in
    let cc := current_count g in
    r1 ← cublasSgemm_T_N (to_int32 cc) num_queries (to_int32 (dim g))
           alpha (d_db g) (to_int32 (dim g)) dq (to_int32 (dim g))
           beta (d_results g) (to_int32 cc);
    let total_pairs := to_int32 (wrap64 (cc * wrap64 num_queries)) in
    let threads := 256 in
    t1 ← int_checked (total_pairs + threads);
    t2 ← int_checked (t1 - 1);
    let blocks := Z.quot t2 threads in
    r2 ← launch blocks threads
           (compute_l2_dist_kernel (d_db_norms g) dqn (to_int32 cc)
              num_queries) r1;
    if total_pairs <? 0 then Throw length_error
    else if Z.of_nat (length r2) <? total_pairs then Undefined
    else
      let all_scores := take (Z.to_nat total_pairs) r2 in
      if num_queries <? 0 then Throw length_error
      else
        final_results ←
          for_each (search_query all_scores cc k)
            (Z.of_nat <$> seq 0 (Z.to_nat num_queries));
        Ret (final_results,
             mk (d_db g) (d_db_norms g) dq dqn r2 (max_vectors g) (dim g)
                cc (max_batch_size g)).

Definition search_one (g : t) (query : list F) (k : Z)
  : outcome (list SearchResult * t) :=
  r ← search g [query] k;
  match r.1 with
  | l :: _ => Ret (l, r.2)
  | [] => Undefined
  end.

(** Row [r] of the database on the device. *)
Definition db_row (g : t) (r : Z) : list F :=
  take (Z.to_nat (dim g)) (drop (Z.to_nat (r * dim g)) (d_db g)).

(** What a state has to satisfy to be an index of [current_count] stored
    rows: the sizes are in the range of [int], the buffers are those of the
    constructor, the cache of norms holds the norm of every stored row, and
    the size in bytes of the database is in the range of [size_t]. *)
Definition gpu_ok (g : t) : Prop :=
  1 ≤ dim g ≤ INT_MAX
  ∧ 0 ≤ current_count g ≤ max_vectors g
  ∧ 0 ≤ max_batch_size g ≤ INT_MAX
  ∧ Z.of_nat (length (d_db g)) = max_vectors g * dim g
  ∧ Z.of_nat (length (d_db_norms g)) = max_vectors g
  ∧ Z.of_nat (length (d_queries g)) = max_batch_size g * dim g
  ∧ Z.of_nat (length (d_q_norms g)) = max_batch_size g
  ∧ Z.of_nat (length (d_results g)) = max_vectors g * max_batch_size g
  ∧ (∀ r, 0 ≤ r < current_count g →
          d_db_norms g !! Z.to_nat r = Some (sum_sq (db_row g r)))
  ∧ max_vectors g * dim g * sizeof_float < 2 ^ 64.

(** The order of the results of one query: [a] stands before [b] when the
    score of [b] is not below that of [a] and, the two scores being the
    same, the row of [a] is below the row of [b]. *)
Definition result_lt (a b : SearchResult) : Prop :=
  fltb (score b) (score a) = false
  ∧ (fltb (score a) (score b) = false → id a < id b).

Global Instance result_lt_dec a b : Decision (result_lt a b).
Proof. unfold result_lt. apply _. Defined.

(** [operator<] is a strict weak ordering on the scores [l], which is what
    [std::partial_sort] asks of its comparison: a score below another is
    below, or above, any third one.  It is so for floats none of which is
    NaN, and in exact arithmetic. *)
Definition comparable (l : list F) : Prop :=
  ∀ x y z, x ∈ l → y ∈ l → z ∈ l →
    fltb x y = true → fltb x z = true ∨ fltb z y = true.

(** The scores of the query [j] of the last batch, in [d_results]. *)
Definition query_scores (g : t) (j : nat) : list F :=
  take (Z.to_nat (current_count g))
       (drop (j * Z.to_nat (current_count g)) (d_results g)).

End Model.

(** An index over the integers with the three rows of the search scenario
    of the specification. *)
Definition example_rows : list (list Z) :=
  [[1; 0; 0; 0]; [0; 1; 0; 0]; [1; 1; 0; 0]].

Definition add_vectors (g : t) (vs : list (list Z)) : outcome t :=
  foldl (λ acc v, g' ← acc; r ← add_single_vector g' v; Ret r.2) (Ret g) vs.

Definition example_index : t :=
  match add_vectors (new 4 8 0) example_rows with
  | Ret g => g
  | _ => new 4 8 0
  end.

Definition example_query : list Z := [1; 0; 0; 0].

Definition example_results : list SearchResult :=
  [mk_result 0 0; mk_result 2 1; mk_result 1 2].

(** A batch of one query more than the index takes. *)
Definition oversized_batch : list (list Z) := replicate 101 example_query.

Section Build.
Context {F : Type} `{Scalar F}.

(** A program that adds the vectors [vs] one by one (the value that
    [add_single_vector] returns is dropped, as the callers in [main] do). *)
Definition add_all (g : t) (vs : list (list F)) : outcome t :=
  foldl (λ acc v, g' ← acc; r ← add_single_vector g' v; Ret r.2) (Ret g) vs.

End Build.

(** Two indexes over [float32].  In the first, the norm of the second row
    overflows to the infinity, and its score for the query is NaN: the
    scores are 1, NaN and 0.  In the second, the square of 4097 is rounded
    to 16785408, and both rows get the score 0 for the query. *)
Definition nan_rows : list (list float32) :=
  [[f32 0; f32 0; f32 0; f32 0];
   [f32 (3 * 10 ^ 38); f32 (3 * 10 ^ 38); f32 0; f32 0];
   [f32 1; f32 0; f32 0; f32 0]].

Definition nan_index : t :=
  match add_all (new 4 8 (f32 0)) nan_rows return t with
  | Ret g => g
  | _ => new 4 8 (f32 0)
  end.

Definition nan_query : list float32 := [f32 1; f32 0; f32 0; f32 0].

Definition nan_results : list SearchResult :=
  [mk_result 2 (f32 0); mk_result 0 (f32 1); mk_result 1 S754_nan].

Definition rounding_rows : list (list float32) :=
  [[f32 4097; f32 0; f32 0; f32 0]; [f32 4096; f32 0; f32 0; f32 0]].

Definition rounding_index : t :=
  match add_all (new 4 8 (f32 0)) rounding_rows return t with
  | Ret g => g
  | _ => new 4 8 (f32 0)
  end.

Definition rounding_query : list float32 :=
  [f32 4096; f32 0; f32 0; f32 0].

Definition rounding_results : list SearchResult :=
  [mk_result 0 (f32 0); mk_result 1 (f32 0)].

(** The same three rows in an index of another capacity, allocated over
    other junk. *)
Definition example_index_junk : t :=
  match add_all (new 4 16 7) example_rows with
  | Ret g => g
  | _ => new 4 16 7
  end.

End GpuIndex.

(** * main.cpp: the database made of the three stores *)

Module Main.

Definition MAX_CAPACITY : Z := 1000000.
Definition GPU_BATCH_LIMIT : Z := 100.

(** Signed arithmetic of [int64_t]: an overflow is undefined. *)
Definition int64_checked (z : Z) : outcome Z :=
  if (z <? - 2 ^ 63) || (OFF_MAX <? z) then Undefined else Ret z.

Section Model.
Context {F : Type} `{Scalar F}.

(** The value of the [float] that four bytes of memory hold. *)
Variable float_of_bytes : list byte → F.

(** A buffer of bytes read through a [float*]: element [i] is the bytes
    [4i .. 4i+3]. *)
Definition floats (bs : list byte) : list F :=
  (λ i, float_of_bytes (take 4 (drop (4 * i) bs))) <$> seq 0 (length bs / 4).

(** The objects that [main] holds after its start: [id_db], [mat_db],
    [gpu], and the global [GLOBAL_DIM]. *)
Record Db : Type := mk_db {
  id_db : IdSlab.t;
  mat_db : MatrixSlab.t;
  gpu : GpuIndex.t (F := F);
  GLOBAL_DIM : Z
}.

(** The start of [main], up to "Ready.": [vec_file] and [id_file] are the
    contents of the two files of the database, [None] for a file that does
    not exist.  The dimension is read from an existing vector file through
    a first [MatrixSlab] opened with the dimension 0, and is 128 for a new
    database; it is kept in an [int]. *)
Definition startup (vec_file id_file : option (list byte))
    (garbage : IdSlab.locals) (junk : F) : outcome Db :=
  d ← match vec_file with
      | Some _ =>
          t ← MatrixSlab.new vec_file 0;
          Ret (to_int32 (MatrixSlab.get_dim t))
      | None => Ret 128
      end;
  id ← IdSlab.new id_file garbage;
  mat ← MatrixSlab.new vec_file (wrap64 d);
  let g := GpuIndex.new (wrap64 d) (wrap64 MAX_CAPACITY) junk in
  g' ← (if 0 <? MatrixSlab.get_count mat
        then GpuIndex.load_data g (MatrixSlab.get_count mat)
               (floats (MatrixSlab.get_data_ptr mat))
        else Ret g);
  Ret (mk_db id mat g' d).

(** The four statements that the commands [import], [add], [put] and [gen]
    run for one vector: [v] is the memory of the vector, and the value that
    [insert] and [add_single_vector] return is dropped.
    [int64_t row = mat_db.get_count();] *)
Definition store_vector (db : Db) (uid : Z) (v : list byte) : outcome Db :=
  let row := to_int64 (MatrixSlab.get_count (mat_db db)) in
  mat ← MatrixSlab.add_vector (mat_db db) v;
  r ← IdSlab.insert (id_db db) uid row;
  g ← GpuIndex.add_single_vector (gpu db) (floats v);
  Ret (mk_db r.2 mat g.2 (GLOBAL_DIM db)).

(** The command [put <id> <v...>], once the line is parsed: [v] is the
    memory of the parsed vector.  [continue] leaves the database as it
    is. *)
Definition put (db : Db) (uid : Z) (v : list byte) : outcome Db :=
  if negb (Z.of_nat (length v) / 4 =? wrap64 (GLOBAL_DIM db)) then Ret db
  else if negb (IdSlab.get_row_from_user (id_db db) uid =? -1) then Ret db
  else store_vector db uid v.

(** The command [add <id>]: [v] is the memory of the random vector. *)
Definition add (db : Db) (uid : Z) (v : list byte) : outcome Db :=
  if negb (IdSlab.get_row_from_user (id_db db) uid =? -1) then Ret db
  else store_vector db uid v.

(** The command [find <id>]: what it prints, the neighbours other than the
    row of the user itself. *)
Definition find (db : Db) (uid : Z)
  : outcome (list GpuIndex.SearchResult * Db) :=
  let row := IdSlab.get_row_from_user (id_db db) uid in
  if row =? -1 then Ret ([], db)
  else
    let d := GLOBAL_DIM db in
    if d <? 0 then Throw length_error
    else
      off ← int64_checked (row * d);
      let n := wrap64 (wrap64 d * 4) in
      let data := MatrixSlab.get_data_ptr (mat_db db) in
      if (off <? 0) || (Z.of_nat (length data) <? off * 4 + n) then Undefined
      else
        let q := take (Z.to_nat n) (drop (Z.to_nat (off * 4)) data) in
        r ← GpuIndex.search_one (gpu db) (floats q) 5;
        Ret (filter (λ x, GpuIndex.id x ≠ wrap64 row) r.1,
             mk_db (id_db db) (mat_db db) r.2 (GLOBAL_DIM db)).

(** The loop of the command [batch <num>], on the [n] random queries [qs]:
    [for (int i = 0; i < n; i += GPU_BATCH_LIMIT)].  An iteration moves [i]
    up, so [fuel] bounds the iterations when it is [n] (see
    [batch_loop_fuel]). *)
Fixpoint batch_loop (fuel : nat) (g : GpuIndex.t (F := F))
    (qs : list (list F)) (n i : Z) : outcome GpuIndex.t :=
  if i <? n then
    match fuel with
    | O => Ret g
    | S fuel' =>
        let c := Z.min GPU_BATCH_LIMIT (n - i) in
        r ← GpuIndex.search g
              (take (Z.to_nat c) (drop (Z.to_nat i) qs)) 5;
        i' ← GpuIndex.int_checked (i + GPU_BATCH_LIMIT);
        batch_loop fuel' r.2 qs n i'
    end
  else Ret g.

Definition batch (db : Db) (qs : list (list F)) : outcome Db :=
  let n := Z.of_nat (length qs) in
  g ← batch_loop (length qs) (gpu db) qs n 0;
  Ret (mk_db (id_db db) (mat_db db) g (GLOBAL_DIM db)).

(** What the stores of a running database have in common: the three
    dimensions agree, the index holds the rows of the slab, decoded, and as
    many of them, every live user has a row of the slab, and the two files
    are such that a restart finds the same objects. *)
Definition consistent (db : Db) : Prop :=
  1 ≤ GLOBAL_DIM db ∧ MAX_CAPACITY * GLOBAL_DIM db + 256 ≤ INT_MAX
  ∧ MatrixSlab.slab_ok (mat_db db)
  ∧ MatrixSlab.get_dim (mat_db db) = GLOBAL_DIM db
  ∧ MatrixSlab.header_in_range (MatrixSlab.header (mat_db db))
  ∧ MatrixSlab.get_capacity (mat_db db)
    ≤ Z.max 1000 (2 * MatrixSlab.get_count (mat_db db))
  ∧ GpuIndex.gpu_ok (gpu db)
  ∧ GpuIndex.dim (gpu db) = GLOBAL_DIM db
  ∧ GpuIndex.max_vectors (gpu db) = MAX_CAPACITY
  ∧ GpuIndex.max_batch_size (gpu db) = 100
  ∧ GpuIndex.current_count (gpu db) = MatrixSlab.get_count (mat_db db)
  ∧ (∀ r, 0 ≤ r < MatrixSlab.get_count (mat_db db) →
       GpuIndex.db_row (gpu db) r
       = floats (MatrixSlab.read_row (mat_db db) r))
  ∧ IdSlab.inv (id_db db) ∧ IdSlab.mapped_in_range (id_db db)
  ∧ IdSlab.logged (id_db db)
  ∧ IdSlab.auto_id (id_db db) ≤ MatrixSlab.get_count (mat_db db)
  ∧ (∀ u, is_Some (IdSlab.user_auto (id_db db) !! u) →
       0 ≤ IdSlab.get_row_from_user (id_db db) u
         < MatrixSlab.get_count (mat_db db)).

End Model.

(** Examples over the integers, where a [float] is decoded as the integer
    that its four bytes spell: a vector of 128 floats; the database that
    [main] creates; the database after [put 7 <example_vector>], and after
    [put 8 <example_vector_two>] on that one; a slab of
    [MAX_CAPACITY] rows of 128 floats, and the database that [main] opens
    on its file and on an empty log. *)
Definition example_vector : list byte :=
  le_encode 4 1 ++ replicate 508 x00.

Definition example_db : Db :=
  mk_db IdSlab.slab_empty
    (MatrixSlab.mk
       (MatrixSlab.mk_header MatrixSlab.MAGIC 0 0 128
          MatrixSlab.INITIAL_CAPACITY (replicate 96 x00))
       (replicate (Z.to_nat (4 * 128 * MatrixSlab.INITIAL_CAPACITY)) x00))
    (GpuIndex.new 128 MAX_CAPACITY 0) 128.

Definition example_db_one : Db :=
  match put le_decode example_db 7 example_vector return Db with
  | Ret db => db
  | _ => example_db
  end.

Definition example_vector_two : list byte :=
  le_encode 4 2 ++ replicate 508 x00.

Definition example_db_two : Db :=
  match put le_decode example_db_one 8 example_vector_two return Db with
  | Ret db => db
  | _ => example_db
  end.

Definition slab_million : MatrixSlab.t :=
  MatrixSlab.mk
    (MatrixSlab.mk_header MatrixSlab.MAGIC 0 MAX_CAPACITY 128 1024000
       (replicate 96 x00))
    (replicate (Z.to_nat (4 * 128 * 1024000)) x00).

Definition example_db_full : Db :=
  match startup le_decode (Some (MatrixSlab.file_of slab_million))
          (Some []) IdSlab.no_garbage 0 return Db with
  | Ret db => db
  | _ => example_db
  end.

Definition example_batch : list (list Z) := replicate 3 (replicate 128 0).

End Main.

(** * Facts shared by the three components *)

(** ** Bytes *)

Lemma Z_of_byte_of_Z z : Z_of_byte (byte_of_Z z) = z mod 256.
Proof.
  unfold Z_of_byte, byte_of_Z.
  pose proof (Z.mod_pos_bound z 256 ltac:(lia)) as Hb.
  destruct (Byte.of_N (Z.to_N (z mod 256))) as [b|] eqn:E; simpl.
  - apply Byte.to_of_N in E. rewrite E. lia.
  - apply Byte.of_N_None_iff in E. lia.
Qed.

Lemma le_encode_length n z : length (le_encode n z) = n.
Proof. revert z. induction n; intros; simpl; auto. Qed.

Lemma le_decode_encode n z :
  le_decode (le_encode n z) = z mod 256 ^ Z.of_nat n.
Proof.
  revert z. induction n as [|n IH]; intros z.
  { simpl. rewrite Z.mod_1_r. reflexivity. }
  cbn [le_encode le_decode]. rewrite IH, Z_of_byte_of_Z.
  rewrite Nat2Z.inj_succ, Z.pow_succ_r by lia.
  rewrite Z.rem_mul_r by lia. reflexivity.
Qed.

Lemma le_decode_nonneg bs : 0 ≤ le_decode bs.
Proof.
  induction bs as [|b bs IH]; simpl; [lia|].
  unfold Z_of_byte. lia.
Qed.

Lemma le_decode_bound bs :
  0 ≤ le_decode bs < 256 ^ Z.of_nat (length bs).
Proof.
  induction bs as [|b bs IH]; [simpl; lia|].
  cbn [le_decode length]. rewrite Nat2Z.inj_succ, Z.pow_succ_r by lia.
  assert (0 ≤ Z_of_byte b < 256).
  { unfold Z_of_byte. pose proof (Byte.to_N_bounded b). lia. }
  lia.
Qed.

(** ** Arithmetic of the unsigned types *)

Lemma wrap64_small z : 0 ≤ z < 2 ^ 64 → wrap64 z = z.
Proof. intros H. unfold wrap64. apply Z.mod_small, H. Qed.

Lemma wrap64_mul_l a b : wrap64 (wrap64 a * b) = wrap64 (a * b).
Proof. unfold wrap64. apply Z.mul_mod_idemp_l. lia. Qed.

Lemma to_int64_nonneg z : 0 ≤ z < 2 ^ 64 → (to_int64 z <? 0) = (OFF_MAX <? z).
Proof.
  intros H. unfold to_int64, OFF_MAX. rewrite Z.mod_small by exact H.
  destruct (z <? 2 ^ 63) eqn:E.
  - apply Z.ltb_lt in E. transitivity false; [|symmetry]; lia.
  - apply Z.ltb_ge in E. transitivity true; [|symmetry]; lia.
Qed.

Lemma to_int32_small z : - 2 ^ 31 ≤ z ≤ INT_MAX → to_int32 z = z.
Proof.
  unfold to_int32, INT_MAX. intros Hz.
  destruct (Z.neg_nonneg_cases z) as [Hneg|Hpos].
  - replace (z mod 2 ^ 32) with (z + 2 ^ 32).
    + replace (z + 2 ^ 32 <? 2 ^ 31) with false
        by (symmetry; apply Z.ltb_ge; lia). lia.
    + apply (Z.mod_unique _ _ (-1)); lia.
  - rewrite Z.mod_small by lia.
    replace (z <? 2 ^ 31) with true by (symmetry; apply Z.ltb_lt; lia).
    reflexivity.
Qed.

(** ** Outcomes *)

Lemma bind_ret_inv {A B} (m : outcome A) (k : A → outcome B) b :
  m ≫= k = Ret b → ∃ a, m = Ret a ∧ k a = Ret b.
Proof. destruct m as [a| |]; cbn; try discriminate. eauto. Qed.

Lemma outcome_bind_ret {A B} (a : A) (k : A → outcome B) :
  Ret a ≫= k = k a.
Proof. reflexivity. Qed.

(** ** Slices of a buffer *)

Lemma row_of_prefix {A} (l k : list A) a n :
  (a + n ≤ length l)%nat → take n (drop a (l ++ k)) = take n (drop a l).
Proof. intros H. rewrite !take_drop_commute, take_app_le by lia. done. Qed.

Lemma row_of_take {A} (l : list A) a n m :
  (a + n ≤ m)%nat → take n (drop a (take m l)) = take n (drop a l).
Proof.
  intros H. rewrite !take_drop_commute, take_take.
  replace ((a + n) `min` m)%nat with (a + n)%nat by lia. done.
Qed.

Lemma row_written {A} (l v k : list A) off :
  (off ≤ length l)%nat →
  take (length v) (drop off (take off l ++ v ++ k)) = v.
Proof.
  intros H. rewrite drop_app_length' by (rewrite length_take; lia).
  apply take_app_length'. done.
Qed.

(** * Facts about IdSlab *)

Module IdSlabFacts.
Import IdSlab.

(** ** The stream *)

Lemma stream_read_unread n buf f :
  (length (unread (stream_read n buf f).2) ≤ length (unread f))%nat.
Proof.
  unfold stream_read. destruct (failbit f); simpl; [lia|].
  destruct (n <=? length (unread f))%nat; simpl; [|lia].
  rewrite length_drop. lia.
Qed.

Lemma read_u8_consumes old f :
  failbit (read_u8 old f).2 = false →
  (length (unread (read_u8 old f).2) < length (unread f))%nat.
Proof.
  unfold read_u8, stream_read. destruct (failbit f) eqn:Hf; simpl.
  { rewrite Hf. discriminate. }
  destruct (unread f) as [|b bs] eqn:Hu; simpl; [discriminate|].
  intros _. rewrite drop_0. lia.
Qed.

Lemma read_u64_unread old f :
  (length (unread (read_u64 old f).2) ≤ length (unread f))%nat.
Proof.
  unfold read_u64.
  pose proof (stream_read_unread 8 (le_encode 8 old) f) as H.
  destruct (stream_read 8 (le_encode 8 old) f). exact H.
Qed.

Lemma read_i64_unread old f :
  (length (unread (read_i64 old f).2) ≤ length (unread f))%nat.
Proof.
  unfold read_i64.
  pose proof (stream_read_unread 8 (le_encode 8 old) f) as H.
  destruct (stream_read 8 (le_encode 8 old) f). exact H.
Qed.

Lemma replay_loop_eof fuel s l f :
  unread f = [] → replay_loop fuel s l f = Ret s.
Proof.
  intros Hu.
  assert (failbit (read_u8 (op_val l) f).2 = true) as Hf.
  { unfold read_u8, stream_read. rewrite Hu.
    destruct (failbit f) eqn:E; simpl; [exact E | reflexivity]. }
  destruct fuel; simpl; destruct (read_u8 (op_val l) f) as [op f1];
    simpl in Hf; rewrite Hf; reflexivity.
Qed.

(** Any fuel that covers the unread bytes gives the same run of the loop:
    the loop ends by itself, at the first failed read of [op_val]. *)
Lemma replay_loop_fuel n m s l f :
  (length (unread f) ≤ n)%nat → (length (unread f) ≤ m)%nat →
  replay_loop n s l f = replay_loop m s l f.
Proof.
  revert m s l f. induction n as [|n IH]; intros m s l f Hn Hm.
  { rewrite !replay_loop_eof; [reflexivity| |];
      destruct (unread f); simpl in *; auto; lia. }
  destruct m as [|m].
  { rewrite !replay_loop_eof; [reflexivity| |];
      destruct (unread f); simpl in *; auto; lia. }
  simpl. pose proof (read_u8_consumes (op_val l) f) as Hc.
  destruct (read_u8 (op_val l) f) as [op f1]. simpl in Hc.
  destruct (failbit f1); [reflexivity|]. specialize (Hc eq_refl).
  pose proof (read_u64_unread (user_id l) f1) as H2.
  destruct (read_u64 (user_id l) f1) as [uid f2].
  pose proof (read_u64_unread (read_aid l) f2) as H3.
  destruct (read_u64 (read_aid l) f2) as [aid f3].
  pose proof (read_i64_unread (row_index l) f3) as H4.
  destruct (read_i64 (row_index l) f3) as [row f4]. simpl in *.
  assert (length (unread f4) ≤ n)%nat by lia.
  assert (length (unread f4) ≤ m)%nat by lia.
  destruct (op =? 1).
  { destruct (replay_insert s _) as [s1| |]; cbn; auto. }
  destruct (op =? 2); auto.
Qed.

(** ** The invariant of the two counters *)

Lemma vec_resize_size v n fill v' :
  vec_resize v n fill = Ret v' →
  length v' = Z.to_nat n ∧ n ≤ vector_max_size.
Proof.
  unfold vec_resize. destruct (vector_max_size <? n) eqn:E; [discriminate|].
  intros [= <-]. rewrite length_app, length_take, length_replicate.
  apply Z.ltb_ge in E. lia.
Qed.

Lemma vec_store_inv v i x v' :
  vec_store v i x = Ret v' →
  0 ≤ i < vec_size v ∧ v' = <[Z.to_nat i := x]> v.
Proof.
  unfold vec_store.
  destruct (0 <=? i) eqn:E1; destruct (i <? vec_size v) eqn:E2;
    cbn; try discriminate.
  intros [= <-]. apply Z.leb_le in E1. apply Z.ltb_lt in E2. auto.
Qed.

Lemma vec_push_back_inv v x v' :
  vec_push_back v x = Ret v' →
  vec_size v < vector_max_size ∧ v' = v ++ [x].
Proof.
  unfold vec_push_back.
  destruct (vector_max_size <=? vec_size v) eqn:E; [discriminate|].
  intros [= <-]. apply Z.leb_gt in E. auto.
Qed.

Lemma replay_insert_inv s l s' :
  inv s → replay_insert s l = Ret s' → inv s'.
Proof.
  unfold inv, replay_insert. intros [Hid Hmax].
  destruct (vec_size (auto_row s) <=? read_aid l) eqn:Hge; simpl.
  - destruct (vec_resize _ _ _) as [v1| |] eqn:Hr; cbn; try discriminate.
    apply vec_resize_size in Hr as [Hlen Hn].
    destruct (vec_store _ _ _) as [v2| |] eqn:Hs; cbn; try discriminate.
    apply vec_store_inv in Hs as [Hi ->]. intros [= <-]. simpl.
    apply Z.leb_le in Hge. unfold vec_size in *.
    rewrite length_insert, Hlen in *.
    assert (0 ≤ wrap64 (read_aid l + 1)).
    { unfold wrap64. apply Z.mod_pos_bound. lia. }
    rewrite Z2Nat.id in * by lia.
    replace (auto_id s <=? read_aid l) with true
      by (symmetry; apply Z.leb_le; lia).
    lia.
  - destruct (vec_store _ _ _) as [v2| |] eqn:Hs; cbn; try discriminate.
    apply vec_store_inv in Hs as [Hi ->]. intros [= <-]. simpl.
    apply Z.leb_gt in Hge. unfold vec_size in *. rewrite length_insert.
    replace (auto_id s <=? read_aid l) with false
      by (symmetry; apply Z.leb_gt; lia).
    lia.
Qed.

Lemma replay_delete_inv s l : inv s → inv (replay_delete s l).
Proof.
  unfold inv, replay_delete, vec_size. intros [Hid Hmax]. simpl.
  destruct (read_aid l <? _); rewrite ?length_insert; auto.
Qed.

Lemma replay_loop_inv fuel s l f s' :
  inv s → replay_loop fuel s l f = Ret s' → inv s'.
Proof.
  revert s l f. induction fuel as [|fuel IH]; intros s l f Hinv; simpl;
    destruct (read_u8 (op_val l) f) as [op f1];
    destruct (failbit f1); try (intros [= <-]; exact Hinv).
  destruct (read_u64 (user_id l) f1) as [uid f2].
  destruct (read_u64 (read_aid l) f2) as [aid f3].
  destruct (read_i64 (row_index l) f3) as [row f4].
  destruct (op =? 1).
  { destruct (replay_insert s _) as [s1| |] eqn:Hi; cbn; try discriminate.
    apply IH. eapply replay_insert_inv; eauto. }
  destruct (op =? 2).
  - apply IH. apply replay_delete_inv, Hinv.
  - apply IH, Hinv.
Qed.

Lemma new_inv file garbage s : new file garbage = Ret s → inv s.
Proof.
  unfold new, replay_log. simpl.
  destruct (replay_loop _ _ _ _) as [s1| |] eqn:Hl; cbn; try discriminate.
  apply replay_loop_inv in Hl as [Hid Hmax].
  2:{ split; [reflexivity|]. unfold vec_size, vector_max_size. simpl. lia. }
  intros [= <-]. unfold inv. simpl.
  rewrite Hid, Z.ltb_irrefl. auto.
Qed.

Lemma insert_fresh s uid row o s' :
  user_auto s !! uid = None → insert s uid row = Ret (o, s') →
  vec_size (auto_row s) < vector_max_size ∧ o = Some (auto_id s) ∧
  s' = mk (<[uid := auto_id s]> (user_auto s)) (auto_row s ++ [row])
          (write_log_entry OP_INSERT uid (auto_id s) row (logfile s))
          (wrap64 (auto_id s + 1)).
Proof.
  unfold insert. intros ->.
  destruct (vec_push_back _ _) as [v| |] eqn:Hp; cbn; try discriminate.
  apply vec_push_back_inv in Hp as [Hlt ->]. intros [= <- <-]. auto.
Qed.

Lemma insert_inv s uid row o s' :
  inv s → insert s uid row = Ret (o, s') → inv s'.
Proof.
  intros [Hid Hmax] Hins. destruct (user_auto s !! uid) eqn:Hu.
  - unfold insert in Hins. rewrite Hu in Hins.
    injection Hins as <- <-. split; auto.
  - apply insert_fresh in Hins as (Hlt & -> & ->); [|exact Hu].
    unfold inv, vec_size in *. simpl. rewrite length_app. simpl.
    unfold wrap64, vector_max_size in *. rewrite Z.mod_small; lia.
Qed.

Lemma remove_inv s uid : inv s → inv (remove s uid).
Proof.
  unfold inv, remove, vec_size. intros [Hid Hmax].
  destruct (user_auto s !! uid) as [aid|]; simpl; auto.
  destruct (aid <? _); rewrite ?length_insert; auto.
Qed.

Lemma reachable_inv s : Reachable s → inv s.
Proof.
  induction 1 as [file garbage s Hnew | s uid row o s' _ IH Hins
                 | s uid _ IH].
  - eapply new_inv, Hnew.
  - eapply insert_inv; eauto.
  - apply remove_inv, IH.
Qed.

Lemma insert_fresh_returns s uid row :
  user_auto s !! uid = None → vec_size (auto_row s) < vector_max_size →
  insert s uid row =
  Ret (Some (auto_id s),
       mk (<[uid := auto_id s]> (user_auto s)) (auto_row s ++ [row])
          (write_log_entry OP_INSERT uid (auto_id s) row (logfile s))
          (wrap64 (auto_id s + 1))).
Proof.
  intros Hu Hlt. unfold insert, vec_push_back. rewrite Hu.
  replace (vector_max_size <=? vec_size (auto_row s)) with false
    by (symmetry; apply Z.leb_gt; exact Hlt).
  reflexivity.
Qed.

Lemma get_row_last v x log ua next :
  get_row (mk ua (v ++ [x]) log next) (vec_size v) = x.
Proof.
  unfold get_row, vec_size. simpl. rewrite length_app. simpl.
  replace (Z.of_nat (length v + 1) <=? Z.of_nat (length v)) with false
    by (symmetry; apply Z.leb_gt; lia).
  rewrite Nat2Z.id, lookup_app_r, Nat.sub_diag by lia. reflexivity.
Qed.

Lemma reachable_slab_empty : Reachable slab_empty.
Proof. apply (Reachable_new None no_garbage). reflexivity. Qed.

Lemma reachable_slab_user7 : Reachable slab_user7.
Proof.
  apply (Reachable_insert slab_empty 7 0 (Some 0)).
  - apply reachable_slab_empty.
  - reflexivity.
Qed.

(** ** The claims *)

(** C2, where the code departs from it.  The log is one complete record,
    INSERT of user 7 with auto id 0 and row 0, followed by a fragment of one
    byte, [0x02].  The claim says the fragment is ignored, so that replay
    ends in the state of the complete record alone.  The loop tests only the
    read of the opcode: the fragment is run as a DELETE on the fields that
    the last complete record left in the locals, which erases user 7 and
    writes the tombstone at auto id 0. *)
Theorem replay_runs_trailing_fragment garbage :
  new (Some (record OP_INSERT 7 0 0)) garbage
  = Ret (mk (<[7 := 0]> ∅) [0] (record OP_INSERT 7 0 0) 1)
  ∧ new (Some (record OP_INSERT 7 0 0 ++ [x02])) garbage
    = Ret (mk ∅ [-1] (record OP_INSERT 7 0 0 ++ [x02]) 1).
Proof. split; vm_compute; reflexivity. Qed.

(** C3. [insert(u, r)] for a user id [u] that is mapped returns the absent
    auto id and the object it leaves is the object it found: the map, the
    array, the counter and the bytes of the log file are the same. *)
Theorem insert_duplicate_no_effect s uid row aid :
  user_auto s !! uid = Some aid → insert s uid row = Ret (None, s).
Proof. intros Hu. unfold insert. rewrite Hu. reflexivity. Qed.

Lemma insert_duplicate_no_effect_witness :
  user_auto slab_user7 !! 7 = Some 0
  ∧ insert slab_user7 7 5 = Ret (None, slab_user7).
Proof.
  split; [reflexivity|].
  apply (insert_duplicate_no_effect slab_user7 7 5 0). reflexivity.
Defined.

(** C8. From a reachable state in which [u] is not mapped, [insert(u, r1)],
    [remove(u)], [insert(u, r2)]: whenever the two inserts return, both
    return an auto id, the second strictly larger than the first, and the
    lookup of [u] then gives [r2]; and they do return when the array has
    room for two more entries ([push_back] throws at [max_size()]). *)
Theorem insert_remove_insert s uid r1 r2 :
  Reachable s → user_auto s !! uid = None →
  (∀ o1 s1 o2 s3,
     insert s uid r1 = Ret (o1, s1) →
     insert (remove s1 uid) uid r2 = Ret (o2, s3) →
     ∃ id1 id2, o1 = Some id1 ∧ o2 = Some id2 ∧ id1 < id2
                ∧ get_row_from_user s3 uid = r2)
  ∧ (vec_size (auto_row s) + 2 ≤ vector_max_size →
     ∃ id1 s1 id2 s3,
       insert s uid r1 = Ret (Some id1, s1)
       ∧ insert (remove s1 uid) uid r2 = Ret (Some id2, s3)).
Proof.
  intros Hreach Hu. destruct (reachable_inv s Hreach) as [Hid Hmax].
  assert (∀ s1, s1 = mk (<[uid := auto_id s]> (user_auto s))
                        (auto_row s ++ [r1])
                        (write_log_entry OP_INSERT uid (auto_id s) r1
                           (logfile s))
                        (wrap64 (auto_id s + 1)) →
          user_auto (remove s1 uid) !! uid = None
          ∧ auto_id (remove s1 uid) = auto_id s + 1
          ∧ vec_size (auto_row (remove s1 uid)) = auto_id s + 1) as Hrem.
  { intros s1 ->. unfold remove. simpl. rewrite lookup_insert_eq. simpl.
    rewrite lookup_delete_eq. split; [reflexivity|].
    unfold wrap64, vector_max_size, vec_size in *.
    rewrite Z.mod_small by lia. split; [reflexivity|].
    destruct (auto_id s <? _); rewrite ?length_insert, length_app;
      simpl; lia. }
  split.
  - intros o1 s1 o2 s3 H1 H2.
    apply insert_fresh in H1 as (_ & -> & Hs1); [|exact Hu].
    destruct (Hrem s1 Hs1) as (Hu' & Hid' & Hlen').
    apply insert_fresh in H2 as (_ & -> & ->); [|exact Hu'].
    exists (auto_id s), (auto_id (remove s1 uid)).
    split; [reflexivity|]. split; [reflexivity|]. split; [lia|].
    unfold get_row_from_user. simpl. rewrite lookup_insert_eq.
    rewrite Hid', <- Hlen'. apply get_row_last.
  - intros Hroom.
    pose proof (insert_fresh_returns s uid r1 Hu ltac:(lia)) as H1.
    eexists _, _. eexists _, _. split; [exact H1|].
    destruct (Hrem _ eq_refl) as (Hu' & Hid' & Hlen').
    apply insert_fresh_returns; [exact Hu'|]. lia.
Qed.

Lemma insert_remove_insert_witness :
  Reachable slab_empty ∧ user_auto slab_empty !! 7 = None
  ∧ (∀ o1 s1 o2 s3,
       insert slab_empty 7 0 = Ret (o1, s1) →
       insert (remove s1 7) 7 2 = Ret (o2, s3) →
       ∃ id1 id2, o1 = Some id1 ∧ o2 = Some id2 ∧ id1 < id2
                  ∧ get_row_from_user s3 7 = 2)
  ∧ (vec_size (auto_row slab_empty) + 2 ≤ vector_max_size →
     ∃ id1 s1 id2 s3,
       insert slab_empty 7 0 = Ret (Some id1, s1)
       ∧ insert (remove s1 7) 7 2 = Ret (Some id2, s3)).
Proof.
  split; [exact reachable_slab_empty|]. split; [reflexivity|].
  apply (insert_remove_insert slab_empty 7 0 2).
  - exact reachable_slab_empty.
  - reflexivity.
Defined.

(** C10. In every reachable state (after the constructor, whatever log it
    replayed, and after every insert and remove) the next auto id is the
    length of the auto→row array.  Hence an insert that returns an auto id
    has pushed the row at the index equal to that id: [get_row] of the
    returned id is the row, and the counters agree again. *)
Theorem auto_id_is_array_length s :
  Reachable s →
  auto_id s = vec_size (auto_row s)
  ∧ ∀ uid row id s',
      insert s uid row = Ret (Some id, s') →
      id = vec_size (auto_row s)
      ∧ auto_row s' = auto_row s ++ [row]
      ∧ get_row s' id = row
      ∧ auto_id s' = vec_size (auto_row s').
Proof.
  intros Hreach. destruct (reachable_inv s Hreach) as [Hid Hmax].
  split; [exact Hid|]. intros uid row id s' Hins.
  assert (inv s') as [Hid' _].
  { eapply insert_inv; [split; eassumption | exact Hins]. }
  destruct (user_auto s !! uid) eqn:Hu.
  { unfold insert in Hins. rewrite Hu in Hins. discriminate. }
  apply insert_fresh in Hins as (_ & Hret & ->); [|exact Hu].
  injection Hret as Hret. subst id. simpl in *. repeat split; auto.
  rewrite Hid. apply get_row_last.
Qed.

Lemma auto_id_is_array_length_witness :
  Reachable slab_user7
  ∧ auto_id slab_user7 = vec_size (auto_row slab_user7)
  ∧ ∀ uid row id s',
      insert slab_user7 uid row = Ret (Some id, s') →
      id = vec_size (auto_row slab_user7)
      ∧ auto_row s' = auto_row slab_user7 ++ [row]
      ∧ get_row s' id = row
      ∧ auto_id s' = vec_size (auto_row s').
Proof.
  split; [exact reachable_slab_user7|].
  apply (auto_id_is_array_length slab_user7).
  apply (Reachable_insert slab_empty 7 0 (Some 0)).
  - apply (Reachable_new None no_garbage). reflexivity.
  - reflexivity.
Defined.

Lemma stream_read_front n buf bs rest :
  length bs = n →
  stream_read n buf (mk_istream (bs ++ rest) false)
  = (bs, mk_istream rest false).
Proof.
  intros <-. unfold stream_read. simpl.
  replace (length bs <=? length (bs ++ rest))%nat with true
    by (symmetry; apply Nat.leb_le; rewrite length_app; lia).
  rewrite take_app_length, drop_app_length. reflexivity.
Qed.

Lemma replay_loop_record fuel s l r tail :
  fields_in_range r →
  replay_loop (S fuel) s l
    (mk_istream
       (raw_record (op_val r) (user_id r) (read_aid r) (row_index r) ++ tail)
       false)
  = (s' ← apply_record s r; replay_loop fuel s' r (mk_istream tail false)).
Proof.
  intros (Hop & Hu & Ha & Hr). unfold raw_record. rewrite <- !app_assoc.
  cbn [replay_loop]. unfold read_u8, read_u64, read_i64.
  rewrite stream_read_front by apply le_encode_length.
  cbn [failbit]. rewrite stream_read_front by apply le_encode_length.
  rewrite stream_read_front by apply le_encode_length.
  rewrite stream_read_front by apply le_encode_length.
  rewrite !le_decode_encode.
  change (256 ^ Z.of_nat 1) with 256. change (256 ^ Z.of_nat 8) with (2 ^ 64).
  rewrite (Z.mod_small (op_val r)), (Z.mod_small (user_id r)),
    (Z.mod_small (read_aid r)) by lia.
  assert (to_int64 (row_index r mod 2 ^ 64) = row_index r) as ->.
  { unfold to_int64. rewrite Z.mod_mod by lia.
    destruct (Z.neg_nonneg_cases (row_index r)).
    - replace (row_index r mod 2 ^ 64) with (row_index r + 2 ^ 64)
        by (apply Z.mod_unique with (-1); lia).
      replace (_ <? _) with false by (symmetry; apply Z.ltb_ge; lia). lia.
    - rewrite Z.mod_small by lia.
      replace (_ <? _) with true by (symmetry; apply Z.ltb_lt; lia). lia. }
  unfold apply_record. destruct r as [op uid aid row]. simpl.
  destruct (op =? 1); [reflexivity|]. destruct (op =? 2); reflexivity.
Qed.

Lemma foldl_stops {A B} (f : A → B → outcome A) (m : outcome A) l :
  (∀ a, m ≠ Ret a) →
  foldl (λ acc x, a ← acc; f a x) m l = m.
Proof.
  intros Hm. induction l as [|x l IH] using rev_ind; [reflexivity|].
  rewrite foldl_snoc, IH. destruct m; cbn; [exfalso; eapply Hm|..]; eauto.
Qed.

Lemma foldl_bind_cons {A B} (f : A → B → outcome A) (a : A) x l :
  foldl (λ acc x, a ← acc; f a x) (Ret a) (x :: l)
  = foldl (λ acc x, a ← acc; f a x) (f a x) l.
Proof. reflexivity. Qed.

Lemma raw_record_length op uid aid row :
  length (raw_record op uid aid row) = 25%nat.
Proof. unfold raw_record. rewrite !length_app, !le_encode_length. done. Qed.

Lemma default_last_cons {A} (d x : A) l :
  default d (last (x :: l)) = default x (last l).
Proof.
  revert d x. induction l as [|y l IH]; intros d x; [reflexivity|].
  change (last (x :: y :: l)) with (last (y :: l)).
  rewrite (IH d y), (IH x y). reflexivity.
Qed.

Lemma replay_loop_records rs : ∀ s l tail,
  Forall fields_in_range rs →
  replay_loop (length (encode_log rs ++ tail)) s l
    (mk_istream (encode_log rs ++ tail) false)
  = (s' ← replay_records s rs;
     replay_loop (length tail) s' (default l (last rs))
       (mk_istream tail false)).
Proof.
  induction rs as [|r rs IH]; intros s l tail Hrs; [reflexivity|].
  apply Forall_cons in Hrs as [Hr Hrs].
  unfold encode_log, replay_records. rewrite fmap_cons, concat_cons.
  fold (encode_log rs). rewrite <- app_assoc, length_app, raw_record_length.
  change (25 + ?n)%nat with (S (24 + n)).
  rewrite replay_loop_record by exact Hr. rewrite foldl_bind_cons.
  destruct (apply_record s r) as [s1| |] eqn:Ha.
  - rewrite outcome_bind_ret.
    rewrite (replay_loop_fuel _ (length (encode_log rs ++ tail)))
      by (cbn [unread]; lia).
    rewrite IH by exact Hrs. rewrite default_last_cons. reflexivity.
  - rewrite foldl_stops by discriminate. reflexivity.
  - rewrite foldl_stops by discriminate. reflexivity.
Qed.

(** ** Mapped auto ids lie inside the array *)

Lemma read_u64_nonneg old f : 0 ≤ (read_u64 old f).1.
Proof.
  unfold read_u64. destruct (stream_read _ _ _). apply le_decode_nonneg.
Qed.

Lemma replay_insert_range s l s' :
  inv s → mapped_in_range s → 0 ≤ read_aid l →
  replay_insert s l = Ret s' → mapped_in_range s'.
Proof.
  unfold inv, mapped_in_range, replay_insert. intros [Hid Hmax] Hm Haid.
  destruct (vec_size (auto_row s) <=? read_aid l) eqn:Hge; simpl.
  - destruct (vec_resize _ _ _) as [v1| |] eqn:Hr; cbn; try discriminate.
    apply vec_resize_size in Hr as [Hlen Hn].
    destruct (vec_store _ _ _) as [v2| |] eqn:Hs; cbn; try discriminate.
    apply vec_store_inv in Hs as [Hi ->]. intros [= <-]. simpl.
    apply Z.leb_le in Hge. unfold vec_size in *. rewrite length_insert.
    intros u a. rewrite lookup_insert. case_decide.
    + intros [= <-]. lia.
    + intros Hu. apply Hm in Hu. lia.
  - destruct (vec_store _ _ _) as [v2| |] eqn:Hs; cbn; try discriminate.
    apply vec_store_inv in Hs as [Hi ->]. intros [= <-]. simpl.
    unfold vec_size in *. rewrite length_insert.
    intros u a. rewrite lookup_insert. case_decide.
    + intros [= <-]. lia.
    + intros Hu. apply Hm in Hu. lia.
Qed.

Lemma replay_delete_range s l :
  mapped_in_range s → mapped_in_range (replay_delete s l).
Proof.
  unfold mapped_in_range, replay_delete, vec_size. intros Hm u a. simpl.
  rewrite lookup_delete. case_decide; [discriminate|].
  intros Hu. apply Hm in Hu.
  destruct (read_aid l <? _); rewrite ?length_insert; exact Hu.
Qed.

Lemma replay_loop_range fuel s l f s' :
  inv s → mapped_in_range s →
  replay_loop fuel s l f = Ret s' → mapped_in_range s'.
Proof.
  revert s l f. induction fuel as [|fuel IH]; intros s l f Hinv Hm; simpl;
    destruct (read_u8 (op_val l) f) as [op f1];
    destruct (failbit f1); try (intros [= <-]; exact Hm).
  destruct (read_u64 (user_id l) f1) as [uid f2].
  pose proof (read_u64_nonneg (read_aid l) f2) as Haid.
  destruct (read_u64 (read_aid l) f2) as [aid f3]. simpl in Haid.
  destruct (read_i64 (row_index l) f3) as [row f4].
  destruct (op =? 1).
  { destruct (replay_insert s _) as [s1| |] eqn:Hi; cbn; try discriminate.
    apply IH.
    - eapply replay_insert_inv; eauto.
    - eapply replay_insert_range; [exact Hinv | exact Hm | | exact Hi].
      exact Haid. }
  destruct (op =? 2).
  - apply IH; [apply replay_delete_inv, Hinv | apply replay_delete_range, Hm].
  - apply IH; assumption.
Qed.

Lemma new_range file garbage s :
  new file garbage = Ret s → mapped_in_range s.
Proof.
  unfold new, replay_log. simpl.
  destruct (replay_loop _ _ _ _) as [s1| |] eqn:Hl; cbn; try discriminate.
  apply replay_loop_range in Hl.
  - intros [= <-]. exact Hl.
  - split; [reflexivity|]. unfold vec_size, vector_max_size. simpl. lia.
  - intros u a. simpl. rewrite lookup_empty. discriminate.
Qed.

Lemma insert_range s uid row o s' :
  inv s → mapped_in_range s → insert s uid row = Ret (o, s') →
  mapped_in_range s'.
Proof.
  intros [Hid Hmax] Hm Hins. destruct (user_auto s !! uid) eqn:Hu.
  - unfold insert in Hins. rewrite Hu in Hins.
    injection Hins as <- <-. exact Hm.
  - apply insert_fresh in Hins as (Hlt & -> & ->); [|exact Hu].
    unfold mapped_in_range, vec_size in *. simpl. intros u a.
    rewrite length_app, lookup_insert. simpl. case_decide.
    + intros [= <-]. lia.
    + intros Hu'. apply Hm in Hu'. lia.
Qed.

Lemma remove_range s uid : mapped_in_range s → mapped_in_range (remove s uid).
Proof.
  unfold mapped_in_range, remove, vec_size. intros Hm.
  destruct (user_auto s !! uid) as [aid|] eqn:Hu; simpl; [|exact Hm].
  intros u a. rewrite lookup_delete. case_decide; [discriminate|].
  intros Hu'. apply Hm in Hu'.
  destruct (aid <? _); rewrite ?length_insert; exact Hu'.
Qed.

Lemma reachable_range s : Reachable s → mapped_in_range s.
Proof.
  induction 1 as [file garbage s Hnew | s uid row o s' Hs IH Hins
                 | s uid _ IH].
  - eapply new_range, Hnew.
  - eapply insert_range; eauto using reachable_inv.
  - apply remove_range, IH.
Qed.

(** ** Sequences of calls *)

Lemma run_snoc s cs c : run s (cs ++ [c]) = (s' ← run s cs; do_call s' c).
Proof. unfold run. rewrite foldl_snoc. reflexivity. Qed.

Lemma do_call_reachable s c s' :
  Reachable s → do_call s c = Ret s' → Reachable s'.
Proof.
  intros Hs. destruct c as [uid row|uid]; simpl.
  - intros Hc. apply bind_ret_inv in Hc as ([o s1] & Hins & [= <-]).
    eapply Reachable_insert; eauto.
  - intros [= <-]. apply Reachable_remove, Hs.
Qed.

Lemma run_reachable s cs s' :
  Reachable s → run s cs = Ret s' → Reachable s'.
Proof.
  intros Hs. revert s'. induction cs as [|c cs IH] using rev_ind; intros s'.
  - intros [= <-]. exact Hs.
  - rewrite run_snoc. intros Hr.
    apply bind_ret_inv in Hr as (s1 & Hr & Hc).
    apply (do_call_reachable s1 c); [apply IH, Hr | exact Hc].
Qed.

(** ** The log of a slab built by calls *)

Lemma write_log_entry_record op uid aid row log :
  write_log_entry op uid aid row log
  = log ++ raw_record (OpCode_val op) uid aid row.
Proof. reflexivity. Qed.

Lemma encode_log_snoc rs r :
  encode_log (rs ++ [r])
  = encode_log rs
    ++ raw_record (op_val r) (user_id r) (read_aid r) (row_index r).
Proof.
  unfold encode_log. rewrite fmap_app, concat_app. f_equal.
Qed.

Lemma replay_records_snoc s rs r :
  replay_records s (rs ++ [r]) = (s' ← replay_records s rs; apply_record s' r).
Proof. unfold replay_records. rewrite foldl_snoc. reflexivity. Qed.

(** Replaying the record that [insert] writes redoes the [push_back]. *)
Lemma replay_insert_push ua ar log uid row :
  vec_size ar < vector_max_size →
  replay_insert (mk ua ar log (vec_size ar))
    (mk_locals (OpCode_val OP_INSERT) uid (vec_size ar) row)
  = Ret (mk (<[uid := vec_size ar]> ua) (ar ++ [row]) log
           (wrap64 (vec_size ar + 1))).
Proof.
  intros Hlt. unfold replay_insert, vec_size, vector_max_size in *. simpl.
  rewrite Z.leb_refl. unfold vec_resize, vec_store, vec_size, vector_max_size.
  rewrite (wrap64_small (Z.of_nat (length ar) + 1)) by lia.
  replace (2 ^ 60 - 1 <? Z.of_nat (length ar) + 1) with false
    by (symmetry; apply Z.ltb_ge; lia).
  rewrite outcome_bind_ret, take_ge by lia.
  replace (Z.to_nat (Z.of_nat (length ar) + 1) - length ar)%nat with 1%nat
    by lia.
  simpl replicate. rewrite length_app. simpl length.
  replace (0 <=? Z.of_nat (length ar)) with true
    by (symmetry; apply Z.leb_le; lia).
  replace (Z.of_nat (length ar) <? Z.of_nat (length ar + 1)) with true
    by (symmetry; apply Z.ltb_lt; lia).
  simpl andb. cbv iota. rewrite outcome_bind_ret, Nat2Z.id.
  rewrite insert_app_r_alt, Nat.sub_diag by lia. reflexivity.
Qed.

Lemma logged_empty : logged slab_empty.
Proof. exists []. split; [constructor|]. split; reflexivity. Qed.

Lemma insert_logged s uid row o s' :
  inv s → logged s → 0 ≤ uid < 2 ^ 64 → - 2 ^ 63 ≤ row < 2 ^ 63 →
  insert s uid row = Ret (o, s') → logged s'.
Proof.
  intros [Hid Hmax] Hlog Huid Hrow Hins.
  destruct (user_auto s !! uid) eqn:Hu.
  { unfold insert in Hins. rewrite Hu in Hins.
    injection Hins as <- <-. exact Hlog. }
  apply insert_fresh in Hins as (Hlt & -> & ->); [|exact Hu].
  destruct Hlog as (rs & Hrs & Hfile & Hrep).
  exists (rs ++ [mk_locals (OpCode_val OP_INSERT) uid (auto_id s) row]).
  split; [|split].
  - apply Forall_app. split; [exact Hrs|]. apply Forall_singleton.
    unfold fields_in_range, vec_size, vector_max_size in *. simpl. lia.
  - simpl. rewrite write_log_entry_record, encode_log_snoc, Hfile.
    reflexivity.
  - intros log. rewrite replay_records_snoc, Hrep, outcome_bind_ret.
    unfold apply_record, with_log. simpl. rewrite Hid.
    apply replay_insert_push, Hlt.
Qed.

Lemma remove_logged s uid :
  inv s → mapped_in_range s → logged s → 0 ≤ uid < 2 ^ 64 →
  logged (remove s uid).
Proof.
  intros [Hid Hmax] Hm Hlog Huid. unfold remove.
  destruct (user_auto s !! uid) as [aid|] eqn:Hu; [|exact Hlog].
  apply Hm in Hu. destruct Hlog as (rs & Hrs & Hfile & Hrep).
  exists (rs ++ [mk_locals (OpCode_val OP_DELETE) uid aid (-1)]).
  split; [|split].
  - apply Forall_app. split; [exact Hrs|]. apply Forall_singleton.
    unfold fields_in_range, vec_size, vector_max_size in *. simpl. lia.
  - simpl. rewrite write_log_entry_record, encode_log_snoc, Hfile.
    reflexivity.
  - intros log. rewrite replay_records_snoc, Hrep, outcome_bind_ret.
    reflexivity.
Qed.

Lemma run_logged cs s :
  Forall call_in_range cs → run slab_empty cs = Ret s → logged s.
Proof.
  revert s. induction cs as [|c cs IH] using rev_ind; intros s Hcs.
  { intros [= <-]. apply logged_empty. }
  apply Forall_app in Hcs as [Hcs Hc]. apply Forall_inv in Hc.
  rewrite run_snoc. intros Hr. apply bind_ret_inv in Hr as (s1 & Hr & Hd).
  pose proof (run_reachable _ _ _ reachable_slab_empty Hr) as Hreach.
  specialize (IH s1 Hcs Hr).
  destruct c as [uid row|uid]; simpl in Hc, Hd.
  - apply bind_ret_inv in Hd as ([o s2] & Hins & [= <-]).
    destruct Hc as [Hu Hrw].
    apply (insert_logged s1 uid row o s2); auto using reachable_inv.
  - injection Hd as <-.
    apply remove_logged; auto using reachable_inv, reachable_range.
Qed.

Lemma logged_reopen s garbage :
  inv s → logged s → new (Some (logfile s)) garbage = Ret s.
Proof.
  intros [Hid Hmax] (rs & Hrs & Hfile & Hrep). unfold new, replay_log.
  simpl. rewrite Hfile.
  pose proof (replay_loop_records rs
                (mk ∅ [] (encode_log rs) 0) garbage [] Hrs) as Hloop.
  rewrite app_nil_r in Hloop. rewrite Hloop, Hrep, outcome_bind_ret.
  rewrite replay_loop_eof by reflexivity. rewrite outcome_bind_ret.
  unfold with_log. simpl. rewrite Hid, Z.ltb_irrefl, <- Hfile, <- Hid.
  destruct s; reflexivity.
Qed.

Lemma new_none garbage s : new None garbage = Ret s → s = slab_empty.
Proof.
  unfold new, replay_log. cbn. intros [= <-]. reflexivity.
Qed.

Lemma get_row_push s s' x a :
  auto_row s' = auto_row s ++ [x] → 0 ≤ a → a ≠ vec_size (auto_row s) →
  get_row s' a = get_row s a.
Proof.
  intros Hrow Ha Hne. unfold get_row, vec_size in *. rewrite Hrow, length_app.
  simpl. destruct (Z.leb_spec (Z.of_nat (length (auto_row s))) a).
  - replace (Z.of_nat (length (auto_row s) + 1) <=? a) with true
      by (symmetry; apply Z.leb_le; lia).
    reflexivity.
  - replace (Z.of_nat (length (auto_row s) + 1) <=? a) with false
      by (symmetry; apply Z.leb_gt; lia).
    rewrite lookup_app_l by lia. reflexivity.
Qed.

(** ** Properties of the log and of the calls *)

(** X1.  Durability.  A slab is created on no file and goes through any
    sequence of [insert] and [remove] calls that return, with arguments in
    the range of their types.  Constructing a slab again on the log file it
    has written gives back exactly the state it had: the same map, the same
    array (tombstones included), the same next auto id, whatever the
    uninitialised locals of [replay_log] hold. *)
Theorem reopen_restores_state garbage0 s0 cs s garbage :
  new None garbage0 = Ret s0 → Forall call_in_range cs → run s0 cs = Ret s →
  new (Some (logfile s)) garbage = Ret s.
Proof.
  intros Hnew Hcs Hrun. apply new_none in Hnew as ->.
  apply logged_reopen.
  - apply reachable_inv. eapply run_reachable; eauto using reachable_slab_empty.
  - eapply run_logged; eauto.
Qed.

(** X2.  In a reachable state, an [insert] that returns an auto id makes
    the lookup of that user return the row, leaves the lookup of every
    other user and the row of every other auto id as they were, and
    appends one record to the log. *)
Theorem insert_then_lookup s uid row id s' :
  Reachable s → insert s uid row = Ret (Some id, s') →
  get_row_from_user s' uid = row
  ∧ (∀ u, u ≠ uid → get_row_from_user s' u = get_row_from_user s u)
  ∧ (∀ a, 0 ≤ a → a ≠ id → get_row s' a = get_row s a)
  ∧ logfile s' = logfile s ++ record OP_INSERT uid id row.
Proof.
  intros Hs Hins. pose proof (reachable_inv s Hs) as [Hid Hmax].
  pose proof (reachable_range s Hs) as Hm.
  destruct (user_auto s !! uid) eqn:Hu.
  { unfold insert in Hins. rewrite Hu in Hins. discriminate. }
  apply insert_fresh in Hins as (Hlt & [= ->] & ->); [|exact Hu].
  split; [|split; [|split]].
  - unfold get_row_from_user. simpl. rewrite lookup_insert_eq, Hid.
    apply get_row_last.
  - intros u Hne. unfold get_row_from_user. simpl.
    rewrite lookup_insert_ne by congruence.
    destruct (user_auto s !! u) as [a|] eqn:Hua; [|reflexivity].
    apply Hm in Hua. apply get_row_push with row; [reflexivity|lia|lia].
  - intros a Ha Hne. apply get_row_push with row; [reflexivity|lia|lia].
  - reflexivity.
Qed.

(** X3.  In a reachable state, [remove] of a mapped user unmaps it (its
    lookup gives -1), writes the tombstone -1 at its auto id, keeps the
    array length and the next auto id (the slot is not reclaimed), appends
    one DELETE record, and leaves the lookup of every user of another auto
    id as it was; a second [remove] of the same user changes nothing. *)
Theorem remove_then_lookup s uid aid :
  Reachable s → user_auto s !! uid = Some aid →
  user_auto (remove s uid) !! uid = None
  ∧ get_row_from_user (remove s uid) uid = -1
  ∧ get_row (remove s uid) aid = -1
  ∧ auto_id (remove s uid) = auto_id s
  ∧ length (auto_row (remove s uid)) = length (auto_row s)
  ∧ logfile (remove s uid) = logfile s ++ record OP_DELETE uid aid (-1)
  ∧ (∀ u, u ≠ uid → user_auto s !! u ≠ Some aid →
       get_row_from_user (remove s uid) u = get_row_from_user s u)
  ∧ remove (remove s uid) uid = remove s uid.
Proof.
  intros Hs Hu. pose proof (reachable_range s Hs uid aid Hu) as Ha.
  unfold vec_size in Ha.
  assert (remove s uid
          = mk (delete uid (user_auto s))
               (<[Z.to_nat aid := -1]> (auto_row s))
               (logfile s ++ record OP_DELETE uid aid (-1))
               (auto_id s)) as ->.
  { unfold remove, vec_size. rewrite Hu.
    replace (aid <? Z.of_nat (length (auto_row s))) with true
      by (symmetry; apply Z.ltb_lt; lia).
    reflexivity. }
  assert (get_row_new : ∀ ua log next a,
    get_row (mk ua (<[Z.to_nat aid := -1]> (auto_row s)) log next) a
    = if Z.of_nat (length (auto_row s)) <=? a then -1
      else default (-1) (<[Z.to_nat aid := -1]> (auto_row s) !! Z.to_nat a)).
  { intros. unfold get_row, vec_size. simpl. rewrite length_insert.
    reflexivity. }
  repeat split.
  - simpl. apply lookup_delete_eq.
  - unfold get_row_from_user. simpl. rewrite lookup_delete_eq. reflexivity.
  - rewrite get_row_new.
    replace (Z.of_nat (length (auto_row s)) <=? aid) with false
      by (symmetry; apply Z.leb_gt; lia).
    rewrite list_lookup_insert_eq by lia. reflexivity.
  - simpl. apply length_insert.
  - intros u Hne Hother. unfold get_row_from_user. simpl.
    rewrite lookup_delete_ne by congruence.
    destruct (user_auto s !! u) as [a|] eqn:Hua; [|reflexivity].
    pose proof (reachable_range s Hs u a Hua) as Ha'.
    rewrite get_row_new. unfold get_row, vec_size.
    rewrite list_lookup_insert_ne; [reflexivity|].
    intros Heq. apply Hother. f_equal. lia.
  - unfold remove. simpl. rewrite lookup_delete_eq. reflexivity.
Qed.

(** X4.  In a reachable state every mapped auto id is below the next auto
    id; so the id that [insert] hands out is mapped by no user, and the
    next auto id goes up by one. *)
Theorem auto_ids_fresh s :
  Reachable s →
  (∀ u a, user_auto s !! u = Some a → 0 ≤ a < auto_id s)
  ∧ ∀ uid row id s',
      insert s uid row = Ret (Some id, s') →
      id = auto_id s
      ∧ (∀ u, user_auto s !! u ≠ Some id)
      ∧ user_auto s' = <[uid := id]> (user_auto s)
      ∧ auto_id s' = id + 1.
Proof.
  intros Hs. pose proof (reachable_inv s Hs) as [Hid Hmax].
  pose proof (reachable_range s Hs) as Hm.
  split.
  { intros u a Hu. rewrite Hid. eauto. }
  intros uid row id s' Hins.
  destruct (user_auto s !! uid) eqn:Hu.
  { unfold insert in Hins. rewrite Hu in Hins. discriminate. }
  apply insert_fresh in Hins as (Hlt & [= ->] & ->); [|exact Hu].
  split; [reflexivity|]. split; [|split; [reflexivity|]].
  - intros u Hua. apply Hm in Hua. lia.
  - simpl. apply wrap64_small. unfold vector_max_size, vec_size in *. lia.
Qed.

Lemma apply_record_inv s r s' : inv s → apply_record s r = Ret s' → inv s'.
Proof.
  unfold apply_record. intros Hinv.
  destruct (op_val r =? _); [apply replay_insert_inv, Hinv|].
  destruct (op_val r =? _); intros [= <-];
    [apply replay_delete_inv, Hinv | exact Hinv].
Qed.

Lemma replay_records_inv s rs s' :
  inv s → replay_records s rs = Ret s' → inv s'.
Proof.
  intros Hinv. revert s'. induction rs as [|r rs IH] using rev_ind; intros s'.
  - intros [= <-]. exact Hinv.
  - rewrite replay_records_snoc. intros Hr.
    apply bind_ret_inv in Hr as (s1 & Hr & Ha).
    eapply apply_record_inv; [apply IH, Hr | exact Ha].
Qed.

(** X5.  On a log made of complete records the constructor is the fold of
    the per-record effect over the records, in order: the result does not
    depend on the uninitialised locals, a record of an unknown opcode is
    skipped, and the final adjustment of [auto_id] in [replay_log] never
    changes anything. *)
Theorem replay_complete_records rs garbage :
  Forall fields_in_range rs →
  new (Some (encode_log rs)) garbage
  = replay_records (mk ∅ [] (encode_log rs) 0) rs.
Proof.
  intros Hrs. unfold new, replay_log. simpl.
  pose proof (replay_loop_records rs
                (mk ∅ [] (encode_log rs) 0) garbage [] Hrs) as Hloop.
  rewrite app_nil_r in Hloop. rewrite Hloop.
  destruct (replay_records _ rs) as [s| |] eqn:Hr; [|reflexivity..].
  rewrite outcome_bind_ret, replay_loop_eof by reflexivity.
  rewrite outcome_bind_ret.
  apply replay_records_inv in Hr as [Hid _].
  2:{ split; [reflexivity|]. unfold vec_size, vector_max_size. simpl. lia. }
  rewrite Hid, Z.ltb_irrefl, <- Hid. destruct s; reflexivity.
Qed.

(** X6.  A log that starts with an INSERT record of a huge auto id makes
    the constructor fail: [resize(read_aid + 1)] throws [std::length_error]
    when the id is at or above [max_size()], and for the id [2^64 - 1] the
    sum wraps to 0, the array is resized to nothing and the store that
    follows is outside it. *)
Theorem replay_huge_auto_id uid aid row rest garbage :
  0 ≤ uid < 2 ^ 64 → - 2 ^ 63 ≤ row < 2 ^ 63 →
  (vector_max_size ≤ aid < 2 ^ 64 - 1 →
   new (Some (record OP_INSERT uid aid row ++ rest)) garbage
   = Throw length_error)
  ∧ (aid = 2 ^ 64 - 1 →
     new (Some (record OP_INSERT uid aid row ++ rest)) garbage = Undefined).
Proof.
  intros Huid Hrow.
  assert (0 ≤ aid < 2 ^ 64 →
    ∃ k, new (Some (record OP_INSERT uid aid row ++ rest)) garbage
         = (s' ← (s1 ← replay_insert
                          (mk ∅ [] (record OP_INSERT uid aid row ++ rest) 0)
                          (mk_locals 1 uid aid row);
                  k s1);
            Ret (mk (user_auto s') (auto_row s') (logfile s')
                   (if auto_id s' <? vec_size (auto_row s')
                    then vec_size (auto_row s') else auto_id s'))))
    as Hnew.
  { intros Haid. eexists. unfold new, replay_log.
    cbn [default from_option logfile]. unfold id.
    change (record OP_INSERT uid aid row)
      with (raw_record (op_val (mk_locals 1 uid aid row))
              (user_id (mk_locals 1 uid aid row))
              (read_aid (mk_locals 1 uid aid row))
              (row_index (mk_locals 1 uid aid row))).
    rewrite length_app, raw_record_length.
    change (25 + ?n)%nat with (S (24 + n)).
    rewrite replay_loop_record; [reflexivity|].
    unfold fields_in_range. cbn [op_val user_id read_aid row_index]. lia. }
  unfold vector_max_size. split; intros Haid.
  - destruct Hnew as [k ->]; [lia|].
    assert (replay_insert
              (mk ∅ [] (record OP_INSERT uid aid row ++ rest) 0)
              (mk_locals 1 uid aid row) = Throw length_error) as ->.
    { unfold replay_insert, vec_resize, vector_max_size.
      cbn [auto_row read_aid]. change (vec_size []) with 0.
      replace (0 <=? aid) with true by (symmetry; apply Z.leb_le; lia).
      rewrite (wrap64_small (aid + 1)) by lia.
      replace (2 ^ 60 - 1 <? aid + 1) with true
        by (symmetry; apply Z.ltb_lt; lia).
      reflexivity. }
    reflexivity.
  - destruct Hnew as [k ->]; [lia|].
    assert (replay_insert
              (mk ∅ [] (record OP_INSERT uid aid row ++ rest) 0)
              (mk_locals 1 uid aid row) = Undefined) as ->.
    { subst aid. reflexivity. }
    reflexivity.
Qed.

Lemma do_call_model s m c s' :
  inv s → mapped_in_range s → unique_ids s → rows_match s m →
  do_call s c = Ret s' →
  unique_ids s' ∧ rows_match s' (rows_after_call m c).
Proof.
  intros [Hid Hmax] Hm Huniq Hrows Hc. unfold vec_size in *.
  destruct c as [uid row|uid]; simpl in Hc.
  - apply bind_ret_inv in Hc as ([o s1] & Hins & [= <-]). simpl.
    destruct (user_auto s !! uid) as [a|] eqn:Hu.
    + unfold insert in Hins. rewrite Hu in Hins. injection Hins as <- <-.
      split; [exact Huniq|]. pose proof (Hrows uid) as Hr.
      rewrite Hu in Hr. simpl in Hr. apply Hm in Hu.
      destruct (lookup_lt_is_Some_2 (auto_row s) (Z.to_nat a)) as [r Ha];
        [unfold vec_size in Hu; lia|].
      rewrite Ha in Hr. rewrite Hr. exact Hrows.
    + pose proof (Hrows uid) as Hr. rewrite Hu in Hr. simpl in Hr.
      rewrite Hr.
      apply insert_fresh in Hins as (Hlt & _ & ->); [|exact Hu].
      split.
      * intros u1 u2 a. simpl. rewrite !lookup_insert.
        repeat case_decide; subst; try congruence.
        -- intros [= <-] H2. apply Hm in H2. unfold vec_size in H2. lia.
        -- intros H1 [= <-]. apply Hm in H1. unfold vec_size in H1. lia.
        -- apply Huniq.
      * intros u. simpl. rewrite !lookup_insert. case_decide.
        -- subst u. simpl. rewrite Hid, Nat2Z.id.
           rewrite lookup_app_r, Nat.sub_diag by lia. reflexivity.
        -- rewrite Hrows. destruct (user_auto s !! u) as [a|] eqn:Hua;
             [|reflexivity].
           simpl. apply Hm in Hua. unfold vec_size in Hua.
           rewrite lookup_app_l by lia. reflexivity.
  - injection Hc as <-. unfold remove. simpl.
    destruct (user_auto s !! uid) as [a|] eqn:Hu.
    + split.
      * intros u1 u2 b. simpl. rewrite !lookup_delete.
        repeat case_decide; try discriminate. apply Huniq.
      * intros u. simpl. rewrite !lookup_delete. case_decide; [reflexivity|].
        rewrite Hrows. destruct (user_auto s !! u) as [b|] eqn:Hub;
          [|reflexivity].
        simpl. assert (b ≠ a) by (intros ->; eauto).
        apply Hm in Hub, Hu. unfold vec_size in *.
        destruct (a <? _); [|reflexivity].
        rewrite list_lookup_insert_ne by lia. reflexivity.
    + split; [exact Huniq|]. intros u. rewrite lookup_delete.
      case_decide; [|apply Hrows]. subst u. rewrite Hu. reflexivity.
Qed.

Lemma run_model cs s :
  run slab_empty cs = Ret s → unique_ids s ∧ rows_match s (rows_after cs).
Proof.
  revert s. induction cs as [|c cs IH] using rev_ind; intros s.
  { intros [= <-]. split.
    - intros u1 u2 a. simpl. rewrite lookup_empty. discriminate.
    - intros u. simpl. rewrite lookup_empty. reflexivity. }
  rewrite run_snoc. intros Hr. apply bind_ret_inv in Hr as (s1 & Hr & Hd).
  pose proof (run_reachable _ _ _ reachable_slab_empty Hr) as Hreach.
  destruct (IH s1 Hr) as [Hu Hm]. unfold rows_after. rewrite foldl_snoc.
  apply (do_call_model s1 _ c s);
    auto using reachable_inv, reachable_range.
Qed.

(** X7.  A slab created on no file and driven by calls is a map from users
    to rows: after the calls [cs], [get_row_from_user(u)] is the row that
    [rows_after cs] gives to [u], and -1 when [u] is not live; the users
    that [user_auto] maps are the live ones. *)
Theorem slab_is_a_map garbage0 s0 cs s :
  new None garbage0 = Ret s0 → run s0 cs = Ret s →
  ∀ u, get_row_from_user s u = default (-1) (rows_after cs !! u)
       ∧ (user_auto s !! u = None ↔ rows_after cs !! u = None).
Proof.
  intros Hnew Hrun u. apply new_none in Hnew as ->.
  pose proof (run_reachable _ _ _ reachable_slab_empty Hrun) as Hreach.
  pose proof (reachable_range s Hreach) as Hm.
  destruct (run_model cs s Hrun) as [_ Hrows].
  rewrite (Hrows u). unfold get_row_from_user.
  destruct (user_auto s !! u) as [a|] eqn:Hu; simpl; [|done].
  apply Hm in Hu. unfold get_row, vec_size in *.
  replace (Z.of_nat (length (auto_row s)) <=? a) with false
    by (symmetry; apply Z.leb_gt; lia).
  split; [reflexivity|].
  destruct (lookup_lt_is_Some_2 (auto_row s) (Z.to_nat a)) as [r Ha]; [lia|].
  rewrite Ha. done.
Qed.

(** X8.  In a slab created on no file and driven by calls, no two live
    users share an auto id (so the tombstone that [remove] writes touches
    the row of no other live user). *)
Theorem live_users_have_distinct_ids garbage0 s0 cs s :
  new None garbage0 = Ret s0 → run s0 cs = Ret s →
  ∀ u1 u2 a,
    user_auto s !! u1 = Some a → user_auto s !! u2 = Some a → u1 = u2.
Proof.
  intros Hnew Hrun. apply new_none in Hnew as ->.
  apply (run_model cs s Hrun).
Qed.


(** The states of the examples. *)
Lemma run_example_calls : run slab_empty example_calls = Ret slab_reinserted.
Proof. vm_compute. reflexivity. Qed.

Lemma reachable_slab_reinserted : Reachable slab_reinserted.
Proof.
  apply (run_reachable slab_empty example_calls);
    [apply reachable_slab_empty | apply run_example_calls].
Qed.

Lemma reopen_restores_state_witness :
  new None no_garbage = Ret slab_empty
  ∧ Forall call_in_range example_calls
  ∧ run slab_empty example_calls = Ret slab_reinserted
  ∧ new (Some (logfile slab_reinserted)) no_garbage = Ret slab_reinserted.
Proof.
  assert (Forall call_in_range example_calls) as Hcs
    by (repeat constructor; simpl; lia).
  split; [reflexivity|]. split; [exact Hcs|].
  split; [apply run_example_calls|].
  apply (reopen_restores_state no_garbage slab_empty example_calls);
    [reflexivity | exact Hcs | apply run_example_calls].
Defined.

Lemma insert_then_lookup_witness :
  insert slab_user7 8 5 = Ret (Some 1, mk (<[8 := 1]> (<[7 := 0]> ∅)) [0; 5]
                                 (record OP_INSERT 7 0 0
                                  ++ record OP_INSERT 8 1 5) 2)
  ∧ get_row_from_user
      (mk (<[8 := 1]> (<[7 := 0]> ∅)) [0; 5]
          (record OP_INSERT 7 0 0 ++ record OP_INSERT 8 1 5) 2) 7
    = get_row_from_user slab_user7 7.
Proof.
  assert (insert slab_user7 8 5
          = Ret (Some 1, mk (<[8 := 1]> (<[7 := 0]> ∅)) [0; 5]
                   (record OP_INSERT 7 0 0 ++ record OP_INSERT 8 1 5) 2))
    as Hins by (vm_compute; reflexivity).
  split; [exact Hins|].
  pose proof (insert_then_lookup slab_user7 8 5 1 _ reachable_slab_user7 Hins)
    as (_ & Hframe & _).
  apply Hframe. lia.
Defined.

Lemma remove_then_lookup_witness :
  user_auto slab_user7 !! 7 = Some 0
  ∧ get_row_from_user (remove slab_user7 7) 7 = -1
  ∧ get_row (remove slab_user7 7) 0 = -1.
Proof.
  assert (user_auto slab_user7 !! 7 = Some 0) as Hu by reflexivity.
  split; [exact Hu|].
  pose proof (remove_then_lookup slab_user7 7 0 reachable_slab_user7 Hu)
    as (_ & H1 & H2 & _).
  split; [exact H1 | exact H2].
Defined.

Lemma auto_ids_fresh_witness :
  Reachable slab_user7
  ∧ ∀ u a, user_auto slab_user7 !! u = Some a → 0 ≤ a < auto_id slab_user7.
Proof.
  split; [apply reachable_slab_user7|].
  apply (auto_ids_fresh slab_user7 reachable_slab_user7).
Defined.

Lemma replay_complete_records_witness :
  Forall fields_in_range example_records
  ∧ new (Some (encode_log example_records)) no_garbage
    = replay_records (mk ∅ [] (encode_log example_records) 0) example_records.
Proof.
  assert (Forall fields_in_range example_records) as Hrs
    by (repeat constructor; simpl; lia).
  split; [exact Hrs|].
  apply (replay_complete_records example_records no_garbage Hrs).
Defined.

Lemma replay_huge_auto_id_witness :
  new (Some (record OP_INSERT 7 (2 ^ 60) 0 ++ [])) no_garbage
  = Throw length_error
  ∧ new (Some (record OP_INSERT 7 (2 ^ 64 - 1) 0 ++ [])) no_garbage
    = Undefined.
Proof.
  split.
  - apply (replay_huge_auto_id 7 (2 ^ 60) 0 [] no_garbage);
      unfold vector_max_size; lia.
  - apply (replay_huge_auto_id 7 (2 ^ 64 - 1) 0 [] no_garbage); lia.
Defined.

Lemma slab_is_a_map_witness :
  run slab_empty example_calls = Ret slab_reinserted
  ∧ get_row_from_user slab_reinserted 7
    = default (-1) (rows_after example_calls !! 7)
  ∧ (user_auto slab_reinserted !! 7 = None
     ↔ rows_after example_calls !! 7 = None).
Proof.
  split; [apply run_example_calls|].
  apply (slab_is_a_map no_garbage slab_empty example_calls slab_reinserted);
    [reflexivity | apply run_example_calls].
Defined.

Lemma live_users_have_distinct_ids_witness :
  run slab_empty example_calls = Ret slab_reinserted
  ∧ ∀ u1 u2 a,
      user_auto slab_reinserted !! u1 = Some a →
      user_auto slab_reinserted !! u2 = Some a → u1 = u2.
Proof.
  split; [apply run_example_calls|].
  apply (live_users_have_distinct_ids no_garbage slab_empty example_calls);
    [reflexivity | apply run_example_calls].
Defined.

End IdSlabFacts.

(** * Facts about MatrixSlab *)

Module MatrixSlabFacts.
Import MatrixSlab.

(** The size in bytes that [grow_file] and the constructor compute. *)
Lemma file_bytes_exact c d :
  0 ≤ c → 0 ≤ d → sizeof_SlabHeader + 4 * d * c < 2 ^ 64 →
  wrap64 (sizeof_SlabHeader + wrap64 (wrap64 (c * sizeof_float) * d))
  = sizeof_SlabHeader + 4 * d * c.
Proof.
  unfold sizeof_SlabHeader, sizeof_float. intros Hc Hd Hlt.
  rewrite wrap64_mul_l.
  rewrite (wrap64_small (c * 4 * d)) by nia.
  rewrite wrap64_small by nia. lia.
Qed.

(** ** Effect of [add_vector] on the header *)

Lemma grow_file_header s c s' :
  grow_file s c = Ret s' → header s' = set_capacity (header s) c.
Proof.
  unfold grow_file. repeat case_match; try discriminate.
  intros [= <-]. reflexivity.
Qed.

Lemma add_vector_header s v s' :
  add_vector s v = Ret s' →
  header s' =
  set_count
    (if capacity (header s) <=? count (header s)
     then set_capacity (header s) (wrap64 (capacity (header s) * 2))
     else header s)
    (wrap64 (count (header s) + 1)).
Proof.
  unfold add_vector.
  destruct (capacity (header s) <=? count (header s)).
  - destruct (grow_file s _) as [s1| |] eqn:Hg; cbn; try discriminate.
    apply grow_file_header in Hg.
    destruct (memcpy_to_data _ _ _ _) as [d| |]; cbn; try discriminate.
    intros [= <-]. simpl. rewrite Hg. reflexivity.
  - cbn. destruct (memcpy_to_data _ _ _ _) as [d| |]; cbn; try discriminate.
    intros [= <-]. reflexivity.
Qed.

Lemma new_header dimension s :
  new None dimension = Ret s →
  magic (header s) = MAGIC ∧ count (header s) = 0
  ∧ dim (header s) = dimension ∧ capacity (header s) = INITIAL_CAPACITY.
Proof.
  unfold new. destruct (map_file _ _) as [m| |]; cbn; try discriminate.
  destruct (with_header m) as [s0| |]; cbn; try discriminate.
  intros [= <-]. auto.
Qed.

(** The counters after [n] appends, as long as [n] is below [2^63]: the
    count is [n] and the capacity is at most twice the count, so that
    neither has wrapped. *)
Lemma reachable_counters dimension n s :
  Reachable dimension n s → Z.of_nat n < 2 ^ 63 →
  get_count s = Z.of_nat n ∧ INITIAL_CAPACITY ≤ get_capacity s
  ∧ get_count s ≤ get_capacity s
  ∧ get_capacity s ≤ Z.max INITIAL_CAPACITY (2 * get_count s).
Proof.
  unfold get_count, get_capacity, INITIAL_CAPACITY.
  induction 1 as [s Hnew | n s v s' _ IH Hadd]; intros Hn.
  - apply new_header in Hnew as (_ & -> & _ & ->).
    unfold INITIAL_CAPACITY. simpl. lia.
  - destruct IH as (Hc & Hmin & Hle & Hmax); [lia|].
    apply add_vector_header in Hadd. rewrite Hadd. clear Hadd.
    destruct (capacity (header s) <=? count (header s)) eqn:E; simpl.
    + apply Z.leb_le in E. rewrite !wrap64_small by lia. lia.
    + apply Z.leb_gt in E. rewrite !wrap64_small by lia. lia.
Qed.

(** ** Rows of the data region *)

Lemma memcpy_to_data_inv data offset src n d :
  memcpy_to_data data offset src n = Ret d →
  n ≤ Z.of_nat (length src)
  ∧ offset * sizeof_float + n ≤ Z.of_nat (length data)
  ∧ d = take (Z.to_nat (offset * sizeof_float)) data
        ++ take (Z.to_nat n) src
        ++ drop (Z.to_nat (offset * sizeof_float + n)) data.
Proof.
  unfold memcpy_to_data.
  destruct (Z.of_nat (length src) <? n) eqn:E1;
    destruct (Z.of_nat (length data) <? offset * sizeof_float + n) eqn:E2;
    simpl; try discriminate.
  intros [= <-]. apply Z.ltb_ge in E1, E2. auto.
Qed.

(** ** One append in a state that satisfies [slab_ok] *)

(** The first statement of [add_vector]: the state after the growth, if
    any.  The file has room for one more row, and what it held is kept. *)
Lemma maybe_grow s s1 :
  slab_ok s →
  (if capacity (header s) <=? count (header s)
   then grow_file s (wrap64 (capacity (header s) * 2))
   else Ret s) = Ret s1 →
  ∃ c1 zs,
    (c1 = get_capacity s ∨ (get_count s = get_capacity s
                            ∧ c1 = 2 * get_capacity s))
    ∧ get_count s < c1
    ∧ sizeof_SlabHeader + 4 * get_dim s * c1 ≤ OFF_MAX
    ∧ header s1 = set_capacity (header s) c1
    ∧ data_region s1 = data_region s ++ zs
    ∧ Z.of_nat (length (data_region s ++ zs)) = 4 * get_dim s * c1.
Proof.
  unfold slab_ok, get_dim, get_capacity, get_count, sizeof_SlabHeader, OFF_MAX.
  intros (Hd & Hc & Hn & Hlen & Hoff).
  destruct (capacity (header s) <=? count (header s)) eqn:E.
  - apply Z.leb_le in E. unfold grow_file.
    rewrite (wrap64_small (capacity (header s) * 2)) by lia.
    rewrite file_bytes_exact by (unfold sizeof_SlabHeader; nia).
    unfold sizeof_SlabHeader.
    rewrite to_int64_nonneg by nia.
    destruct (OFF_MAX <? _) eqn:E1; [discriminate|].
    apply Z.ltb_ge in E1. unfold OFF_MAX in E1.
    destruct (_ =? 0) eqn:E2; [discriminate|].
    destruct (_ <? 128) eqn:E3; [discriminate|].
    intros [= <-]. simpl.
    exists (capacity (header s) * 2), (replicate
      (Z.to_nat (128 + 4 * dim (header s) * (capacity (header s) * 2) - 128)
       - length (data_region s)) x00).
    split; [right; lia|]. split; [lia|]. split; [lia|].
    split; [reflexivity|].
    rewrite take_ge by nia. split; [reflexivity|].
    rewrite length_app, length_replicate. nia.
  - apply Z.leb_gt in E. intros [= <-]. exists (capacity (header s)), [].
    rewrite app_nil_r. unfold set_capacity. destruct s as [[]]; simpl in *.
    repeat split; auto; lia.
Qed.

Lemma add_vector_spec s v s' :
  slab_ok s → add_vector s v = Ret s' →
  let off := Z.to_nat (4 * get_dim s * get_count s) in
  let nb := Z.to_nat (4 * get_dim s) in
  ∃ c1 zs,
    (c1 = get_capacity s ∨ (get_count s = get_capacity s
                            ∧ c1 = 2 * get_capacity s))
    ∧ get_count s < c1
    ∧ sizeof_SlabHeader + 4 * get_dim s * c1 ≤ OFF_MAX
    ∧ Z.of_nat (length (data_region s ++ zs)) = 4 * get_dim s * c1
    ∧ (nb ≤ length v)%nat
    ∧ header s' = set_count (set_capacity (header s) c1) (get_count s + 1)
    ∧ data_region s' = take off (data_region s ++ zs) ++ take nb v
                       ++ drop (off + nb) (data_region s ++ zs).
Proof.
  intros Hok Hadd off nb. unfold add_vector in Hadd.
  destruct (if capacity (header s) <=? count (header s) then _ else _)
    as [s1| |] eqn:Hg; cbn in Hadd; try discriminate.
  destruct (maybe_grow s s1 Hok Hg) as (c1 & zs & Hc1 & Hlt & Hoff & Hh & Hdat & Hlen).
  destruct Hok as (Hd & Hc & Hn & _ & _).
  unfold get_dim, get_capacity, get_count, sizeof_SlabHeader, OFF_MAX in *.
  rewrite Hh in Hadd. simpl in Hadd.
  assert (0 ≤ dim (header s) * c1 < 2 ^ 61) by nia.
  rewrite (wrap64_small (count (header s) * dim (header s))) in Hadd by nia.
  rewrite (wrap64_small (dim (header s) * sizeof_float)) in Hadd
    by (unfold sizeof_float; nia).
  rewrite (wrap64_small (count (header s) + 1)) in Hadd by lia.
  destruct (memcpy_to_data _ _ _ _) as [d| |] eqn:Hm; cbn in Hadd;
    try discriminate.
  apply memcpy_to_data_inv in Hm as (Hsrc & Hdst & ->).
  injection Hadd as <-. simpl. unfold sizeof_float in *.
  exists c1, zs. rewrite Hdat in *.
  repeat (split; [first [assumption | lia]|]).
  split; [reflexivity|]. subst off nb.
  assert (0 ≤ count (header s) * dim (header s)) by nia.
  replace (Z.to_nat (count (header s) * dim (header s) * 4))
    with (Z.to_nat (4 * dim (header s) * count (header s))) by lia.
  replace (Z.to_nat (dim (header s) * 4))
    with (Z.to_nat (4 * dim (header s))) by lia.
  replace (Z.to_nat (count (header s) * dim (header s) * 4
                     + dim (header s) * 4))
    with (Z.to_nat (4 * dim (header s) * count (header s))
          + Z.to_nat (4 * dim (header s)))%nat by lia.
  reflexivity.
Qed.

Lemma add_vector_returns s v :
  slab_ok s → 4 * get_dim s ≤ Z.of_nat (length v) →
  get_count s < get_capacity s
  ∨ sizeof_SlabHeader + 8 * get_dim s * get_capacity s ≤ OFF_MAX →
  ∃ s', add_vector s v = Ret s'.
Proof.
  unfold slab_ok, get_dim, get_capacity, get_count, sizeof_SlabHeader, OFF_MAX.
  intros (Hd & Hc & Hn & Hlen & Hoff) Hv Hroom.
  assert (0 ≤ dim (header s) * capacity (header s) < 2 ^ 61) by nia.
  assert (0 ≤ count (header s) * dim (header s)
          ≤ dim (header s) * capacity (header s)) by nia.
  unfold add_vector.
  destruct (capacity (header s) <=? count (header s)) eqn:E.
  - apply Z.leb_le in E. destruct Hroom as [Hroom|Hroom]; [lia|].
    unfold grow_file.
    rewrite (wrap64_small (capacity (header s) * 2)) by lia.
    rewrite file_bytes_exact by (unfold sizeof_SlabHeader; nia).
    unfold sizeof_SlabHeader. rewrite to_int64_nonneg by nia.
    replace (OFF_MAX <? _) with false
      by (symmetry; apply Z.ltb_ge; unfold OFF_MAX; lia).
    replace (_ =? 0) with false by (symmetry; apply Z.eqb_neq; nia).
    replace (_ <? 128) with false by (symmetry; apply Z.ltb_ge; nia).
    cbn. unfold memcpy_to_data, sizeof_float.
    rewrite (wrap64_small (count (header s) * dim (header s))) by nia.
    rewrite (wrap64_small (dim (header s) * 4)) by nia.
    rewrite length_app, length_take, length_replicate.
    replace (Z.of_nat (length v) <? _) with false
      by (symmetry; apply Z.ltb_ge; lia).
    replace (Z.of_nat _ <? _) with false
      by (symmetry; apply Z.ltb_ge; nia).
    cbn. eauto.
  - apply Z.leb_gt in E. cbn. unfold memcpy_to_data, sizeof_float.
    rewrite (wrap64_small (count (header s) * dim (header s))) by nia.
    rewrite (wrap64_small (dim (header s) * 4)) by nia.
    replace (Z.of_nat (length v) <? _) with false
      by (symmetry; apply Z.ltb_ge; lia).
    replace (Z.of_nat _ <? _) with false
      by (symmetry; apply Z.ltb_ge; nia).
    cbn. eauto.
Qed.

(** [slab_ok] is kept by an append that returns, for rows that are not
    empty; the creation of a file whose size fits [off_t] sets it up. *)
Lemma add_vector_ok s v s' :
  slab_ok s → 1 ≤ get_dim s → add_vector s v = Ret s' →
  slab_ok s' ∧ get_dim s' = get_dim s.
Proof.
  intros Hok Hdim Hadd.
  destruct (add_vector_spec s v s' Hok Hadd)
    as (c1 & zs & Hc1 & Hlt & Hoff & Hlen & Hnb & Hh & Hdat).
  destruct Hok as (Hd & Hc & Hn & Hl & Ho).
  unfold slab_ok, get_dim, get_capacity, get_count, sizeof_SlabHeader,
    OFF_MAX in *.
  rewrite Hh, Hdat. simpl. split; [|reflexivity].
  assert (0 ≤ dim (header s) * count (header s)
          ∧ dim (header s) * (count (header s) + 1) ≤ dim (header s) * c1)
    as [? ?] by nia.
  split; [lia|]. split; [nia|]. split; [lia|]. split; [|lia].
  rewrite !length_app, length_take, length_drop, length_take. lia.
Qed.

Lemma new_slab_ok dimension s :
  0 ≤ dimension →
  sizeof_SlabHeader + 4 * dimension * INITIAL_CAPACITY ≤ OFF_MAX →
  new None dimension = Ret s →
  slab_ok s ∧ get_dim s = dimension ∧ get_capacity s = INITIAL_CAPACITY.
Proof.
  unfold new, INITIAL_CAPACITY, OFF_MAX. intros Hd Hfit.
  rewrite (file_bytes_exact dimension 1000)
    by (unfold sizeof_SlabHeader in *; lia).
  unfold sizeof_SlabHeader in *. unfold ftruncate.
  rewrite to_int64_nonneg by lia.
  replace (OFF_MAX <? _) with false
    by (symmetry; apply Z.ltb_ge; unfold OFF_MAX; lia).
  unfold map_file. replace (_ =? 0) with false
    by (symmetry; apply Z.eqb_neq; lia).
  cbn. unfold with_header, sizeof_SlabHeader. simpl.
  rewrite take_nil, Nat.sub_0_r. simpl. rewrite length_replicate.
  replace (Z.of_nat _ <? 128) with false by (symmetry; apply Z.ltb_ge; lia).
  cbn. intros [= <-].
  unfold slab_ok, get_dim, get_capacity, get_count, sizeof_SlabHeader,
    OFF_MAX. simpl.
  rewrite length_drop, length_replicate. repeat split; lia.
Qed.

Lemma reachable_ok dimension n s :
  1 ≤ dimension →
  sizeof_SlabHeader + 4 * dimension * INITIAL_CAPACITY ≤ OFF_MAX →
  Reachable dimension n s →
  slab_ok s ∧ get_dim s = dimension ∧ INITIAL_CAPACITY ≤ get_capacity s.
Proof.
  intros Hd Hfit. induction 1 as [s Hnew | n s v s' _ IH Hadd].
  - apply new_slab_ok in Hnew as (? & ? & Hcap); [|lia|assumption].
    rewrite Hcap. split; [assumption|]. split; [assumption|lia].
  - destruct IH as (Hok & Hdim & Hcap).
    pose proof (add_vector_header s v s' Hadd) as Hh.
    apply add_vector_ok in Hadd as [Hok' Hdim']; [|assumption|lia].
    split; [assumption|]. split; [congruence|].
    destruct Hok as (_ & Hc & _). unfold get_capacity in *. rewrite Hh.
    destruct (_ <=? _); simpl; [|assumption].
    rewrite wrap64_small by lia. lia.
Qed.

(** ** The claims on the header *)

(** C1, a counterexample to it.  A file of 128 zero bytes exists; its
    magic field is 0.  The constructor maps it and returns: it reads nothing
    of the header, and the magic of the object is 0, not [0x26872687]. *)
Lemma open_accepts_wrong_magic :
  ∃ s, new (Some zero_file) 4 = Ret s ∧ magic (header s) ≠ MAGIC.
Proof.
  exists (view zero_file). split; [vm_compute; reflexivity|].
  vm_compute. discriminate.
Qed.

(** C1, what the constructor does.  It verifies nothing: a file of at least
    128 bytes always opens, whatever its magic field, and the header the
    object shows is the one found in the file; the magic is [0x26872687]
    after the creation of a new file, where the constructor stores it. *)
Theorem open_takes_magic_from_file :
  (∀ f dimension,
     sizeof_SlabHeader ≤ Z.of_nat (length f) →
     ∃ s, new (Some f) dimension = Ret s ∧ magic (header s) = field 0 4 f)
  ∧ (∀ dimension s,
       new None dimension = Ret s → magic (header s) = MAGIC).
Proof.
  split.
  - intros f dimension Hlen. exists (view f). split; [|reflexivity].
    unfold new, map_file, with_header, sizeof_SlabHeader in *.
    replace (Z.of_nat (length f) =? 0) with false
      by (symmetry; apply Z.eqb_neq; lia).
    cbn. replace (Z.of_nat (length f) <? 128) with false
      by (symmetry; apply Z.ltb_ge; lia).
    reflexivity.
  - intros dimension s Hnew. apply new_header in Hnew. tauto.
Qed.

(** C9.  From the creation of a new file, after [n] appends that returned:
    [count ≤ capacity] and [capacity ≥ INITIAL_CAPACITY]; a further append
    never lowers the capacity, and doubles it when it finds the slab full.
    This holds for every [n] when the rows are not empty and the new file
    fits [off_t] (growth then stops at [ftruncate] long before a counter can
    wrap), and for empty rows (dimension 0) as long as [n < 2^63].
    The append of a row of [dimension] floats does return, with one row
    more: on a slab that is not full the capacity stays, and on a full slab
    whose doubled file fits [off_t] the capacity is doubled. *)
Theorem capacity_invariant dimension n s :
  Reachable dimension n s →
  Z.of_nat n < 2 ^ 63
  ∨ (1 ≤ dimension
     ∧ sizeof_SlabHeader + 4 * dimension * INITIAL_CAPACITY ≤ OFF_MAX) →
  get_count s ≤ get_capacity s ∧ INITIAL_CAPACITY ≤ get_capacity s
  ∧ (∀ v s', add_vector s v = Ret s' →
      get_capacity s ≤ get_capacity s'
      ∧ (get_count s = get_capacity s →
         get_capacity s' = 2 * get_capacity s))
  ∧ (1 ≤ dimension →
     sizeof_SlabHeader + 4 * dimension * INITIAL_CAPACITY ≤ OFF_MAX →
     ∀ v, Z.of_nat (length v) = 4 * dimension →
       (get_count s < get_capacity s →
        ∃ s', add_vector s v = Ret s'
              ∧ get_count s' = get_count s + 1
              ∧ get_capacity s' = get_capacity s)
       ∧ (get_count s = get_capacity s →
          sizeof_SlabHeader + 8 * dimension * get_capacity s ≤ OFF_MAX →
          ∃ s', add_vector s v = Ret s'
                ∧ get_count s' = get_count s + 1
                ∧ get_capacity s' = 2 * get_capacity s)).
Proof.
  intros Hreach Hn.
  assert ((0 ≤ get_count s ≤ get_capacity s ∧ get_count s < 2 ^ 63)
          ∧ INITIAL_CAPACITY ≤ get_capacity s) as (Hle & Hmin).
  { destruct Hn as [Hn|[Hd Hfit]].
    - destruct (reachable_counters _ _ _ Hreach Hn) as (Hc & Hmin & Hle & Hmax).
      unfold INITIAL_CAPACITY in *. lia.
    - destruct (reachable_ok _ _ _ Hd Hfit Hreach) as ((_ & ? & ? & _) & _ & ?).
      lia. }
  assert (∀ v s', add_vector s v = Ret s' →
            get_count s' = get_count s + 1
            ∧ get_capacity s ≤ get_capacity s'
            ∧ (get_count s = get_capacity s →
               get_capacity s' = 2 * get_capacity s)
            ∧ (get_count s < get_capacity s →
               get_capacity s' = get_capacity s)) as Hstep.
  { intros v s' Hadd. apply add_vector_header in Hadd.
    unfold get_count, get_capacity, INITIAL_CAPACITY in *. rewrite Hadd.
    destruct (capacity (header s) <=? count (header s)) eqn:E; simpl.
    - apply Z.leb_le in E. rewrite !wrap64_small by lia. lia.
    - apply Z.leb_gt in E. rewrite wrap64_small by lia. lia. }
  split; [lia|]. split; [exact Hmin|]. split.
  { intros v s' Hadd. destruct (Hstep v s' Hadd) as (_ & ? & ? & _).
    split; assumption. }
  intros Hd Hfit v Hv.
  destruct (reachable_ok _ _ _ Hd Hfit Hreach) as (Hok & Hdim & _).
  split.
  - intros Hroom.
    destruct (add_vector_returns s v Hok) as [s' Hadd];
      [rewrite Hdim; lia | left; exact Hroom |].
    exists s'. destruct (Hstep v s' Hadd) as (? & _ & _ & Hsame).
    split; [exact Hadd|]. split; [assumption|]. apply Hsame, Hroom.
  - intros Hfull Hdouble.
    destruct (add_vector_returns s v Hok) as [s' Hadd];
      [rewrite Hdim; lia | right; rewrite Hdim; exact Hdouble |].
    exists s'. destruct (Hstep v s' Hadd) as (? & _ & Hgrow & _).
    split; [exact Hadd|]. split; [assumption|]. apply Hgrow, Hfull.
Qed.

Lemma add_vectors_reachable dimension s0 vs s :
  new None dimension = Ret s0 → add_vectors s0 vs = Ret s →
  Reachable dimension (length vs) s.
Proof.
  intros Hnew. revert s. induction vs as [|v vs IH] using rev_ind; intros s.
  - intros [= <-]. apply Reachable_new, Hnew.
  - unfold add_vectors. rewrite foldl_snoc, length_app, Nat.add_1_r.
    fold (add_vectors s0 vs).
    destruct (add_vectors s0 vs) as [s1| |]; cbn; try discriminate.
    intros Hadd. eapply Reachable_add; [apply IH; reflexivity | exact Hadd].
Qed.

(** The slab of dimension 1 with its first 1000 rows written is full. *)
Lemma reachable_slab_full : Reachable 1 1000 slab_full.
Proof.
  apply (add_vectors_reachable 1 slab_dim1 (replicate 1000 row_of_ones));
    vm_compute; reflexivity.
Qed.

Lemma capacity_invariant_witness :
  get_count slab_full = get_capacity slab_full
  ∧ ∃ s', add_vector slab_full row_of_ones = Ret s'
          ∧ get_count s' = get_count slab_full + 1
          ∧ get_capacity s' = 2 * get_capacity slab_full.
Proof.
  split; [reflexivity|].
  assert (sizeof_SlabHeader + 4 * 1 * INITIAL_CAPACITY ≤ OFF_MAX) as Hfit
    by (vm_compute; discriminate).
  destruct (capacity_invariant 1 1000 slab_full reachable_slab_full
              (or_introl eq_refl))
    as (_ & _ & _ & Hreturns).
  destruct (Hreturns ltac:(lia) Hfit row_of_ones eq_refl) as [_ Hfull].
  apply Hfull; [reflexivity | vm_compute; discriminate].
Defined.

(** C6.  In a state that satisfies [slab_ok], with [v] a vector of [dim]
    floats: after an append that returns, the count is one more, row [n]
    read from the data pointer is [v], and rows [0..n-1] are what they were,
    whether the file grew or not.  The append does return when the slab is
    not full, and when it is full and the doubled file fits [off_t]. *)
Theorem append_round_trip s v :
  slab_ok s → Z.of_nat (length v) = 4 * get_dim s →
  (∀ s', add_vector s v = Ret s' →
     get_count s' = get_count s + 1
     ∧ read_row s' (get_count s) = v
     ∧ ∀ i, 0 ≤ i < get_count s → read_row s' i = read_row s i)
  ∧ (get_count s < get_capacity s
     ∨ sizeof_SlabHeader + 8 * get_dim s * get_capacity s ≤ OFF_MAX →
     ∃ s', add_vector s v = Ret s').
Proof.
  intros Hok Hv. split; [|apply add_vector_returns; [exact Hok | lia]].
  intros s' Hadd.
  destruct (add_vector_spec s v s' Hok Hadd)
    as (c1 & zs & Hc1 & Hlt & Hoff & Hlen & Hnb & Hh & Hdat).
  destruct Hok as (Hd & Hc & Hn & Hl & Ho).
  unfold read_row, get_data_ptr, get_dim, get_capacity, get_count,
    sizeof_float, sizeof_SlabHeader, OFF_MAX in *.
  rewrite Hh, Hdat. simpl.
  assert (0 ≤ dim (header s) * count (header s)
          ∧ dim (header s) * (count (header s) + 1) ≤ dim (header s) * c1
          ∧ dim (header s) * count (header s)
            ≤ dim (header s) * capacity (header s))
    as (? & ? & ?) by nia.
  rewrite (take_ge v) by lia.
  replace (Z.to_nat (dim (header s) * 4)) with (length v) by lia.
  set (D := data_region s ++ zs) in *.
  set (off := Z.to_nat (4 * dim (header s) * count (header s))).
  split; [reflexivity|]. split.
  - replace (Z.to_nat (count (header s) * dim (header s) * 4)) with off
      by (subst off; lia).
    apply row_written. subst off. lia.
  - intros i Hi.
    assert (0 ≤ i * dim (header s)
            ∧ (i + 1) * dim (header s)
              ≤ count (header s) * dim (header s)) as [? ?] by nia.
    set (a := Z.to_nat (i * dim (header s) * 4)).
    assert (a + length v ≤ off)%nat by (subst a off; lia).
    rewrite row_of_prefix by (rewrite length_take; lia).
    rewrite row_of_take by lia.
    subst D. apply row_of_prefix. lia.
Qed.

Lemma append_round_trip_witness :
  (∀ s', add_vector slab_full row_of_ones = Ret s' →
     get_count s' = get_count slab_full + 1
     ∧ read_row s' (get_count slab_full) = row_of_ones
     ∧ ∀ i, 0 ≤ i < get_count slab_full →
            read_row s' i = read_row slab_full i)
  ∧ (get_count slab_full < get_capacity slab_full
     ∨ sizeof_SlabHeader + 8 * get_dim slab_full * get_capacity slab_full
       ≤ OFF_MAX →
     ∃ s', add_vector slab_full row_of_ones = Ret s').
Proof.
  apply (append_round_trip slab_full row_of_ones).
  - unfold slab_ok, OFF_MAX. vm_compute. intuition discriminate.
  - reflexivity.
Defined.

(** The growth scenario of the specification: 1001 appends to a new slab
    leave a capacity of 2000, a count of 1001, and row 0 as it was
    written. *)
Example growth_after_1001_appends :
  ∃ s, add_vectors slab_dim1 (replicate 1001 row_of_ones) = Ret s
       ∧ get_capacity s = 2000 ∧ get_count s = 1001
       ∧ read_row s 0 = row_of_ones.
Proof. eexists. vm_compute. repeat split. Qed.

Lemma open_takes_magic_from_file_witness :
  sizeof_SlabHeader ≤ Z.of_nat (length zero_file)
  ∧ new None 1 = Ret slab_dim1
  ∧ (∃ s, new (Some zero_file) 1 = Ret s
          ∧ magic (header s) = field 0 4 zero_file)
  ∧ magic (header slab_dim1) = MAGIC.
Proof.
  assert (sizeof_SlabHeader ≤ Z.of_nat (length zero_file)) as Hlen
    by (vm_compute; discriminate).
  assert (new None 1 = Ret slab_dim1) as Hnew by (vm_compute; reflexivity).
  split; [exact Hlen|]. split; [exact Hnew|]. split.
  - exact (proj1 open_takes_magic_from_file zero_file 1 Hlen).
  - exact (proj2 open_takes_magic_from_file 1 slab_dim1 Hnew).
Defined.

(** ** The file behind the object *)

Lemma view_file_of s : header_in_range (header s) → view (file_of s) = s.
Proof.
  destruct s as [[m v c d cap p] data].
  unfold header_in_range, file_of, header_bytes.
  cbn [header magic version count dim capacity pad data_region].
  intros (Hm & Hv & Hc & Hd & Hcap & Hp).
  rewrite <- !app_assoc.
  set (r5 := p ++ data).
  set (r4 := le_encode 8 cap ++ r5).
  set (r3 := le_encode 8 d ++ r4).
  set (r2 := le_encode 8 c ++ r3).
  set (r1 := le_encode 4 v ++ r2).
  assert (∀ (l : list byte) n x rest off,
            drop off l = x ++ rest → length x = n →
            field off n l = le_decode x) as Hfield.
  { intros l n x rest off Hl <-. unfold field.
    rewrite Hl, take_app_length. reflexivity. }
  assert (drop 4 (le_encode 4 m ++ r1) = r1) as D4
    by (apply drop_app_length'; symmetry; apply le_encode_length).
  assert (drop 8 (le_encode 4 m ++ r1) = r2) as D8.
  { change 8%nat with (4 + 4)%nat. rewrite <- drop_drop, D4.
    apply drop_app_length'. symmetry. apply le_encode_length. }
  assert (drop 16 (le_encode 4 m ++ r1) = r3) as D16.
  { change 16%nat with (8 + 8)%nat. rewrite <- drop_drop, D8.
    apply drop_app_length'. symmetry. apply le_encode_length. }
  assert (drop 24 (le_encode 4 m ++ r1) = r4) as D24.
  { change 24%nat with (16 + 8)%nat. rewrite <- drop_drop, D16.
    apply drop_app_length'. symmetry. apply le_encode_length. }
  assert (drop 32 (le_encode 4 m ++ r1) = r5) as D32.
  { change 32%nat with (24 + 8)%nat. rewrite <- drop_drop, D24.
    apply drop_app_length'. symmetry. apply le_encode_length. }
  assert (drop 128 (le_encode 4 m ++ r1) = data) as D128.
  { change 128%nat with (32 + 96)%nat. rewrite <- drop_drop, D32.
    apply drop_app_length'. symmetry. exact Hp. }
  unfold view.
  rewrite (Hfield _ 4%nat (le_encode 4 m) r1 0%nat)
    by (rewrite ?drop_0; auto using le_encode_length).
  rewrite (Hfield _ 4%nat (le_encode 4 v) r2 4%nat D4)
    by apply le_encode_length.
  rewrite (Hfield _ 8%nat (le_encode 8 c) r3 8%nat D8)
    by apply le_encode_length.
  rewrite (Hfield _ 8%nat (le_encode 8 d) r4 16%nat D16)
    by apply le_encode_length.
  rewrite (Hfield _ 8%nat (le_encode 8 cap) r5 24%nat D24)
    by apply le_encode_length.
  rewrite D32, D128. subst r5. rewrite take_app_length' by (symmetry; exact Hp).
  rewrite !le_decode_encode.
  change (256 ^ Z.of_nat 4) with (2 ^ 32).
  change (256 ^ Z.of_nat 8) with (2 ^ 64).
  rewrite !Z.mod_small by assumption. reflexivity.
Qed.

Lemma file_of_length s :
  header_in_range (header s) →
  length (file_of s) = (128 + length (data_region s))%nat.
Proof.
  intros (_ & _ & _ & _ & _ & Hp). unfold file_of, header_bytes.
  rewrite !length_app, !le_encode_length, Hp. reflexivity.
Qed.

Lemma open_file_of s dimension :
  header_in_range (header s) → new (Some (file_of s)) dimension = Ret s.
Proof.
  intros Hh. unfold new, map_file, with_header, sizeof_SlabHeader.
  rewrite file_of_length by exact Hh.
  replace (Z.of_nat (128 + length (data_region s)) =? 0) with false
    by (symmetry; apply Z.eqb_neq; lia).
  rewrite outcome_bind_ret, file_of_length by exact Hh.
  replace (Z.of_nat (128 + length (data_region s)) <? 128) with false
    by (symmetry; apply Z.ltb_ge; lia).
  rewrite view_file_of by exact Hh. reflexivity.
Qed.

Lemma new_header_in_range dimension s :
  0 ≤ dimension < 2 ^ 64 → new None dimension = Ret s →
  header_in_range (header s).
Proof.
  intros Hd. unfold new.
  destruct (map_file _ _) as [m| |]; cbn; try discriminate.
  unfold with_header, sizeof_SlabHeader.
  destruct (Z.of_nat (length m) <? 128) eqn:E; cbn; try discriminate.
  apply Z.ltb_ge in E. intros [= <-]. unfold header_in_range. simpl.
  unfold MAGIC, INITIAL_CAPACITY.
  pose proof (le_decode_bound (take 4 (drop 4 m))) as Hv.
  rewrite length_take, length_drop in Hv.
  replace (Z.of_nat (4 `min` (length m - 4))) with 4 in Hv by lia.
  change (256 ^ 4) with (2 ^ 32) in Hv.
  rewrite length_take, length_drop. unfold field. repeat split; lia.
Qed.

Lemma add_vector_header_in_range s v s' :
  header_in_range (header s) → add_vector s v = Ret s' →
  header_in_range (header s').
Proof.
  intros (Hm & Hv & Hc & Hd & Hcap & Hp) Hadd.
  apply add_vector_header in Hadd. rewrite Hadd. unfold header_in_range.
  assert (∀ z, 0 ≤ wrap64 z < 2 ^ 64) as Hw
    by (intros z; unfold wrap64; apply Z.mod_pos_bound; lia).
  destruct (capacity (header s) <=? count (header s)); simpl;
    repeat split; try first [assumption | apply Hw | lia].
Qed.

Lemma reachable_header_in_range dimension n s :
  0 ≤ dimension < 2 ^ 64 → Reachable dimension n s →
  header_in_range (header s).
Proof.
  intros Hd. induction 1 as [s Hnew | n s v s' _ IH Hadd].
  - eapply new_header_in_range; eauto.
  - eapply add_vector_header_in_range; eauto.
Qed.

(** The slab that the constructor creates. *)
Lemma new_slab_state dimension :
  0 ≤ dimension →
  sizeof_SlabHeader + 4 * dimension * INITIAL_CAPACITY ≤ OFF_MAX →
  new None dimension
  = Ret (mk (mk_header MAGIC 0 0 dimension INITIAL_CAPACITY
               (replicate 96 x00))
            (replicate (Z.to_nat (4 * dimension * INITIAL_CAPACITY)) x00)).
Proof.
  unfold new, INITIAL_CAPACITY, OFF_MAX. intros Hd Hfit.
  rewrite (file_bytes_exact dimension 1000)
    by (unfold sizeof_SlabHeader in *; lia).
  unfold sizeof_SlabHeader in *. unfold ftruncate.
  rewrite to_int64_nonneg by lia.
  replace (OFF_MAX <? _) with false
    by (symmetry; apply Z.ltb_ge; unfold OFF_MAX; lia).
  unfold map_file. replace (_ =? 0) with false
    by (symmetry; apply Z.eqb_neq; lia).
  rewrite take_nil, Nat.sub_0_r, app_nil_l.
  cbn [default from_option]. unfold id. rewrite outcome_bind_ret.
  set (N := Z.to_nat (128 + 4 * 1000 * dimension)).
  assert (128 ≤ N)%nat by (subst N; lia).
  unfold with_header, sizeof_SlabHeader. rewrite ?length_replicate.
  replace (Z.of_nat N <? 128) with false by (symmetry; apply Z.ltb_ge; lia).
  rewrite outcome_bind_ret. unfold view, field.
  cbn [header version pad data_region].
  rewrite !drop_replicate, !take_replicate.
  replace (4 `min` (N - 4))%nat with 4%nat by lia.
  replace (96 `min` (N - 32))%nat with 96%nat by lia.
  replace (N - 128)%nat with (Z.to_nat (4 * dimension * 1000))
    by (subst N; lia).
  reflexivity.
Qed.

(** X9.  Creation.  For a dimension whose file fits [off_t], the
    constructor on a missing file returns a slab of count 0, the given
    dimension and capacity [INITIAL_CAPACITY], over a data region of
    [4 * dimension * INITIAL_CAPACITY] zero bytes.  The [version] field is 0,
    not the 1 of the struct's default initialiser: the constructor stores
    the magic, the count, the dimension and the capacity only. *)
Theorem create_new_slab dimension :
  0 ≤ dimension →
  sizeof_SlabHeader + 4 * dimension * INITIAL_CAPACITY ≤ OFF_MAX →
  new None dimension
  = Ret (mk (mk_header MAGIC 0 0 dimension INITIAL_CAPACITY
               (replicate 96 x00))
            (replicate (Z.to_nat (4 * dimension * INITIAL_CAPACITY)) x00)).
Proof. apply new_slab_state. Qed.

(** X10.  Closing and reopening.  The file of a slab reached from creation
    by appends, opened again, gives the same object: the same header and
    the same data.  The dimension passed to the constructor plays no part
    when the file exists (the caller in [main] passes 0 to read the
    dimension of an existing database). *)
Theorem reopen_slab dimension n s dimension' :
  0 ≤ dimension < 2 ^ 64 → Reachable dimension n s →
  new (Some (file_of s)) dimension' = Ret s.
Proof.
  intros Hd Hreach. apply open_file_of.
  eapply reachable_header_in_range; eauto.
Qed.

(** One append, as the rows see it. *)
Lemma add_vector_rows s v s' :
  slab_ok s → Z.of_nat (length v) = 4 * get_dim s →
  add_vector s v = Ret s' →
  get_count s' = get_count s + 1
  ∧ read_row s' (get_count s) = v
  ∧ ∀ i, 0 ≤ i < get_count s → read_row s' i = read_row s i.
Proof.
  intros Hok Hv Hadd.
  destruct (add_vector_spec s v s' Hok Hadd)
    as (c1 & zs & Hc1 & Hlt & Hoff & Hlen & Hnb & Hh & Hdat).
  destruct Hok as (Hd & Hc & Hn & Hl & Ho).
  unfold read_row, get_data_ptr, get_dim, get_capacity, get_count,
    sizeof_float, sizeof_SlabHeader, OFF_MAX in *.
  rewrite Hh, Hdat. simpl.
  assert (0 ≤ dim (header s) * count (header s)
          ∧ dim (header s) * (count (header s) + 1) ≤ dim (header s) * c1
          ∧ dim (header s) * count (header s)
            ≤ dim (header s) * capacity (header s))
    as (? & ? & ?) by nia.
  rewrite (take_ge v) by lia.
  replace (Z.to_nat (dim (header s) * 4)) with (length v) by lia.
  set (D := data_region s ++ zs) in *.
  set (off := Z.to_nat (4 * dim (header s) * count (header s))).
  split; [reflexivity|]. split.
  - replace (Z.to_nat (count (header s) * dim (header s) * 4)) with off
      by (subst off; lia).
    apply row_written. subst off. lia.
  - intros i Hi.
    assert (0 ≤ i * dim (header s)
            ∧ (i + 1) * dim (header s)
              ≤ count (header s) * dim (header s)) as [? ?] by nia.
    set (a := Z.to_nat (i * dim (header s) * 4)).
    assert (a + length v ≤ off)%nat by (subst a off; lia).
    rewrite row_of_prefix by (rewrite length_take; lia).
    rewrite row_of_take by lia.
    subst D. apply row_of_prefix. lia.
Qed.

Lemma add_vectors_snoc s vs v :
  add_vectors s (vs ++ [v]) = (s1 ← add_vectors s vs; add_vector s1 v).
Proof. unfold add_vectors. rewrite foldl_snoc. reflexivity. Qed.

(** X11.  A sequence of appends.  In a state that satisfies [slab_ok], with
    rows that are not empty: after appending the vectors [vs], each of
    [dim] floats, the count has gone up by their number, the rows
    [count .. count + |vs| - 1] read back as the vectors in order, the rows
    that were there are unchanged, and the state satisfies [slab_ok]
    again, however many times the file grew in between. *)
Theorem append_many s vs s' :
  slab_ok s → 1 ≤ get_dim s →
  Forall (λ v, Z.of_nat (length v) = 4 * get_dim s) vs →
  add_vectors s vs = Ret s' →
  slab_ok s' ∧ get_dim s' = get_dim s
  ∧ get_count s' = get_count s + Z.of_nat (length vs)
  ∧ (∀ i v, vs !! i = Some v → read_row s' (get_count s + Z.of_nat i) = v)
  ∧ (∀ i, 0 ≤ i < get_count s → read_row s' i = read_row s i).
Proof.
  intros Hok Hdim. revert s'.
  induction vs as [|v vs IH] using rev_ind; intros s' Hvs.
  { intros [= <-]. split; [exact Hok|]. split; [reflexivity|].
    split; [simpl; lia|]. split; [|reflexivity].
    intros i v Hi. rewrite lookup_nil in Hi. discriminate. }
  apply Forall_app in Hvs as [Hvs Hv]. apply Forall_inv in Hv.
  rewrite add_vectors_snoc. intros Hadd.
  apply bind_ret_inv in Hadd as (s1 & Hrun & Hadd).
  destruct (IH s1 Hvs Hrun) as (Hok1 & Hdim1 & Hcount1 & Hnew1 & Hold1).
  rewrite <- Hdim1 in Hv.
  destruct (add_vector_rows s1 v s' Hok1 Hv Hadd) as (Hc & Hrow & Hkeep).
  apply add_vector_ok in Hadd as [Hok' Hdim']; [|exact Hok1|lia].
  assert (0 ≤ get_count s) by (destruct Hok as (_ & _ & ? & _); lia).
  split; [exact Hok'|]. split; [congruence|].
  split; [rewrite Hc, Hcount1, length_app; simpl; lia|]. split.
  - intros i w Hi. destruct (decide (i < length vs)%nat) as [Hlt|Hge].
    + rewrite lookup_app_l in Hi by exact Hlt.
      rewrite Hkeep by lia. apply Hnew1, Hi.
    + rewrite lookup_app_r in Hi by lia.
      apply list_lookup_singleton_Some in Hi as [Hi <-].
      replace (get_count s + Z.of_nat i) with (get_count s1) by lia.
      exact Hrow.
  - intros i Hi. rewrite Hkeep by lia. apply Hold1, Hi.
Qed.

(** X12.  Growth by doubling.  After [n] appends to a new slab
    ([n < 2^63]): the count is [n]; the magic and the dimension are those
    of the creation; the capacity is [INITIAL_CAPACITY] times a power of
    two, it is at least the count and, once the file has grown, below twice
    the count. *)
Theorem slab_after_appends dimension n s :
  Reachable dimension n s → Z.of_nat n < 2 ^ 63 →
  get_count s = Z.of_nat n
  ∧ get_dim s = dimension ∧ magic (header s) = MAGIC
  ∧ (∃ j : nat, get_capacity s = INITIAL_CAPACITY * 2 ^ Z.of_nat j)
  ∧ get_count s ≤ get_capacity s
  ∧ get_capacity s ≤ Z.max INITIAL_CAPACITY (2 * (get_count s - 1)).
Proof.
  unfold get_count, get_capacity, get_dim, INITIAL_CAPACITY.
  induction 1 as [s Hnew | n s v s' _ IH Hadd]; intros Hn.
  - apply new_header in Hnew as (-> & -> & -> & ->).
    unfold INITIAL_CAPACITY. repeat split; try (simpl; lia).
    exists 0%nat. reflexivity.
  - destruct IH as (Hc & Hd & Hm & [j Hj] & Hle & Hmax); [lia|].
    apply add_vector_header in Hadd. rewrite Hadd. clear Hadd.
    destruct (capacity (header s) <=? count (header s)) eqn:E; simpl.
    + apply Z.leb_le in E. rewrite !wrap64_small by lia.
      repeat split; try lia.
      exists (S j). rewrite Hj, Nat2Z.inj_succ, Z.pow_succ_r by lia. lia.
    + apply Z.leb_gt in E. rewrite !wrap64_small by lia.
      repeat split; try lia. exists j. exact Hj.
Qed.

(** X13.  The limit of the growth.  On a full slab whose doubled file would
    not fit [off_t], [add_vector] throws the error of [ftruncate] (from
    [grow_file], before anything is written). *)
Theorem append_full_throws s v :
  slab_ok s → get_count s = get_capacity s →
  OFF_MAX < sizeof_SlabHeader + 8 * get_dim s * get_capacity s →
  add_vector s v = Throw ftruncate_failed.
Proof.
  unfold slab_ok, get_dim, get_capacity, get_count, sizeof_SlabHeader, OFF_MAX.
  intros (Hd & Hc & Hn & Hlen & Hoff) Hfull Hbig.
  unfold add_vector, grow_file.
  replace (capacity (header s) <=? count (header s)) with true
    by (symmetry; apply Z.leb_le; lia).
  rewrite (wrap64_small (capacity (header s) * 2)) by lia.
  rewrite file_bytes_exact by (unfold sizeof_SlabHeader; nia).
  unfold sizeof_SlabHeader. rewrite to_int64_nonneg by nia.
  replace (OFF_MAX <? _) with true
    by (symmetry; apply Z.ltb_lt; unfold OFF_MAX; lia).
  reflexivity.
Qed.

(** The states of the examples. *)
Lemma slab_dim1_ok : slab_ok slab_dim1.
Proof. unfold slab_ok, OFF_MAX. vm_compute. intuition discriminate. Qed.

Lemma add_two_rows : add_vectors slab_dim1 two_rows = Ret slab_two_rows.
Proof. vm_compute. reflexivity. Qed.

Lemma reachable_slab_two_rows : Reachable 1 2 slab_two_rows.
Proof.
  apply (add_vectors_reachable 1 slab_dim1 two_rows);
    [vm_compute; reflexivity | apply add_two_rows].
Qed.

Lemma slab_at_limit_ok : slab_ok slab_at_limit.
Proof.
  unfold slab_ok, slab_at_limit, get_dim, get_capacity, get_count,
    sizeof_SlabHeader, OFF_MAX.
  cbn [header data_region dim capacity count].
  rewrite length_replicate, Z2Nat.id by lia. lia.
Qed.

Lemma create_new_slab_witness :
  sizeof_SlabHeader + 4 * 1 * INITIAL_CAPACITY ≤ OFF_MAX
  ∧ new None 1 = Ret slab_dim1.
Proof.
  assert (sizeof_SlabHeader + 4 * 1 * INITIAL_CAPACITY ≤ OFF_MAX) as Hfit
    by (vm_compute; discriminate).
  split; [exact Hfit|].
  exact (create_new_slab 1 ltac:(lia) Hfit).
Defined.

Lemma reopen_slab_witness :
  Reachable 1 2 slab_two_rows
  ∧ new (Some (file_of slab_two_rows)) 0 = Ret slab_two_rows.
Proof.
  split; [apply reachable_slab_two_rows|].
  apply (reopen_slab 1 2 slab_two_rows 0);
    [lia | apply reachable_slab_two_rows].
Defined.

Lemma append_many_witness :
  add_vectors slab_dim1 two_rows = Ret slab_two_rows
  ∧ get_count slab_two_rows
    = get_count slab_dim1 + Z.of_nat (length two_rows)
  ∧ ∀ i v, two_rows !! i = Some v →
      read_row slab_two_rows (get_count slab_dim1 + Z.of_nat i) = v.
Proof.
  split; [apply add_two_rows|].
  pose proof (append_many slab_dim1 two_rows slab_two_rows slab_dim1_ok)
    as Hmany.
  destruct Hmany as (_ & _ & Hcount & Hrows & _).
  - reflexivity.
  - repeat constructor.
  - apply add_two_rows.
  - split; [exact Hcount | exact Hrows].
Defined.

Lemma slab_after_appends_witness :
  Reachable 1 1000 slab_full
  ∧ get_count slab_full = 1000
  ∧ get_capacity slab_full ≤ Z.max INITIAL_CAPACITY (2 * (get_count slab_full - 1)).
Proof.
  split; [apply reachable_slab_full|].
  pose proof (slab_after_appends 1 1000 slab_full reachable_slab_full)
    as Hafter.
  destruct Hafter as (Hc & _ & _ & _ & _ & Hmax); [reflexivity|].
  split; [exact Hc | exact Hmax].
Defined.

Lemma append_full_throws_witness :
  slab_ok slab_at_limit
  ∧ get_count slab_at_limit = get_capacity slab_at_limit
  ∧ add_vector slab_at_limit row_of_ones = Throw ftruncate_failed.
Proof.
  split; [apply slab_at_limit_ok|]. split; [reflexivity|].
  apply (append_full_throws slab_at_limit row_of_ones slab_at_limit_ok);
    [reflexivity|].
  unfold slab_at_limit, get_dim, get_capacity, sizeof_SlabHeader, OFF_MAX.
  cbn [header dim capacity]. lia.
Defined.

End MatrixSlabFacts.

(** * Facts about GpuIndex *)

Module GpuIndexFacts.
Import GpuIndex.

Lemma int_checked_ret z : - 2 ^ 31 ≤ z ≤ INT_MAX → int_checked z = Ret z.
Proof.
  intros Hz. unfold int_checked.
  replace (z <? - 2 ^ 31) with false by (symmetry; apply Z.ltb_ge; lia).
  replace (INT_MAX <? z) with false by (symmetry; apply Z.ltb_ge; lia).
  reflexivity.
Qed.

Lemma int_checked_inv z z' :
  int_checked z = Ret z' → z' = z ∧ - 2 ^ 31 ≤ z ≤ INT_MAX.
Proof.
  unfold int_checked.
  destruct (z <? - 2 ^ 31) eqn:E1; destruct (INT_MAX <? z) eqn:E2;
    simpl; try discriminate.
  intros [= <-]. apply Z.ltb_ge in E1, E2. auto.
Qed.

Lemma for_each_ret {A B} (f : A → outcome B) l ys :
  for_each f l = Ret ys → Forall2 (λ x y, f x = Ret y) l ys.
Proof.
  revert ys. induction l as [|x l IH]; intros ys; simpl.
  - intros [= <-]. constructor.
  - intros Hb. apply bind_ret_inv in Hb as (y & Hy & Hb).
    apply bind_ret_inv in Hb as (ys' & Hys & [= <-]).
    constructor; auto.
Qed.

Lemma for_each_returns {A B} (f : A → outcome B) (g : A → B) l :
  (∀ x, x ∈ l → f x = Ret (g x)) → for_each f l = Ret (g <$> l).
Proof.
  induction l as [|x l IH]; intros Hf; simpl; [reflexivity|].
  rewrite Hf by left. cbn. rewrite IH; [reflexivity|].
  intros y Hy. apply Hf. right. exact Hy.
Qed.

Section Facts.
Context {F : Type} `{Scalar F} {HE : Exact F}.

Add Ring scalar_ring_inst : scalar_ring.

(** ** The order of the candidates *)

Lemma is_zero_f0 : is_zero (f0 : F) = true.
Proof.
  unfold is_zero. destruct (fltb (f0 : F) f0) eqn:E; [|reflexivity].
  rewrite (fltb_asym _ _ E) in E. discriminate.
Qed.

(** In exact arithmetic every list of scores is comparable. *)
Lemma exact_comparable (l : list F) : comparable l.
Proof.
  intros x y z _ _ _ Hxy.
  destruct (fltb x z) eqn:Hxz; [left; reflexivity|]. right.
  destruct (fltb z y) eqn:Hzy; [reflexivity|].
  destruct (fltb z x) eqn:Hzx.
  - rewrite <- Hzy. eapply fltb_trans; eauto.
  - rewrite (fltb_total _ _ Hxz Hzx) in Hxy. congruence.
Qed.

(** On comparable scores the order of the candidates is transitive. *)
Lemma pair_le_trans_on (l : list F) (a b c : F * Z) :
  comparable l → a.1 ∈ l → b.1 ∈ l → c.1 ∈ l →
  pair_le a b → pair_le b c → pair_le a c.
Proof.
  unfold pair_le, pair_ltb. intros Hl Ha Hb Hc Hab Hbc.
  apply orb_false_iff in Hab as [Hba1 Hab2].
  apply orb_false_iff in Hbc as [Hcb1 Hbc2].
  apply orb_false_iff.
  assert (fltb c.1 a.1 = false) as Hca.
  { destruct (fltb c.1 a.1) eqn:E; [|reflexivity].
    destruct (Hl _ _ b.1 Hc Ha Hb E); congruence. }
  split; [exact Hca|].
  destruct (fltb a.1 c.1) eqn:Hac; [reflexivity|]. simpl.
  assert (fltb a.1 b.1 = false) as Hab1.
  { destruct (fltb a.1 b.1) eqn:E; [|reflexivity].
    destruct (Hl _ _ c.1 Ha Hb Hc E); congruence. }
  assert (fltb b.1 c.1 = false) as Hbc1.
  { destruct (fltb b.1 c.1) eqn:E; [|reflexivity].
    destruct (Hl _ _ a.1 Hb Hc Ha E); congruence. }
  rewrite Hab1 in Hab2. rewrite Hbc1 in Hbc2. simpl in *.
  apply Z.ltb_ge. apply Z.ltb_ge in Hab2, Hbc2. lia.
Qed.

(** A list in which every element stands before the next one is sorted,
    for an order that is transitive on its elements. *)
Lemma Sorted_StronglySorted_on {A} (R : relation A) (l : list A) :
  (∀ a b c, a ∈ l → b ∈ l → c ∈ l → R a b → R b c → R a c) →
  Sorted R l → StronglySorted R l.
Proof.
  induction l as [|x l IH]; intros Htrans Hs; [constructor|].
  apply Sorted_inv in Hs as [Hs Hhd].
  assert (StronglySorted R l) as Hss.
  { apply IH; [|exact Hs]. intros a b c Ha Hb Hc.
    apply Htrans; right; assumption. }
  constructor; [exact Hss|].
  destruct Hhd as [|y l' Hxy]; [constructor|].
  constructor; [exact Hxy|].
  apply StronglySorted_inv in Hss as [_ Hall].
  apply Forall_forall. intros z Hz. rewrite Forall_forall in Hall.
  apply (Htrans x y z); [left | right; left | right; right; exact Hz
                        | exact Hxy | apply Hall, Hz].
Qed.

Lemma pair_le_total : Total (pair_le (F := F)).
Proof.
  intros a b. unfold pair_le, pair_ltb.
  destruct (fltb a.1 b.1) eqn:Eab.
  - left. rewrite (fltb_asym _ _ Eab). reflexivity.
  - destruct (fltb b.1 a.1) eqn:Eba; simpl.
    + right. reflexivity.
    + destruct (Z.ltb_spec a.2 b.2); [left | right];
        destruct (Z.ltb_spec b.2 a.2); try reflexivity; lia.
Qed.

(** The candidates of comparable scores come out of the sort in order. *)
Lemma candidates_sorted (slice : list F) :
  comparable slice →
  StronglySorted pair_le
    (merge_sort pair_le (imap (λ i s, (s, Z.of_nat i)) slice)).
Proof.
  intros Hcmp.
  assert (∀ c, c ∈ merge_sort pair_le (imap (λ i s, (s, Z.of_nat i)) slice) →
            c.1 ∈ slice) as Hin.
  { intros c Hc. rewrite merge_sort_Permutation in Hc.
    apply elem_of_lookup_imap_1 in Hc as (i & y & -> & Hy). simpl.
    eapply list_elem_of_lookup_2, Hy. }
  apply Sorted_StronglySorted_on.
  - intros a b c Ha Hb Hc. apply (pair_le_trans_on slice); auto.
  - apply Sorted_merge_sort, pair_le_total.
Qed.

Lemma pair_le_result_lt (a b : F * Z) :
  pair_le a b → a.2 ≠ b.2 →
  result_lt (mk_result a.2 a.1) (mk_result b.2 b.1).
Proof.
  unfold pair_le, pair_ltb, result_lt. simpl. intros Hle Hne.
  apply orb_false_iff in Hle as [Hba Htie]. split; [exact Hba|].
  intros Hab. rewrite Hab in Htie. simpl in Htie.
  apply Z.ltb_ge in Htie. lia.
Qed.

Lemma sorted_results (s : list (F * Z)) :
  StronglySorted pair_le s → NoDup (s.*2) →
  StronglySorted result_lt ((λ c, mk_result c.2 c.1) <$> s).
Proof.
  induction 1 as [|a l _ IH Hall]; intros Hnd; simpl; constructor.
  - apply IH. apply NoDup_cons in Hnd. tauto.
  - apply NoDup_cons in Hnd as [Hnotin _].
    apply Forall_fmap, Forall_forall. intros b Hb. simpl.
    apply pair_le_result_lt.
    + rewrite Forall_forall in Hall. apply Hall, Hb.
    + intros Heq. apply Hnotin. rewrite Heq.
      apply list_elem_of_fmap. eauto.
Qed.

Lemma candidates_rows (l : list F) :
  (imap (λ i s, (s, Z.of_nat i)) l).*2 = Z.of_nat <$> seq 0 (length l).
Proof. rewrite fmap_imap. apply (imap_seq_0 l Z.of_nat). Qed.

(** What one iteration of the loop over the queries returns. *)
Lemma search_query_props all_scores cc k q l :
  0 ≤ cc → 0 ≤ k ≤ INT_MAX → Z.of_nat (length all_scores) < 2 ^ 64 →
  search_query all_scores cc k q = Ret l →
  Z.of_nat (length l) = Z.min k cc
  ∧ (comparable (take (Z.to_nat cc)
                   (drop (Z.to_nat (wrap64 (q * cc))) all_scores)) →
     StronglySorted result_lt l)
  ∧ NoDup (id <$> l)
  ∧ ∀ r, r ∈ l →
      0 ≤ id r < cc
      ∧ all_scores !! Z.to_nat (wrap64 (q * cc) + id r) = Some (score r).
Proof.
  intros Hcc Hk Hlen. unfold search_query, partial_sort.
  set (base := wrap64 (q * cc)).
  assert (0 ≤ base) by (apply Z.mod_pos_bound; lia).
  destruct (Z.of_nat (length all_scores) <? base + cc) eqn:Hfit;
    [discriminate|]. apply Z.ltb_ge in Hfit.
  set (slice := take (Z.to_nat cc) (drop (Z.to_nat base) all_scores)).
  set (cands := imap (λ i s, (s, Z.of_nat i)) slice).
  assert (length slice = Z.to_nat cc) as Hslice.
  { subst slice. rewrite length_take, length_drop. lia. }
  unfold INT_MAX in *.
  rewrite (wrap64_small k) by lia.
  rewrite (to_int32_small (k `min` cc)) by (unfold INT_MAX; lia).
  destruct (_ || _); [discriminate|]. intros [= <-].
  set (sorted := merge_sort pair_le cands).
  assert (sorted ≡ₚ cands) as Hperm by apply merge_sort_Permutation.
  assert (length sorted = Z.to_nat cc) as Hsorted.
  { rewrite (Permutation_length Hperm). subst cands.
    rewrite length_imap. exact Hslice. }
  assert (∀ c, c ∈ sorted →
            0 ≤ c.2 < cc
            ∧ all_scores !! Z.to_nat (base + c.2) = Some c.1) as Helem.
  { intros c Hc. rewrite Hperm in Hc. subst cands.
    apply elem_of_lookup_imap_1 in Hc as (i & y & -> & Hy). simpl.
    pose proof (lookup_lt_Some _ _ _ Hy) as Hi. rewrite Hslice in Hi.
    split; [lia|]. subst slice.
    rewrite lookup_take in Hy. case_decide; [|discriminate].
    rewrite lookup_drop in Hy. rewrite <- Hy. f_equal. lia. }
  assert (NoDup (sorted.*2)) as Hnd.
  { rewrite Hperm. subst cands. rewrite candidates_rows.
    apply NoDup_fmap_2; [apply Nat2Z.inj'|apply NoDup_seq]. }
  set (n := Z.to_nat (k `min` cc)).
  assert ((λ c : F * Z, mk_result (wrap64 c.2) c.1) <$> take n sorted
          = (λ c, mk_result c.2 c.1) <$> take n sorted) as ->.
  { apply list_fmap_ext. intros i c Hc. f_equal.
    apply lookup_take_Some in Hc as [Hc _].
    destruct (Helem c) as [? _]; [eapply list_elem_of_lookup_2, Hc|].
    apply wrap64_small. lia. }
  split; [rewrite length_fmap, length_take; lia|].
  rewrite <- (take_drop n sorted) in Hnd.
  rewrite fmap_app in Hnd. apply NoDup_app in Hnd as (Hnd & _ & _).
  split.
  { intros Hcmp. apply sorted_results; [|exact Hnd].
    apply (StronglySorted_app_1_l _ _ (drop n sorted)).
    rewrite take_drop. apply candidates_sorted, Hcmp. }
  split.
  { rewrite <- list_fmap_compose. exact Hnd. }
  intros r Hr. apply list_elem_of_fmap in Hr as (c & -> & Hc). simpl.
  apply Helem. apply elem_of_take in Hc as (i & Hi & _).
  eapply list_elem_of_lookup_2, Hi.
Qed.

(** The results of one query are cells of its column, whatever [k]. *)
Lemma search_query_elems all_scores cc k q l :
  0 ≤ cc → Z.of_nat (length all_scores) < 2 ^ 64 →
  search_query all_scores cc k q = Ret l →
  ∀ r, r ∈ l →
    0 ≤ id r < cc
    ∧ all_scores !! Z.to_nat (wrap64 (q * cc) + id r) = Some (score r).
Proof.
  intros Hcc Hlen. unfold search_query, partial_sort.
  set (base := wrap64 (q * cc)).
  assert (0 ≤ base) by (apply Z.mod_pos_bound; lia).
  destruct (Z.of_nat (length all_scores) <? base + cc) eqn:Hfit;
    [discriminate|]. apply Z.ltb_ge in Hfit.
  set (slice := take (Z.to_nat cc) (drop (Z.to_nat base) all_scores)).
  destruct (_ || _); [discriminate|]. intros [= <-] r Hr.
  apply list_elem_of_fmap in Hr as (c & -> & Hc). simpl.
  apply elem_of_take in Hc as (i & Hi & _).
  apply list_elem_of_lookup_2 in Hi.
  rewrite merge_sort_Permutation in Hi.
  apply elem_of_lookup_imap_1 in Hi as (n & y & -> & Hy). simpl.
  pose proof (lookup_lt_Some _ _ _ Hy) as Hn.
  subst slice. rewrite length_take, length_drop in Hn.
  rewrite wrap64_small by lia. split; [lia|].
  rewrite lookup_take in Hy. case_decide; [|discriminate].
  rewrite lookup_drop in Hy. rewrite <- Hy. f_equal. lia.
Qed.

Lemma search_query_returns all_scores cc k q :
  0 ≤ cc → 0 ≤ k ≤ INT_MAX →
  0 ≤ q → q * cc + cc ≤ Z.of_nat (length all_scores) < 2 ^ 64 →
  ∃ l, search_query all_scores cc k q = Ret l.
Proof.
  intros Hcc Hk Hq Hfit. unfold search_query, INT_MAX in *.
  assert (0 ≤ q * cc) by nia.
  rewrite (wrap64_small (q * cc)), (wrap64_small k) by lia.
  rewrite (to_int32_small (k `min` cc)) by (unfold INT_MAX; lia).
  replace (Z.of_nat (length all_scores) <? q * cc + cc) with false
    by (symmetry; apply Z.ltb_ge; lia).
  replace (k `min` cc <? 0) with false by (symmetry; apply Z.ltb_ge; lia).
  replace (cc <? k `min` cc) with false by (symmetry; apply Z.ltb_ge; lia).
  simpl. eauto.
Qed.

Lemma for_each_total {A B} (f : A → outcome B) l :
  (∀ x, x ∈ l → ∃ y, f x = Ret y) → ∃ ys, for_each f l = Ret ys.
Proof.
  induction l as [|x l IH]; intros Hf; simpl; [eauto|].
  destruct (Hf x) as [y Hy]; [left|]. rewrite Hy. cbn.
  destruct IH as [ys Hys]. { intros z Hz. apply Hf. right. exact Hz. }
  rewrite Hys. cbn. eauto.
Qed.

(** ** What a call of [search] that returns has gone through *)

(** The product of the two sizes has not overflown [int], the scores read
    back are one column of [current_count] floats per query, and each list
    of results is what the loop body returned on them. *)
Lemma search_ret_inv g qs k res g' :
  0 ≤ current_count g → search g qs k = Ret (res, g') →
  let nq := to_int32 (Z.of_nat (length qs)) in
  (nq = 0 ∧ res = [])
  ∨ (0 < nq
     ∧ current_count g * nq + 256 ≤ INT_MAX
     ∧ ∃ all_scores,
         Z.of_nat (length all_scores) = current_count g * nq
         ∧ Forall2 (λ q l,
              search_query all_scores (current_count g) k q = Ret l)
             (Z.of_nat <$> seq 0 (Z.to_nat nq)) res).
Proof.
  intros Hcc Hs nq. unfold search in Hs. fold nq in Hs. cbv zeta in Hs.
  destruct (nq =? 0) eqn:E0.
  { left. apply Z.eqb_eq in E0. injection Hs as <- _. auto. }
  right. apply Z.eqb_neq in E0.
  apply bind_ret_inv in Hs as (dq & _ & Hs).
  apply bind_ret_inv in Hs as (dqn & _ & Hs).
  apply bind_ret_inv in Hs as (r1 & _ & Hs).
  apply bind_ret_inv in Hs as (t1 & Ht1 & Hs).
  apply int_checked_inv in Ht1 as [-> Ht1].
  apply bind_ret_inv in Hs as (t2 & _ & Hs).
  apply bind_ret_inv in Hs as (r2 & _ & Hs).
  set (tp := to_int32 (wrap64 (current_count g * wrap64 nq))) in *.
  destruct (tp <? 0) eqn:Etp; [discriminate|]. apply Z.ltb_ge in Etp.
  destruct (Z.of_nat (length r2) <? tp) eqn:Er2; [discriminate|].
  apply Z.ltb_ge in Er2.
  destruct (nq <? 0) eqn:Enq; [discriminate|]. apply Z.ltb_ge in Enq.
  apply bind_ret_inv in Hs as (fr & Hfr & Hs). injection Hs as <- _.
  apply for_each_ret in Hfr.
  assert (0 < nq) as Hpos by lia. split; [exact Hpos|].
  assert (nq ≤ INT_MAX) as Hnq.
  { unfold nq, to_int32, INT_MAX.
    pose proof (Z.mod_pos_bound (Z.of_nat (length qs)) (2 ^ 32)).
    destruct (_ <? 2 ^ 31) eqn:E; [apply Z.ltb_lt in E|]; lia. }
  set (all := take (Z.to_nat tp) r2) in *.
  assert (Z.of_nat (length all) = tp) as Hall.
  { subst all. rewrite length_take. lia. }
  (* the last query reads its column inside [all] *)
  assert (wrap64 ((nq - 1) * current_count g) + current_count g ≤ tp)
    as Hlast.
  { assert (Z.of_nat <$> seq 0 (Z.to_nat nq)
            = (Z.of_nat <$> seq 0 (Z.to_nat (nq - 1))) ++ [nq - 1]) as Hseq.
    { replace (Z.to_nat nq) with (S (Z.to_nat (nq - 1))) by lia.
      rewrite seq_S, fmap_app. simpl. do 2 f_equal. lia. }
    rewrite Hseq in Hfr. apply Forall2_app_inv_l in Hfr
      as (? & l2 & _ & Hl2 & _).
    apply Forall2_cons_inv_l in Hl2 as (l & ? & Hq & _ & _).
    unfold search_query in Hq.
    destruct (Z.of_nat (length all) <? _) eqn:E; [discriminate|].
    apply Z.ltb_ge in E. lia. }
  unfold INT_MAX in *.
  assert (0 ≤ wrap64 ((nq - 1) * current_count g))
    by (apply Z.mod_pos_bound; lia).
  assert (0 ≤ (nq - 1) * current_count g < 2 ^ 62) as Hsmall by nia.
  rewrite wrap64_small in Hlast by lia.
  assert (0 ≤ current_count g * nq < 2 ^ 62) as Hprod by nia.
  subst tp. rewrite (wrap64_small nq) in * by lia.
  rewrite (wrap64_small (current_count g * nq)) in * by lia.
  assert (to_int32 (current_count g * nq) = current_count g * nq) as Htp.
  { apply to_int32_small. unfold INT_MAX. split; [lia|].
    revert Hlast Ht1. unfold to_int32.
    pose proof (Z.mod_pos_bound (current_count g * nq) (2 ^ 32)).
    pose proof (Z.mod_le (current_count g * nq) (2 ^ 32)).
    destruct (_ <? 2 ^ 31) eqn:E; [apply Z.ltb_lt in E|]; lia. }
  rewrite Htp in *.
  split; [lia|]. exists all. split; [lia|]. exact Hfr.
Qed.

(** ** The correction kernel *)

Lemma load_ret (m : list F) i x :
  0 ≤ i → m !! Z.to_nat i = Some x → load m i = Ret x.
Proof.
  intros Hi Hx. unfold load.
  replace (i <? 0) with false by (symmetry; apply Z.ltb_ge; lia).
  rewrite Hx. reflexivity.
Qed.

Lemma store_ret (m : list F) i x :
  0 ≤ i < Z.of_nat (length m) → store m i x = Ret (<[Z.to_nat i := x]> m).
Proof.
  intros Hi. unfold store.
  replace (0 <=? i) with true by (symmetry; apply Z.leb_le; lia).
  replace (i <? Z.of_nat (length m)) with true
    by (symmetry; apply Z.ltb_lt; lia).
  reflexivity.
Qed.

Lemma l2_upto_0 dbn qn cc total d : l2_upto dbn qn cc total 0 d = d.
Proof.
  unfold l2_upto. rewrite <- (list_fmap_id d) at 2.
  rewrite <- imap_const. apply imap_ext. reflexivity.
Qed.

Lemma l2_threads dbn qn cc nq d n :
  1 ≤ cc → 1 ≤ nq → cc * nq ≤ INT_MAX →
  cc ≤ Z.of_nat (length dbn) → nq ≤ Z.of_nat (length qn) →
  cc * nq ≤ Z.of_nat (length d) → Z.of_nat n ≤ INT_MAX + 1 →
  foldl (λ acc tid,
           m ← acc;
           compute_l2_dist_kernel dbn qn cc nq (to_int32 (Z.of_nat tid)) m)
    (Ret d) (seq 0 n)
  = Ret (l2_upto dbn qn cc (cc * nq) n d).
Proof.
  intros Hcc Hnq Hmax Hdbn Hqn Hd. unfold INT_MAX in *.
  induction n as [|n IH]; intros Hn.
  { simpl. rewrite l2_upto_0. reflexivity. }
  rewrite seq_S, foldl_snoc, IH by lia. cbn. clear IH.
  rewrite to_int32_small by (unfold INT_MAX; lia).
  unfold compute_l2_dist_kernel.
  rewrite int_checked_ret by (unfold INT_MAX; nia). cbn.
  destruct (cc * nq <=? Z.of_nat n) eqn:E.
  - apply Z.leb_le in E. f_equal. apply imap_ext. intros p c _.
    destruct (Z.ltb_spec (Z.of_nat p) (cc * nq)); [|rewrite !andb_false_r; done].
    rewrite !andb_true_r.
    destruct (Nat.ltb_spec p n); destruct (Nat.ltb_spec p (S n));
      try reflexivity; lia.
  - apply Z.leb_gt in E.
    rewrite Z.rem_mod_nonneg, Z.quot_div_nonneg by lia.
    assert (n < length d)%nat as Hlt by lia.
    destruct (lookup_lt_is_Some_2 d n Hlt) as [c Hc].
    assert (0 ≤ Z.of_nat n `mod` cc < cc) by (apply Z.mod_pos_bound; lia).
    assert (0 ≤ Z.of_nat n / cc < nq).
    { split; [apply Z.div_pos; lia|].
      apply Z.div_lt_upper_bound; lia. }
    rewrite (load_ret (l2_upto _ _ _ _ _ _) (Z.of_nat n) c); [|lia|].
    2:{ unfold l2_upto. rewrite Nat2Z.id, list_lookup_imap, Hc. simpl.
        rewrite Nat.ltb_irrefl. reflexivity. }
    cbn. rewrite (load_ret dbn _ (dbn !!! Z.to_nat (Z.of_nat n `mod` cc)));
      [|lia|apply list_lookup_lookup_total_lt; lia].
    cbn. rewrite (load_ret qn _ (qn !!! Z.to_nat (Z.of_nat n / cc)));
      [|lia|apply list_lookup_lookup_total_lt; lia].
    cbn. rewrite store_ret by (unfold l2_upto; rewrite length_imap; lia).
    f_equal. rewrite Nat2Z.id. apply list_eq. intros i.
    unfold l2_upto. rewrite list_lookup_insert, length_imap, !list_lookup_imap.
    case_decide as Hi.
    + destruct Hi as [<- _]. rewrite Hc. simpl.
      replace (n <? S n)%nat with true by (symmetry; apply Nat.ltb_lt; lia).
      replace (Z.of_nat n <? cc * nq) with true
        by (symmetry; apply Z.ltb_lt; lia).
      reflexivity.
    + destruct (d !! i) as [ci|] eqn:Hci; simpl; [|reflexivity].
      assert (i ≠ n) by (intros ->; apply Hi; split; [reflexivity|lia]).
      destruct (Nat.ltb_spec i n); destruct (Nat.ltb_spec i (S n));
        try reflexivity; lia.
Qed.

(** ** The steps of [search], when the sizes fit *)

Lemma cudaMemcpy_whole (dst src : list F) :
  Z.of_nat (length src) * 4 < 2 ^ 64 →
  (length src ≤ length dst)%nat →
  cudaMemcpy dst 0 src (wrap64 (Z.of_nat (length src) * sizeof_float))
  = Ret (src ++ drop (length src) dst).
Proof.
  intros Hsmall Hfit. unfold cudaMemcpy, sizeof_float.
  rewrite wrap64_small by lia. rewrite Z.div_mul by lia.
  replace (Z.of_nat (length src) <? Z.of_nat (length src)) with false
    by (symmetry; apply Z.ltb_irrefl).
  replace (Z.of_nat (length dst) <? 0 + Z.of_nat (length src)) with false
    by (symmetry; apply Z.ltb_ge; lia).
  simpl. rewrite Nat2Z.id, take_ge by lia.
  replace (Z.to_nat (0 + Z.of_nat (length src))) with (length src) by lia.
  reflexivity.
Qed.

Lemma concat_rows (qs : list (list F)) d :
  Forall (λ q, length q = d) qs →
  length (concat qs) = (length qs * d)%nat
  ∧ ∀ j q, qs !! j = Some q → take d (drop (j * d) (concat qs)) = q.
Proof.
  induction 1 as [|q0 qs Hq0 _ [IHlen IHrow]]; simpl.
  { split; [reflexivity|]. intros j q Hq. discriminate. }
  split; [rewrite length_app; lia|].
  intros [|j] q Hq; simpl in *.
  - injection Hq as <-. rewrite drop_0. apply take_app_length'. done.
  - rewrite drop_app_ge by lia.
    replace (d + j * d - length q0)%nat with (j * d)%nat by lia. auto.
Qed.

Lemma gemm_returns (m n k : Z) alpha (A : list F) lda B ldb beta C ldc :
  1 ≤ m → 1 ≤ n → 0 ≤ k → Z.max 1 k ≤ lda → Z.max 1 k ≤ ldb → m ≤ ldc →
  (m - 1) * lda + k ≤ Z.of_nat (length A) →
  (n - 1) * ldb + k ≤ Z.of_nat (length B) →
  (n - 1) * ldc + m ≤ Z.of_nat (length C) →
  ∃ C', cublasSgemm_T_N m n k alpha A lda B ldb beta C ldc = Ret C'
        ∧ length C' = length C
        ∧ ∀ i j c, 0 ≤ i < m → 0 ≤ j < n →
            C !! Z.to_nat (j * ldc + i) = Some c →
            C' !! Z.to_nat (j * ldc + i)
            = Some
                (let ab :=
                   fmul alpha
                     (dot (take (Z.to_nat k) (drop (Z.to_nat (i * lda)) A))
                          (take (Z.to_nat k) (drop (Z.to_nat (j * ldb)) B)))
                 in if is_zero beta then ab else fadd ab (fmul beta c)).
Proof.
  intros Hm Hn Hk Hlda Hldb Hldc HA HB HC. unfold cublasSgemm_T_N.
  repeat match goal with
  | |- context [?a <? ?b] =>
      replace (a <? b) with false by (symmetry; apply Z.ltb_ge; lia)
  | |- context [?a =? 0] =>
      replace (a =? 0) with false by (symmetry; apply Z.eqb_neq; lia)
  end.
  simpl. eexists. split; [reflexivity|]. split; [apply length_imap|].
  intros i j c Hi Hj Hc. rewrite list_lookup_imap, Hc. simpl.
  assert (0 ≤ j * ldc) by nia.
  rewrite Z2Nat.id by lia.
  replace ((j * ldc + i) `mod` ldc) with i
    by (rewrite Z.add_comm, Z.mod_add, Z.mod_small; lia).
  replace ((j * ldc + i) / ldc) with j
    by (rewrite Z.add_comm, Z.div_add, Z.div_small; lia).
  replace (i <? m) with true by (symmetry; apply Z.ltb_lt; lia).
  replace (j <? n) with true by (symmetry; apply Z.ltb_lt; lia).
  reflexivity.
Qed.

(** In exact arithmetic the score of the device is [‖x‖² + ‖q‖² − 2·x·q]. *)
Lemma device_score_exact (x q : list F) : device_score x q = l2_identity x q.
Proof. unfold device_score, l2_identity. ring. Qed.

(** The run of [search] up to the loop over the queries: the buffer of the
    scores holds, for the query [j] and the row [r], the score of the device
    in the cell [j * current_count + r], and the loop reads the scores
    copied back from it. *)
Lemma search_run g qs k :
  gpu_ok g → Forall (λ q, Z.of_nat (length q) = dim g) qs →
  1 ≤ Z.of_nat (length qs) ≤ max_batch_size g →
  current_count g * Z.of_nat (length qs) + 256 ≤ INT_MAX →
  ∃ dq dqn r2,
    (∀ j q r, qs !! j = Some q → 0 ≤ r < current_count g →
       r2 !! Z.to_nat (Z.of_nat j * current_count g + r)
       = Some (device_score (db_row g r) q))
    ∧ length dq = length (d_queries g)
    ∧ length dqn = length (d_q_norms g)
    ∧ length r2 = length (d_results g)
    ∧ search g qs k
      = (fr ← for_each
                (search_query
                   (take (Z.to_nat (current_count g * Z.of_nat (length qs)))
                      r2)
                   (current_count g) k)
                (Z.of_nat <$> seq 0 (length qs));
         Ret (fr, mk (d_db g) (d_db_norms g) dq dqn r2 (max_vectors g)
                    (dim g) (current_count g) (max_batch_size g))).
Proof.
  intros (Hdim & Hcc & Hmb & Ldb & Ldbn & Ldq & Ldqn & Lres & Hnorms & _)
    Hqs Hnq Hfit.
  set (nq := Z.of_nat (length qs)) in *.
  set (cc := current_count g) in *.
  unfold INT_MAX in *.
  assert (Forall (λ q : list F, length q = Z.to_nat (dim g)) qs) as Hqs'.
  { eapply Forall_impl; [exact Hqs|]. simpl. intros q Hq. lia. }
  destruct (concat_rows qs _ Hqs') as [Lflat Hrow].
  assert (0 ≤ cc * nq ∧ cc * nq ≤ max_vectors g * max_batch_size g
          ∧ nq * dim g ≤ max_batch_size g * dim g
          ∧ cc * dim g ≤ max_vectors g * dim g) as (? & ? & ? & ?) by nia.
  assert (cc ≤ 2 ^ 31) by nia.
  (* the two copies to the device *)
  pose proof (cudaMemcpy_whole (d_queries g) (concat qs)) as Hdq.
  rewrite Lflat in Hdq. specialize (Hdq ltac:(nia) ltac:(nia)).
  pose proof (cudaMemcpy_whole (d_q_norms g) (sum_sq <$> qs)) as Hdqn.
  rewrite length_fmap in Hdqn. specialize (Hdqn ltac:(lia) ltac:(lia)).
  set (dq := concat qs ++ drop (length qs * Z.to_nat (dim g)) (d_queries g))
    in *.
  set (dqn := (sum_sq <$> qs) ++ drop (length qs) (d_q_norms g)) in *.
  assert (length dq = length (d_queries g)) as Ldq'.
  { subst dq. rewrite length_app, length_drop, Lflat. nia. }
  assert (length dqn = length (d_q_norms g)) as Ldqn'.
  { subst dqn. rewrite length_app, length_drop, length_fmap. lia. }
  (* GEMM and the correction kernel *)
  assert (∃ r2,
    (r1 ← cublasSgemm_T_N (to_int32 cc) (to_int32 nq) (to_int32 (dim g))
            (fopp two) (d_db g) (to_int32 (dim g)) dq (to_int32 (dim g))
            f0 (d_results g) (to_int32 cc);
     launch (Z.quot (cc * nq + 256 - 1) 256) 256
       (compute_l2_dist_kernel (d_db_norms g) dqn (to_int32 cc)
          (to_int32 nq)) r1) = Ret r2
    ∧ length r2 = length (d_results g)
    ∧ ∀ j q r, qs !! j = Some q → 0 ≤ r < cc →
        r2 !! Z.to_nat (Z.of_nat j * cc + r)
        = Some (device_score (db_row g r) q)) as (r2 & Hrun & Lr2 & Hcell).
  { rewrite !(to_int32_small cc), !(to_int32_small nq),
      !(to_int32_small (dim g)) by (unfold INT_MAX; lia).
    destruct (Z.eq_dec cc 0) as [Hz|Hnz].
    { exists (d_results g). rewrite Hz. split; [|split; [reflexivity|lia]].
      unfold cublasSgemm_T_N. simpl.
      replace (dim g <? 0) with false by (symmetry; apply Z.ltb_ge; lia).
      rewrite !orb_true_r. reflexivity. }
    destruct (gemm_returns cc nq (dim g) (fopp two) (d_db g) (dim g) dq
                (dim g) f0 (d_results g) cc)
      as (r1 & Hr1 & Lr1 & Vr1); try lia.
    rewrite Hr1, outcome_bind_ret. unfold launch.
    rewrite Z.quot_div_nonneg by lia.
    set (blocks := (cc * nq + 256 - 1) / 256).
    assert (256 * blocks ≤ cc * nq + 256 - 1) by (apply Z.mul_div_le; lia).
    assert (cc * nq + 256 - 1 < 256 * (blocks + 1)).
    { pose proof (Z.mod_pos_bound (cc * nq + 256 - 1) 256 ltac:(lia)).
      pose proof (Z.div_mod (cc * nq + 256 - 1) 256 ltac:(lia)).
      subst blocks. lia. }
    replace (blocks <? 1) with false by (symmetry; apply Z.ltb_ge; nia).
    replace (MAX_GRID <? blocks) with false
      by (symmetry; apply Z.ltb_ge; unfold MAX_GRID; lia).
    simpl.
    rewrite l2_threads by (unfold INT_MAX; lia).
    eexists. split; [reflexivity|].
    split; [unfold l2_upto; rewrite length_imap; exact Lr1|].
    intros j q r Hq Hr.
    pose proof (lookup_lt_Some _ _ _ Hq) as Hj.
    assert (0 ≤ Z.of_nat j * cc + r < cc * nq) as Hp by nia.
    assert (Z.to_nat (Z.of_nat j * cc + r) < length (d_results g))%nat
      as Hlt by lia.
    destruct (lookup_lt_is_Some_2 _ _ Hlt) as [c Hc].
    unfold l2_upto. rewrite list_lookup_imap.
    rewrite (Vr1 r (Z.of_nat j) c) by (first [lia | exact Hc]).
    simpl. rewrite Z2Nat.id by lia.
    replace (_ <? _)%nat with true by (symmetry; apply Nat.ltb_lt; lia).
    replace (Z.of_nat j * cc + r <? cc * nq) with true
      by (symmetry; apply Z.ltb_lt; lia).
    simpl. f_equal.
    replace ((Z.of_nat j * cc + r) `mod` cc) with r
      by (rewrite Z.add_comm, Z.mod_add, Z.mod_small; lia).
    replace ((Z.of_nat j * cc + r) / cc) with (Z.of_nat j)
      by (rewrite Z.add_comm, Z.div_add, Z.div_small; lia).
    rewrite (list_lookup_total_correct _ _ _ (Hnorms r Hr)).
    assert (dqn !!! Z.to_nat (Z.of_nat j) = sum_sq q) as ->.
    { apply list_lookup_total_correct. subst dqn.
      rewrite Nat2Z.id, lookup_app_l by (rewrite length_fmap; lia).
      rewrite list_lookup_fmap, Hq. reflexivity. }
    assert (take (Z.to_nat (dim g)) (drop (Z.to_nat (Z.of_nat j * dim g)) dq)
            = q) as ->.
    { subst dq. rewrite Z2Nat.inj_mul, Nat2Z.id by lia.
      rewrite row_of_prefix; [apply Hrow, Hq|].
      rewrite Lflat.
      pose proof (Nat.mul_le_mono_r (S j) (length qs) (Z.to_nat (dim g))
                    ltac:(lia)).
      simpl in *. lia. }
    rewrite is_zero_f0. reflexivity. }
  exists dq, dqn, r2.
  split; [exact Hcell|].
  split; [exact Ldq'|]. split; [exact Ldqn'|]. split; [exact Lr2|].
  unfold search. fold nq cc. cbv zeta.
  rewrite (to_int32_small nq) in * by (unfold INT_MAX; lia).
  replace (nq =? 0) with false by (symmetry; apply Z.eqb_neq; lia).
  rewrite Lflat, length_fmap.
  replace (Z.of_nat (length qs * Z.to_nat (dim g)))
    with (Z.of_nat (length qs * Z.to_nat (dim g))) by reflexivity.
  rewrite Hdq, outcome_bind_ret. fold nq in Hdqn |- *.
  rewrite Hdqn, outcome_bind_ret.
  rewrite (wrap64_small nq), (wrap64_small (cc * nq)) by lia.
  rewrite (to_int32_small (cc * nq)) by (unfold INT_MAX; lia).
  apply bind_ret_inv in Hrun as (r1 & Hr1 & Hrun).
  rewrite Hr1, outcome_bind_ret.
  do 2 (rewrite int_checked_ret by (unfold INT_MAX; lia);
        rewrite outcome_bind_ret).
  rewrite Hrun, outcome_bind_ret.
  replace (cc * nq <? 0) with false by (symmetry; apply Z.ltb_ge; lia).
  replace (Z.of_nat (length r2) <? cc * nq) with false
    by (symmetry; apply Z.ltb_ge; lia).
  replace (nq <? 0) with false by (symmetry; apply Z.ltb_ge; lia).
  subst nq. rewrite Nat2Z.id. reflexivity.
Qed.

Lemma search_steps_state g qs k :
  gpu_ok g → Forall (λ q, Z.of_nat (length q) = dim g) qs →
  1 ≤ Z.of_nat (length qs) ≤ max_batch_size g →
  current_count g * Z.of_nat (length qs) + 256 ≤ INT_MAX →
  ∃ all dq dqn r2,
    Z.of_nat (length all) = current_count g * Z.of_nat (length qs)
    ∧ (∀ j q r, qs !! j = Some q → 0 ≤ r < current_count g →
         all !! Z.to_nat (Z.of_nat j * current_count g + r)
         = Some (device_score (db_row g r) q))
    ∧ length dq = length (d_queries g)
    ∧ length dqn = length (d_q_norms g)
    ∧ length r2 = length (d_results g)
    ∧ search g qs k
      = (fr ← for_each (search_query all (current_count g) k)
                (Z.of_nat <$> seq 0 (length qs));
         Ret (fr, mk (d_db g) (d_db_norms g) dq dqn r2 (max_vectors g)
                    (dim g) (current_count g) (max_batch_size g))).
Proof.
  intros Hok Hqs Hnq Hfit.
  destruct (search_run g qs k Hok Hqs Hnq Hfit)
    as (dq & dqn & r2 & Hcell & Ldq & Ldqn & Lr2 & Heq).
  pose proof Hok as (_ & Hcc & Hmb & _ & _ & _ & _ & Lres & _).
  assert (0 ≤ current_count g * Z.of_nat (length qs)
          ∧ current_count g * Z.of_nat (length qs)
            ≤ max_vectors g * max_batch_size g) as [? ?] by nia.
  exists (take (Z.to_nat (current_count g * Z.of_nat (length qs))) r2),
    dq, dqn, r2.
  split; [rewrite length_take; lia|]. split.
  { intros j q r Hq Hr. pose proof (lookup_lt_Some _ _ _ Hq).
    rewrite lookup_take_lt by nia. apply Hcell; assumption. }
  split; [exact Ldq|]. split; [exact Ldqn|]. split; [exact Lr2|exact Heq].
Qed.

Lemma search_steps g qs k :
  gpu_ok g → Forall (λ q, Z.of_nat (length q) = dim g) qs →
  1 ≤ Z.of_nat (length qs) ≤ max_batch_size g →
  current_count g * Z.of_nat (length qs) + 256 ≤ INT_MAX →
  ∃ all g'',
    Z.of_nat (length all) = current_count g * Z.of_nat (length qs)
    ∧ (∀ j q r, qs !! j = Some q → 0 ≤ r < current_count g →
         all !! Z.to_nat (Z.of_nat j * current_count g + r)
         = Some (device_score (db_row g r) q))
    ∧ search g qs k
      = (fr ← for_each (search_query all (current_count g) k)
                (Z.of_nat <$> seq 0 (length qs));
         Ret (fr, g'')).
Proof.
  intros Hok Hqs Hnq Hfit.
  destruct (search_steps_state g qs k Hok Hqs Hnq Hfit)
    as (all & dq & dqn & r2 & Hlen & Hcell & _ & _ & _ & Heq).
  exists all. eexists. split; [exact Hlen|]. split; [exact Hcell|exact Heq].
Qed.

Lemma search_returns g qs k :
  gpu_ok g → Forall (λ q, Z.of_nat (length q) = dim g) qs →
  Z.of_nat (length qs) ≤ max_batch_size g → 0 ≤ k ≤ INT_MAX →
  current_count g * Z.of_nat (length qs) + 256 ≤ INT_MAX →
  ∃ res g', search g qs k = Ret (res, g').
Proof.
  intros Hok Hqs Hnq Hk Hfit.
  destruct qs as [|q0 qs'] eqn:Eqs; [unfold search; simpl; eauto|].
  rewrite <- Eqs in *.
  assert (1 ≤ Z.of_nat (length qs)) by (rewrite Eqs; simpl; lia).
  destruct (search_steps g qs k Hok Hqs ltac:(lia) Hfit)
    as (all & g'' & Hlen & _ & ->).
  destruct Hok as (_ & Hcc & _).
  destruct (for_each_total (search_query all (current_count g) k)
              (Z.of_nat <$> seq 0 (length qs))) as [fr Hfr].
  { intros x Hx. apply list_elem_of_fmap in Hx as (j & -> & Hj).
    apply elem_of_seq in Hj. unfold INT_MAX in *.
    assert (Z.of_nat j * current_count g + current_count g
            ≤ current_count g * Z.of_nat (length qs)) by nia.
    apply search_query_returns; unfold INT_MAX; lia. }
  rewrite Hfr. cbn. eauto.
Qed.

(** ** Building the index *)

Lemma cudaMalloc_length bytes (junk : F) :
  0 ≤ bytes →
  Z.of_nat (length (cudaMalloc bytes junk)) = bytes / sizeof_float.
Proof.
  intros Hb. unfold cudaMalloc. rewrite length_replicate.
  apply Z2Nat.id. apply Z.div_pos; unfold sizeof_float; lia.
Qed.

(** The constructor gives an empty index that satisfies [gpu_ok], when
    the sizes of its buffers are in the range of [size_t]. *)
Lemma new_index_ok dimension capacity (junk : F) :
  1 ≤ dimension ≤ INT_MAX → 0 ≤ capacity →
  capacity * dimension * 4 < 2 ^ 64 → capacity * 100 * 4 < 2 ^ 64 →
  gpu_ok (new dimension capacity junk) ∧ current_count (new dimension capacity junk) = 0.
Proof.
  unfold INT_MAX. intros Hd Hc Hdb Hres. unfold gpu_ok, new. simpl.
  unfold sizeof_float.
  assert (0 ≤ capacity * dimension) by nia.
  rewrite !cudaMalloc_length by (apply Z.mod_pos_bound; lia).
  unfold sizeof_float.
  rewrite (wrap64_small (capacity * dimension)),
    (wrap64_small (100 * dimension)), (wrap64_small (capacity * 100)) by lia.
  rewrite !wrap64_small by lia. rewrite !Z.div_mul by lia.
  unfold INT_MAX. repeat split; try lia.
Qed.

Lemma cudaMemcpy_inv (dst : list F) off src bytes d :
  cudaMemcpy dst off src bytes = Ret d →
  let n := bytes / sizeof_float in
  n ≤ Z.of_nat (length src) ∧ off + n ≤ Z.of_nat (length dst)
  ∧ d = take (Z.to_nat off) dst ++ take (Z.to_nat n) src
        ++ drop (Z.to_nat (off + n)) dst.
Proof.
  unfold cudaMemcpy.
  destruct (Z.of_nat (length src) <? _) eqn:E1;
    destruct (Z.of_nat (length dst) <? _) eqn:E2; simpl; try discriminate.
  intros [= <-]. apply Z.ltb_ge in E1, E2. auto.
Qed.

Lemma cudaMemcpy_cases (dst : list F) off src bytes :
  (∃ d, cudaMemcpy dst off src bytes = Ret d)
  ∨ cudaMemcpy dst off src bytes = Undefined.
Proof. unfold cudaMemcpy. destruct (_ || _); eauto. Qed.

Lemma cudaMemcpy_overrun (dst : list F) off src bytes :
  Z.of_nat (length dst) < off + bytes / sizeof_float →
  cudaMemcpy dst off src bytes = Undefined.
Proof.
  intros Hlt. unfold cudaMemcpy.
  replace (Z.of_nat (length dst) <? off + bytes / sizeof_float) with true
    by (symmetry; apply Z.ltb_lt; exact Hlt).
  rewrite orb_true_r. reflexivity.
Qed.

(** [add_single_vector] keeps [gpu_ok]: the vector becomes the row
    [current_count], its norm is cached, and the rows before stay. *)
Lemma add_single_vector_ok g v res g' :
  gpu_ok g → add_single_vector g v = Ret (res, g') →
  (res = false ∧ g' = g ∧ current_count g = max_vectors g)
  ∨ (res = true ∧ gpu_ok g'
     ∧ current_count g' = current_count g + 1
     ∧ db_row g' (current_count g) = take (Z.to_nat (dim g)) v
     ∧ length (take (Z.to_nat (dim g)) v) = Z.to_nat (dim g)
     ∧ ∀ r, 0 ≤ r < current_count g → db_row g' r = db_row g r).
Proof.
  intros (Hdim & Hcc & Hmb & Ldb & Ldbn & Ldq & Ldqn & Lres & Hnorms & Hsz).
  unfold add_single_vector, INT_MAX, sizeof_float in *.
  destruct (max_vectors g <=? current_count g) eqn:E.
  { apply Z.leb_le in E. intros [= <- <-]. left. split; [done|]. split; [done|lia]. }
  apply Z.leb_gt in E. right.
  assert (0 ≤ current_count g * dim g
          ∧ (current_count g + 1) * dim g ≤ max_vectors g * dim g)
    as [? ?] by nia.
  rewrite (wrap64_small (current_count g * dim g)) in * by lia.
  rewrite (wrap64_small (dim g * 4)) in * by lia.
  rewrite (wrap64_small (current_count g + 1)) in * by nia.
  apply bind_ret_inv in H0 as (db & Hdb & H0).
  destruct (Z.of_nat (length v) <? dim g) eqn:Ev; [discriminate|]. clear Ev.
  apply bind_ret_inv in H0 as (norms & Hn & H0).
  injection H0 as <- <-.
  apply cudaMemcpy_inv in Hdb as (Hsrc & Hdst & ->).
  apply cudaMemcpy_inv in Hn as (_ & Hdst' & ->).
  unfold sizeof_float in *. rewrite Z.div_mul in * by lia.
  change (4 / 4) with 1 in *.
  set (off := Z.to_nat (current_count g * dim g)).
  set (d := Z.to_nat (dim g)).
  set (row := take d v).
  assert (length row = d) as Lrow by (subst row d; rewrite length_take; lia).
  replace (Z.to_nat (current_count g * dim g + dim g)) with (off + d)%nat
    by (subst off d; lia).
  assert (off + d ≤ length (d_db g))%nat by (subst off d; lia).
  assert (db_row_new :
    ∀ r, db_row (mk (take off (d_db g) ++ row ++ drop (off + d) (d_db g))
                    (take (Z.to_nat (current_count g)) (d_db_norms g)
                     ++ take (Z.to_nat 1) [sum_sq row]
                     ++ drop (Z.to_nat (current_count g + 1)) (d_db_norms g))
                    (d_queries g) (d_q_norms g) (d_results g)
                    (max_vectors g) (dim g) (current_count g + 1)
                    (max_batch_size g)) r
         = take d (drop (Z.to_nat (r * dim g))
                     (take off (d_db g) ++ row ++ drop (off + d) (d_db g))))
    by reflexivity.
  assert (Hold : ∀ r, 0 ≤ r < current_count g →
            take d (drop (Z.to_nat (r * dim g))
                      (take off (d_db g) ++ row ++ drop (off + d) (d_db g)))
            = db_row g r).
  { intros r Hr. unfold db_row. fold d.
    assert (Z.to_nat (r * dim g) + d ≤ off)%nat by (subst off d; nia).
    rewrite row_of_prefix by (rewrite length_take; lia).
    apply row_of_take. lia. }
  assert (Hnew : take d (drop (Z.to_nat (current_count g * dim g))
                      (take off (d_db g) ++ row ++ drop (off + d) (d_db g)))
                 = row).
  { fold off. rewrite <- Lrow at 1. apply row_written. lia. }
  split; [reflexivity|]. split.
  2:{ simpl. split; [reflexivity|]. split; [rewrite db_row_new; exact Hnew|].
      split; [exact Lrow|]. intros r Hr. rewrite db_row_new. auto. }
  unfold gpu_ok. simpl. unfold INT_MAX, sizeof_float.
  repeat (split; [first [assumption | lia]|]).
  split.
  { rewrite !length_app, length_take, length_drop. lia. }
  split.
  { rewrite length_app, length_take. simpl. rewrite length_drop. lia. }
  split; [assumption|]. split; [assumption|]. split; [assumption|].
  split; [|assumption].
  intros r Hr. rewrite db_row_new.
  destruct (Z.eq_dec r (current_count g)) as [->|Hne].
  - rewrite Hnew. rewrite lookup_app_r by (rewrite length_take; lia).
    rewrite length_take.
    replace (Z.to_nat (current_count g)
             - Z.to_nat (current_count g) `min` length (d_db_norms g))%nat
      with 0%nat by lia.
    reflexivity.
  - rewrite Hold by lia. rewrite lookup_app_l by (rewrite length_take; lia).
    rewrite lookup_take_lt by lia. apply Hnorms. lia.
Qed.

(** *** [load_data] *)

Lemma norms_upto_0 (data : list F) rows cols norms :
  norms_upto data rows cols 0 norms = norms.
Proof.
  unfold norms_upto. rewrite <- (list_fmap_id norms) at 2.
  rewrite <- imap_const. apply imap_ext. reflexivity.
Qed.

Lemma norms_threads (data : list F) rows cols norms n :
  0 ≤ rows → 1 ≤ cols → rows * cols ≤ INT_MAX →
  rows * cols ≤ Z.of_nat (length data) → rows ≤ Z.of_nat (length norms) →
  Z.of_nat n ≤ INT_MAX + 1 →
  foldl (λ acc tid,
           m ← acc;
           compute_norms_kernel data rows cols (to_int32 (Z.of_nat tid)) m)
    (Ret norms) (seq 0 n)
  = Ret (norms_upto data rows cols n norms).
Proof.
  intros Hrows Hcols Hmax Hdata Hnorms. unfold INT_MAX in *.
  induction n as [|n IH]; intros Hn.
  { simpl. rewrite norms_upto_0. reflexivity. }
  rewrite seq_S, foldl_snoc, IH by lia. cbn. clear IH.
  rewrite to_int32_small by (unfold INT_MAX; lia).
  unfold compute_norms_kernel.
  destruct (rows <=? Z.of_nat n) eqn:E.
  - apply Z.leb_le in E. f_equal. apply imap_ext. intros p c _.
    destruct (Z.ltb_spec (Z.of_nat p) rows); [|rewrite !andb_false_r; done].
    rewrite !andb_true_r.
    destruct (Nat.ltb_spec p n); destruct (Nat.ltb_spec p (S n));
      try reflexivity; lia.
  - apply Z.leb_gt in E.
    assert (0 ≤ Z.of_nat n * cols
            ∧ Z.of_nat n * cols + cols ≤ rows * cols) as [? ?] by nia.
    rewrite int_checked_ret by (unfold INT_MAX; lia). cbn.
    replace (Z.of_nat n * cols <? 0) with false
      by (symmetry; apply Z.ltb_ge; lia).
    replace (Z.of_nat (length data) <? Z.of_nat n * cols + 0 `max` cols)
      with false by (symmetry; apply Z.ltb_ge; lia).
    simpl. rewrite store_ret by (unfold norms_upto; rewrite length_imap; lia).
    f_equal. rewrite Nat2Z.id. apply list_eq. intros i.
    unfold norms_upto.
    rewrite list_lookup_insert, length_imap, !list_lookup_imap.
    assert (n < length norms)%nat as Hlt by lia.
    destruct (lookup_lt_is_Some_2 norms n Hlt) as [c Hc].
    case_decide as Hi.
    + destruct Hi as [<- _]. rewrite Hc. simpl.
      replace (n <? S n)%nat with true by (symmetry; apply Nat.ltb_lt; lia).
      replace (Z.of_nat n <? rows) with true
        by (symmetry; apply Z.ltb_lt; lia).
      reflexivity.
    + destruct (norms !! i) as [ci|] eqn:Hci; simpl; [|reflexivity].
      assert (i ≠ n) by (intros ->; apply Hi; split; [reflexivity|lia]).
      destruct (Nat.ltb_spec i n); destruct (Nat.ltb_spec i (S n));
        try reflexivity; lia.
Qed.

(** [load_data] replaces the rows of the index by the [slab_count] rows of
    the slab and fills the cache of norms with the kernel; the state it
    leaves satisfies [gpu_ok]. *)
Lemma load_data_ok g slab_count (slab_data : list F) :
  gpu_ok g → 0 ≤ slab_count ≤ max_vectors g →
  slab_count * dim g + 256 ≤ INT_MAX →
  slab_count * dim g ≤ Z.of_nat (length slab_data) →
  ∃ g', load_data g slab_count slab_data = Ret g'
        ∧ gpu_ok g' ∧ current_count g' = slab_count
        ∧ ∀ r, 0 ≤ r < slab_count →
            db_row g' r
            = take (Z.to_nat (dim g))
                (drop (Z.to_nat (r * dim g)) slab_data).
Proof.
  intros (Hdim & Hcc & Hmb & Ldb & Ldbn & Ldq & Ldqn & Lres & Hnorms & Hsz)
    Hn Hfit Hdata.
  unfold INT_MAX, sizeof_float in *.
  assert (0 ≤ slab_count * dim g ≤ max_vectors g * dim g) by nia.
  assert (slab_count ≤ slab_count * dim g) by nia.
  unfold load_data, sizeof_float.
  rewrite (wrap64_small (slab_count * dim g)) by lia.
  rewrite (wrap64_small (slab_count * dim g * 4)) by lia.
  rewrite (wrap64_small (slab_count + 256)) by lia.
  rewrite (wrap64_small (slab_count + 256 - 1)) by lia.
  unfold cudaMemcpy, sizeof_float. rewrite Z.div_mul by lia.
  replace (Z.of_nat (length slab_data) <? slab_count * dim g) with false
    by (symmetry; apply Z.ltb_ge; lia).
  replace (Z.of_nat (length (d_db g)) <? 0 + slab_count * dim g) with false
    by (symmetry; apply Z.ltb_ge; lia).
  rewrite orb_false_l, outcome_bind_ret.
  change (take (Z.to_nat 0) (d_db g)) with (@nil F). rewrite app_nil_l.
  set (nd := Z.to_nat (slab_count * dim g)).
  replace (Z.to_nat (0 + slab_count * dim g)) with nd by (subst nd; lia).
  set (db := take nd slab_data ++ drop nd (d_db g)).
  assert (length db = length (d_db g)) as Ldb'.
  { subst db. rewrite length_app, length_take, length_drop. lia. }
  set (blocks := (slab_count + 256 - 1) / 256).
  assert (256 * blocks ≤ slab_count + 256 - 1)
    by (apply Z.mul_div_le; lia).
  assert (0 ≤ blocks) by (apply Z.div_pos; lia).
  rewrite (to_int32_small blocks), (to_int32_small slab_count),
    (to_int32_small (dim g)) by (unfold INT_MAX; lia).
  assert (∃ norms,
    launch blocks 256 (compute_norms_kernel db slab_count (dim g))
      (d_db_norms g) = Ret norms
    ∧ length norms = length (d_db_norms g)
    ∧ ∀ r, 0 ≤ r < slab_count →
        norms !! Z.to_nat r
        = Some (sum_sq (take (Z.to_nat (dim g))
                          (drop (Z.to_nat (r * dim g)) db))))
    as (norms & -> & Lnorms & Hcache).
  { unfold launch. destruct (Z.ltb_spec blocks 1) as [Hb|Hb]; simpl.
    { exists (d_db_norms g). split; [reflexivity|]. split; [reflexivity|].
      intros r Hr.
      pose proof (Z.div_mod (slab_count + 256 - 1) 256 ltac:(lia)).
      pose proof (Z.mod_pos_bound (slab_count + 256 - 1) 256 ltac:(lia)).
      subst blocks. lia. }
    replace (MAX_GRID <? blocks) with false
      by (symmetry; apply Z.ltb_ge; unfold MAX_GRID; lia).
    rewrite norms_threads by (unfold INT_MAX; lia).
    eexists. split; [reflexivity|].
    split; [unfold norms_upto; apply length_imap|].
    intros r Hr. unfold norms_upto. rewrite list_lookup_imap.
    assert (Z.to_nat r < length (d_db_norms g))%nat as Hlt by lia.
    destruct (lookup_lt_is_Some_2 _ _ Hlt) as [c ->]. simpl.
    pose proof (Z.div_mod (slab_count + 256 - 1) 256 ltac:(lia)).
    pose proof (Z.mod_pos_bound (slab_count + 256 - 1) 256 ltac:(lia)).
    fold blocks in H4.
    replace (_ <? _)%nat with true by (symmetry; apply Nat.ltb_lt; lia).
    replace (Z.of_nat (Z.to_nat r) <? slab_count) with true
      by (symmetry; apply Z.ltb_lt; lia).
    simpl. rewrite Z2Nat.id by lia. reflexivity. }
  rewrite outcome_bind_ret. eexists. split; [reflexivity|].
  split; [|split; [reflexivity|]].
  - unfold gpu_ok, db_row. simpl. unfold INT_MAX, sizeof_float.
    rewrite Ldb', Lnorms. repeat (split; [first [assumption | lia]|]).
    assumption.
  - intros r Hr. unfold db_row. simpl. subst db.
    assert (Z.to_nat (r * dim g) + Z.to_nat (dim g) ≤ nd)%nat
      by (subst nd; nia).
    rewrite row_of_prefix by (rewrite length_take; lia).
    apply row_of_take. lia.
Qed.

(** ** The claims on [search] *)

(** What [search] returns, read back from the state it leaves: the list
    of the query [j] is what the loop computes from the scores of that
    query in [d_results]. *)
Lemma search_inv g qs k res g' :
  gpu_ok g → Forall (λ q, Z.of_nat (length q) = dim g) qs →
  Z.of_nat (length qs) ≤ max_batch_size g →
  search g qs k = Ret (res, g') →
  length res = length qs
  ∧ ∀ j l, res !! j = Some l →
      ∃ all,
        Z.of_nat (length all) < 2 ^ 64
        ∧ search_query all (current_count g) k (Z.of_nat j) = Ret l
        ∧ wrap64 (Z.of_nat j * current_count g)
          = Z.of_nat j * current_count g
        ∧ take (Z.to_nat (current_count g))
            (drop (Z.to_nat (Z.of_nat j * current_count g)) all)
          = query_scores g' j
        ∧ ∀ x, 0 ≤ x < current_count g →
            all !! Z.to_nat (Z.of_nat j * current_count g + x)
            = query_scores g' j !! Z.to_nat x.
Proof.
  intros Hok Hqs Hnq Hs.
  pose proof Hok as (Hdim & Hcc & Hmb & _ & _ & _ & _ & Lres & _).
  unfold INT_MAX in *.
  pose proof Hs as Hinv. apply search_ret_inv in Hinv; [|lia].
  rewrite to_int32_small in Hinv by (unfold INT_MAX; lia).
  destruct Hinv as [[Hz ->]|(Hpos & Hfit & _)].
  { split; [simpl; lia|]. intros j l Hl. discriminate. }
  destruct (search_run g qs k Hok Hqs ltac:(lia) Hfit)
    as (dq & dqn & r2 & _ & _ & _ & Lr2 & Heq).
  rewrite Heq in Hs. apply bind_ret_inv in Hs as (fr & Hfr & [= -> <-]).
  apply for_each_ret in Hfr. split.
  { apply Forall2_length in Hfr.
    rewrite length_fmap, length_seq in Hfr. lia. }
  intros j l Hl.
  destruct (Forall2_lookup_r _ _ _ _ _ Hfr Hl) as (y & Hy & Hrun).
  pose proof (lookup_lt_Some _ _ _ Hy) as Hj.
  rewrite length_fmap, length_seq in Hj.
  rewrite list_lookup_fmap in Hy.
  rewrite lookup_seq_lt in Hy by lia. injection Hy as <-.
  set (cc := current_count g) in *.
  set (nq := Z.of_nat (length qs)) in *.
  assert (0 ≤ Z.of_nat j * cc ∧ Z.of_nat j * cc + cc ≤ cc * nq
          ∧ cc * nq ≤ max_vectors g * max_batch_size g) as (? & ? & ?)
    by nia.
  set (all := take (Z.to_nat (cc * nq)) r2) in *.
  assert (take (Z.to_nat cc) (drop (Z.to_nat (Z.of_nat j * cc)) all)
          = take (Z.to_nat cc) (drop (j * Z.to_nat cc) r2)) as Hcol.
  { subst all. replace (j * Z.to_nat cc)%nat with (Z.to_nat (Z.of_nat j * cc))
      by lia.
    rewrite skipn_firstn_comm, take_take. f_equal. lia. }
  exists all.
  unfold INT_MAX in Hfit.
  split; [subst all; rewrite length_take; lia|].
  split; [exact Hrun|].
  split; [apply wrap64_small; lia|].
  split; [exact Hcol|].
  intros x Hx. unfold query_scores. cbn [current_count d_results].
  fold cc. rewrite <- Hcol.
  rewrite lookup_take_lt by lia. rewrite lookup_drop. f_equal. lia.
Qed.

(** C4, what [search] returns.  In a state that satisfies [gpu_ok], for a
    batch of at most [max_batch_size] queries of [dim] floats and [0 ≤ k]:
    when [search] returns, it returns one list per query, of length
    [min k current_count], without a repeated row, whose scores are those
    of the rows in the buffer of the scores; and the list of a query whose
    scores are comparable (none of them NaN) is in ascending order of the
    scores, with ties in ascending order of the rows ([result_lt]).
    [search] does return when [current_count * |queries| + 256] is in the
    range of [int]; on an empty index it returns one empty list per
    query. *)
Theorem search_results_ordered g qs k :
  gpu_ok g → Forall (λ q, Z.of_nat (length q) = dim g) qs →
  Z.of_nat (length qs) ≤ max_batch_size g → 0 ≤ k ≤ INT_MAX →
  (∀ res g', search g qs k = Ret (res, g') →
     length res = length qs
     ∧ ∀ j l, res !! j = Some l →
         Z.of_nat (length l) = Z.min k (current_count g)
         ∧ NoDup (id <$> l)
         ∧ (∀ r, r ∈ l →
              0 ≤ id r < current_count g
              ∧ query_scores g' j !! Z.to_nat (id r) = Some (score r))
         ∧ (comparable (query_scores g' j) → StronglySorted result_lt l))
  ∧ (current_count g * Z.of_nat (length qs) + 256 ≤ INT_MAX →
     ∃ res g', search g qs k = Ret (res, g'))
  ∧ (current_count g = 0 →
     ∃ g', search g qs k = Ret (replicate (length qs) [], g')).
Proof.
  intros Hok Hqs Hnq Hk.
  pose proof Hok as (_ & Hcc & _).
  assert (∀ res g', search g qs k = Ret (res, g') →
     length res = length qs
     ∧ ∀ j l, res !! j = Some l →
         Z.of_nat (length l) = Z.min k (current_count g)
         ∧ NoDup (id <$> l)
         ∧ (∀ r, r ∈ l →
              0 ≤ id r < current_count g
              ∧ query_scores g' j !! Z.to_nat (id r) = Some (score r))
         ∧ (comparable (query_scores g' j) → StronglySorted result_lt l))
    as Hshape.
  { intros res g' Hs.
    destruct (search_inv g qs k res g' Hok Hqs Hnq Hs) as [Hlen Hall].
    split; [exact Hlen|]. intros j l Hl.
    destruct (Hall j l Hl) as (all & Hsize & Hrun & Hw & Hcol & Hlook).
    destruct (search_query_props all (current_count g) k (Z.of_nat j) l
                ltac:(lia) Hk Hsize Hrun) as (Hn & Hsorted & Hnd & Helem).
    rewrite Hw, Hcol in Hsorted.
    split; [exact Hn|]. split; [exact Hnd|]. split; [|exact Hsorted].
    intros r Hr. destruct (Helem r Hr) as [Hid Hsc].
    split; [exact Hid|]. rewrite Hw, (Hlook _ Hid) in Hsc. exact Hsc. }
  split; [exact Hshape|]. split.
  { apply search_returns; assumption. }
  intros Hz.
  destruct (search_returns g qs k Hok Hqs Hnq Hk) as (res & g' & Hs).
  { rewrite Hz. unfold INT_MAX. lia. }
  exists g'. rewrite Hs. do 2 f_equal.
  destruct (Hshape res g' Hs) as [Hlen Hall]. rewrite <- Hlen.
  apply list_eq. intros j.
  destruct (res !! j) as [l|] eqn:Hl.
  - destruct (Hall j l Hl) as (Hn & _).
    pose proof (lookup_lt_Some _ _ _ Hl).
    destruct l; [|simpl in Hn; lia].
    symmetry. apply lookup_replicate. split; [reflexivity|assumption].
  - apply lookup_ge_None in Hl. symmetry. apply lookup_replicate_None. lia.
Qed.

(** The identity behind the kernel: for two vectors of the same length,
    [‖x‖² + ‖q‖² − 2·x·q] is the sum of the squares of the differences. *)
Lemma l2_identity_sq_dist (x q : list F) :
  length x = length q → l2_identity x q = sq_dist x q.
Proof.
  unfold l2_identity, sq_dist, sum_sq, dot.
  assert (∀ (x q : list F) a b c, length x = length q →
    fadd (fadd (foldl (λ s v, fadd s (fmul v v)) a x)
               (foldl (λ s v, fadd s (fmul v v)) b q))
         (fopp (fmul two (foldl (λ s p, fadd s (fmul p.1 p.2)) c (zip x q))))
    = foldl (λ s p, fadd s (fmul (fadd p.1 (fopp p.2)) (fadd p.1 (fopp p.2))))
        (fadd (fadd a b) (fopp (fmul two c))) (zip x q)) as Hgen.
  { clear x q. induction x as [|x0 x IH]; intros [|q0 q] a b c Hlen;
      simpl in *; try discriminate; [reflexivity|].
    rewrite IH by lia. f_equal. unfold two. ring. }
  intros Hlen. rewrite Hgen by exact Hlen. f_equal. unfold two. ring.
Qed.

Lemma db_row_length g r :
  gpu_ok g → 0 ≤ r < current_count g → length (db_row g r) = Z.to_nat (dim g).
Proof.
  intros (Hdim & Hcc & _ & Ldb & _) Hr. unfold db_row.
  rewrite length_take, length_drop.
  assert ((r + 1) * dim g ≤ max_vectors g * dim g) by nia. lia.
Qed.

(** C5.  In a state that satisfies [gpu_ok], for a batch of at most
    [max_batch_size] queries of [dim] floats: every result that [search]
    returns for the query [q] names a stored row [x] and carries the score
    [‖x‖² + ‖q‖² − 2·x·q], which is the squared distance of [x] and [q]
    (exact arithmetic). *)
Theorem search_score_identity g qs k res g' :
  gpu_ok g → Forall (λ q, Z.of_nat (length q) = dim g) qs →
  Z.of_nat (length qs) ≤ max_batch_size g →
  search g qs k = Ret (res, g') →
  ∀ j q l r, qs !! j = Some q → res !! j = Some l → r ∈ l →
    0 ≤ id r < current_count g
    ∧ score r = l2_identity (db_row g (id r)) q
    ∧ l2_identity (db_row g (id r)) q = sq_dist (db_row g (id r)) q.
Proof.
  intros Hok Hqs Hnq Hs j q l r Hq Hl Hr.
  pose proof Hok as (Hdim & Hcc & Hmb & _).
  pose proof (lookup_lt_Some _ _ _ Hq) as Hj. unfold INT_MAX in *.
  pose proof Hs as Hinv. apply search_ret_inv in Hinv; [|lia].
  rewrite to_int32_small in Hinv by (unfold INT_MAX; lia).
  destruct Hinv as [[_ ->]|(Hpos & Hfit & _)]; [discriminate|].
  destruct (search_steps g qs k Hok Hqs ltac:(lia) Hfit)
    as (all & g'' & Hlen & Hcell & Heq).
  rewrite Heq in Hs. apply bind_ret_inv in Hs as (fr & Hfr & [= -> _]).
  apply for_each_ret in Hfr.
  destruct (Forall2_lookup_r _ _ _ _ _ Hfr Hl) as (x & Hx & Hrun).
  rewrite list_lookup_fmap in Hx.
  rewrite lookup_seq_lt in Hx by lia. injection Hx as <-.
  assert (0 ≤ Z.of_nat j * current_count g
          ∧ Z.of_nat j * current_count g + current_count g
            ≤ current_count g * Z.of_nat (length qs)) as [? ?] by nia.
  unfold INT_MAX in *.
  destruct (search_query_elems all (current_count g) k (Z.of_nat j) l
              ltac:(lia) ltac:(lia) Hrun r Hr) as [Hid Hsc].
  rewrite wrap64_small in Hsc by lia.
  rewrite (Hcell j q (id r) Hq Hid) in Hsc. injection Hsc as Hsc.
  split; [exact Hid|].
  split; [rewrite <- Hsc; apply device_score_exact|].
  apply l2_identity_sq_dist. rewrite db_row_length by assumption.
  rewrite Forall_lookup in Hqs. specialize (Hqs j q Hq). lia.
Qed.

(** C7, what [search] does.  It does not test the size of the batch.  With more queries than [max_batch_size] (and at most [INT_MAX])
    it goes on to the copies to the device, and the copy of the norms of the
    queries runs past the end of [d_q_norms]: the call has no defined
    outcome, and it throws nothing to the caller. *)
Theorem search_batch_unchecked g qs k :
  gpu_ok g → max_batch_size g < Z.of_nat (length qs) ≤ INT_MAX →
  search g qs k = Undefined ∧ ∀ e, search g qs k ≠ Throw e.
Proof.
  intros (_ & _ & Hmb & _ & _ & _ & Ldqn & _) Hnq.
  assert (search g qs k = Undefined) as Hs.
  { unfold search, INT_MAX in *.
    rewrite to_int32_small by (unfold INT_MAX; lia).
    replace (_ =? 0) with false by (symmetry; apply Z.eqb_neq; lia).
    cbv zeta.
    rewrite (cudaMemcpy_overrun (d_q_norms g)).
    - destruct (cudaMemcpy_cases (d_queries g) 0 (concat qs)
                  (wrap64 (Z.of_nat (length (concat qs)) * sizeof_float)))
        as [[dq ->]| ->]; reflexivity.
    - rewrite length_fmap. unfold sizeof_float.
      rewrite wrap64_small by lia. rewrite Z.div_mul by lia. lia. }
  split; [exact Hs|]. intros e. rewrite Hs. discriminate.
Qed.

(** ** Further properties of [search] *)

(** Every row is, with its score, among the results of a query, or it
    stands after all of them. *)
Lemma search_query_topk all_scores cc k q l :
  0 ≤ cc → Z.of_nat (length all_scores) < 2 ^ 64 →
  search_query all_scores cc k q = Ret l →
  comparable (take (Z.to_nat cc)
                (drop (Z.to_nat (wrap64 (q * cc))) all_scores)) →
  ∀ i s, 0 ≤ i < cc →
    all_scores !! Z.to_nat (wrap64 (q * cc) + i) = Some s →
    mk_result i s ∈ l ∨ ∀ r, r ∈ l → result_lt r (mk_result i s).
Proof.
  intros Hcc Hlen. unfold search_query, partial_sort.
  set (base := wrap64 (q * cc)).
  assert (0 ≤ base) by (apply Z.mod_pos_bound; lia).
  destruct (Z.of_nat (length all_scores) <? base + cc) eqn:Hfit;
    [discriminate|]. apply Z.ltb_ge in Hfit.
  set (slice := take (Z.to_nat cc) (drop (Z.to_nat base) all_scores)).
  set (cands := imap (λ i s, (s, Z.of_nat i)) slice).
  destruct (_ || _); [discriminate|]. intros [= <-] Hcmp i s Hi Hs.
  set (n := Z.to_nat (to_int32 (wrap64 k `min` cc))).
  set (sorted := merge_sort pair_le cands).
  assert (sorted ≡ₚ cands) as Hperm by apply merge_sort_Permutation.
  assert (NoDup (sorted.*2)) as Hnd.
  { rewrite Hperm. subst cands. rewrite candidates_rows.
    apply NoDup_fmap_2; [apply Nat2Z.inj'|apply NoDup_seq]. }
  assert (StronglySorted pair_le (take n sorted ++ drop n sorted)) as Hsorted.
  { rewrite take_drop. apply candidates_sorted, Hcmp. }
  assert ((s, i) ∈ take n sorted ++ drop n sorted) as Hin.
  { rewrite take_drop, Hperm. subst cands.
    apply list_elem_of_lookup. exists (Z.to_nat i).
    rewrite list_lookup_imap. subst slice.
    rewrite lookup_take_lt by lia. rewrite lookup_drop.
    replace (Z.to_nat base + Z.to_nat i)%nat with (Z.to_nat (base + i))
      by lia.
    rewrite Hs. simpl. rewrite Z2Nat.id by lia. reflexivity. }
  apply elem_of_app in Hin as [Hin|Hin].
  - left. apply list_elem_of_fmap. exists (s, i). simpl.
    rewrite wrap64_small by lia. auto.
  - right. intros r Hr. apply list_elem_of_fmap in Hr as (c & -> & Hc).
    assert (0 ≤ c.2 < cc) as Hc2.
    { assert (c ∈ cands) as Hcc'.
      { rewrite <- Hperm. apply elem_of_take in Hc as (j & Hj & _).
        eapply list_elem_of_lookup_2, Hj. }
      subst cands. apply elem_of_lookup_imap_1 in Hcc' as (j & y & -> & Hy).
      apply lookup_lt_Some in Hy. subst slice.
      rewrite length_take, length_drop in Hy. simpl. lia. }
    rewrite wrap64_small by lia.
    apply (pair_le_result_lt c (s, i)).
    + eapply StronglySorted_app_1_elem_of; eauto.
    + simpl. intros Heq.
      rewrite <- (take_drop n sorted), fmap_app in Hnd.
      apply NoDup_app in Hnd as (_ & Hdisj & _).
      apply (Hdisj c.2).
      * apply list_elem_of_fmap. eauto.
      * rewrite Heq. apply list_elem_of_fmap. exists (s, i). auto.
Qed.

(** X14.  The results are the rows of smallest score.  For every query
    of a batch that [search] answers and whose scores are comparable, every
    stored row is, with its score in the buffer of the scores, either among
    the results or after every result in the order of the results (a score
    that is not smaller and, at the same score, a larger row index). *)
Theorem search_returns_smallest g qs k res g' :
  gpu_ok g → Forall (λ q, Z.of_nat (length q) = dim g) qs →
  Z.of_nat (length qs) ≤ max_batch_size g →
  search g qs k = Ret (res, g') →
  ∀ j l x s, res !! j = Some l → comparable (query_scores g' j) →
    0 ≤ x < current_count g →
    query_scores g' j !! Z.to_nat x = Some s →
    mk_result x s ∈ l ∨ ∀ r, r ∈ l → result_lt r (mk_result x s).
Proof.
  intros Hok Hqs Hnq Hs j l x s Hl Hcmp Hx Hsc.
  pose proof Hok as (_ & Hcc & _).
  destruct (search_inv g qs k res g' Hok Hqs Hnq Hs) as [_ Hall].
  destruct (Hall j l Hl) as (all & Hsize & Hrun & Hw & Hcol & Hlook).
  apply (search_query_topk all (current_count g) k (Z.of_nat j) l
           ltac:(lia) Hsize Hrun).
  - rewrite Hw, Hcol. exact Hcmp.
  - exact Hx.
  - rewrite Hw, (Hlook _ Hx). exact Hsc.
Qed.

(** The scores that [search] sorts are determined by the rows and the
    queries. *)
Lemma scores_determined (all1 all2 : list F) (cc nq : Z) (cell : nat → Z → F)
    (qs : list (list F)) :
  nq = Z.of_nat (length qs) →
  Z.of_nat (length all1) = cc * nq → Z.of_nat (length all2) = cc * nq →
  (∀ j q r, qs !! j = Some q → 0 ≤ r < cc →
     all1 !! Z.to_nat (Z.of_nat j * cc + r) = Some (cell j r)) →
  (∀ j q r, qs !! j = Some q → 0 ≤ r < cc →
     all2 !! Z.to_nat (Z.of_nat j * cc + r) = Some (cell j r)) →
  0 ≤ cc → all1 = all2.
Proof.
  intros -> L1 L2 H1 H2 Hcc. apply list_eq. intros p.
  destruct (decide (Z.of_nat p < cc * Z.of_nat (length qs))) as [Hp|Hp].
  - assert (0 < cc) by nia.
    pose proof (Z.div_mod (Z.of_nat p) cc ltac:(lia)) as Hdm.
    pose proof (Z.mod_pos_bound (Z.of_nat p) cc ltac:(lia)) as Hm.
    assert (0 ≤ Z.of_nat p / cc) by (apply Z.div_pos; lia).
    assert (Z.of_nat p / cc < Z.of_nat (length qs)).
    { apply Z.div_lt_upper_bound; lia. }
    destruct (lookup_lt_is_Some_2 qs (Z.to_nat (Z.of_nat p / cc)))
      as [q Hq]; [lia|].
    specialize (H1 _ q (Z.of_nat p mod cc) Hq Hm).
    specialize (H2 _ q (Z.of_nat p mod cc) Hq Hm).
    rewrite Z2Nat.id in H1, H2 by lia.
    replace (Z.to_nat (Z.of_nat p / cc * cc + Z.of_nat p mod cc)) with p
      in H1, H2 by lia.
    congruence.
  - rewrite !lookup_ge_None_2 by lia. reflexivity.
Qed.

(** X15.  The results depend on the stored rows and on the queries only.
    Two indexes of the same dimension that hold the same rows give the
    same results for the same batch, whatever their scratch buffers hold
    (the junk of [cudaMalloc], the leftovers of earlier searches) and
    whatever their capacities. *)
Theorem search_depends_on_rows_only g1 g2 qs k res1 res2 g1' g2' :
  gpu_ok g1 → gpu_ok g2 → dim g1 = dim g2 →
  current_count g1 = current_count g2 →
  (∀ r, 0 ≤ r < current_count g1 → db_row g1 r = db_row g2 r) →
  Forall (λ q, Z.of_nat (length q) = dim g1) qs →
  Z.of_nat (length qs) ≤ max_batch_size g1 →
  Z.of_nat (length qs) ≤ max_batch_size g2 →
  search g1 qs k = Ret (res1, g1') → search g2 qs k = Ret (res2, g2') →
  res1 = res2.
Proof.
  intros Hok1 Hok2 Hdim Hcc Hrows Hqs Hn1 Hn2 Hs1 Hs2.
  pose proof Hok1 as (_ & Hcc1 & Hmb1 & _).
  pose proof Hs1 as Hinv. apply search_ret_inv in Hinv; [|lia].
  unfold INT_MAX in *.
  rewrite to_int32_small in Hinv by (unfold INT_MAX; lia).
  destruct Hinv as [[Hz ->]|(Hpos & Hfit & _)].
  { destruct qs; [|simpl in Hz; lia]. unfold search in Hs2. simpl in Hs2.
    injection Hs2 as <- _. reflexivity. }
  destruct (search_steps g1 qs k Hok1 Hqs ltac:(lia) Hfit)
    as (all1 & g1'' & Hlen1 & Hcell1 & Heq1).
  assert (Forall (λ q : list F, Z.of_nat (length q) = dim g2) qs) as Hqs2
    by (rewrite <- Hdim; exact Hqs).
  rewrite Hcc in Hfit.
  destruct (search_steps g2 qs k Hok2 Hqs2 ltac:(lia) Hfit)
    as (all2 & g2'' & Hlen2 & Hcell2 & Heq2).
  assert (all1 = all2) as Hall.
  { apply (scores_determined all1 all2 (current_count g1)
             (Z.of_nat (length qs))
             (λ j r, device_score (db_row g1 r) (qs !!! j)) qs);
      try first [reflexivity | lia].
    - intros j q r Hq Hr. rewrite (Hcell1 j q r Hq Hr).
      rewrite (list_lookup_total_correct _ _ _ Hq). reflexivity.
    - intros j q r Hq Hr. rewrite Hcc.
      rewrite (Hcell2 j q r Hq ltac:(lia)).
      rewrite (list_lookup_total_correct _ _ _ Hq), Hrows by lia.
      reflexivity. }
  rewrite Heq1 in Hs1. rewrite Heq2, <- Hall, <- Hcc in Hs2.
  apply bind_ret_inv in Hs1 as (fr1 & Hfr1 & [= <- _]).
  apply bind_ret_inv in Hs2 as (fr2 & Hfr2 & [= <- _]).
  congruence.
Qed.

(** The state that [search] returns. *)
Lemma search_state_ok g qs k res g' :
  gpu_ok g → Forall (λ q, Z.of_nat (length q) = dim g) qs →
  Z.of_nat (length qs) ≤ max_batch_size g →
  search g qs k = Ret (res, g') →
  gpu_ok g' ∧ d_db g' = d_db g ∧ d_db_norms g' = d_db_norms g
  ∧ current_count g' = current_count g ∧ dim g' = dim g
  ∧ max_vectors g' = max_vectors g ∧ max_batch_size g' = max_batch_size g.
Proof.
  intros Hok Hqs Hnq Hs.
  pose proof Hok as (Hdim & Hcc & Hmb & Ldb & Ldbn & Ldq & Ldqn & Lres
                     & Hnorms & Hsz).
  pose proof Hs as Hinv. apply search_ret_inv in Hinv; [|lia].
  unfold INT_MAX in *.
  rewrite to_int32_small in Hinv by (unfold INT_MAX; lia).
  destruct Hinv as [[Hz ->]|(Hpos & Hfit & _)].
  { destruct qs; [|simpl in Hz; lia]. unfold search in Hs. simpl in Hs.
    injection Hs as <-. split; [exact Hok | repeat split]. }
  destruct (search_steps_state g qs k Hok Hqs ltac:(lia) Hfit)
    as (all & dq & dqn & r2 & _ & _ & Ldq' & Ldqn' & Lr2 & Heq).
  rewrite Heq in Hs. apply bind_ret_inv in Hs as (fr & _ & [= _ <-]).
  split; [|repeat split].
  unfold gpu_ok, db_row. simpl. rewrite Ldq', Ldqn', Lr2.
  unfold INT_MAX. repeat split; try first [assumption | lia].
Qed.

(** X16.  A search leaves the index as it was: the state it returns holds
    the same rows, the same norms and the same count, and it satisfies
    [gpu_ok] again; only the three scratch buffers have changed. *)
Theorem search_keeps_index g qs k res g' :
  gpu_ok g → Forall (λ q, Z.of_nat (length q) = dim g) qs →
  Z.of_nat (length qs) ≤ max_batch_size g →
  search g qs k = Ret (res, g') →
  gpu_ok g' ∧ d_db g' = d_db g ∧ d_db_norms g' = d_db_norms g
  ∧ current_count g' = current_count g ∧ dim g' = dim g
  ∧ max_vectors g' = max_vectors g ∧ max_batch_size g' = max_batch_size g.
Proof. apply search_state_ok. Qed.

(** With a negative [k] the loop body takes every row: [(size_t)k] is
    huge and [safe_k] is [current_count]. *)
Lemma search_query_negative_k all_scores cc k q :
  0 ≤ cc ≤ INT_MAX → - 2 ^ 31 ≤ k < 0 →
  0 ≤ q → q * cc + cc ≤ Z.of_nat (length all_scores) < 2 ^ 64 →
  ∃ l, search_query all_scores cc k q = Ret l ∧ Z.of_nat (length l) = cc.
Proof.
  intros Hcc Hk Hq Hfit. unfold search_query, partial_sort, INT_MAX in *.
  assert (0 ≤ q * cc) by nia.
  rewrite (wrap64_small (q * cc)) by lia.
  assert (wrap64 k = k + 2 ^ 64) as ->.
  { unfold wrap64. symmetry. apply Z.mod_unique with (-1); lia. }
  rewrite Z.min_r by lia.
  rewrite (to_int32_small cc) by (unfold INT_MAX; lia).
  replace (Z.of_nat (length all_scores) <? q * cc + cc) with false
    by (symmetry; apply Z.ltb_ge; lia).
  replace (cc <? 0) with false by (symmetry; apply Z.ltb_ge; lia).
  rewrite Z.ltb_irrefl. simpl. eexists. split; [reflexivity|].
  rewrite length_fmap, length_take.
  rewrite (Permutation_length (merge_sort_Permutation _ _)).
  rewrite length_imap, length_take, length_drop. lia.
Qed.

(** X17.  A negative [k].  [search] converts [k] to [size_t] before it
    takes the minimum with the count, so a negative [k] stands for "all":
    every list of results has [current_count] entries. *)
Theorem search_negative_k g qs k :
  gpu_ok g → Forall (λ q, Z.of_nat (length q) = dim g) qs →
  Z.of_nat (length qs) ≤ max_batch_size g → - 2 ^ 31 ≤ k < 0 →
  current_count g * Z.of_nat (length qs) + 256 ≤ INT_MAX →
  ∃ res g', search g qs k = Ret (res, g')
            ∧ length res = length qs
            ∧ Forall (λ l, Z.of_nat (length l) = current_count g) res.
Proof.
  intros Hok Hqs Hnq Hk Hfit.
  destruct qs as [|q0 qs'] eqn:Eqs.
  { exists [], g. split; [reflexivity|]. split; [reflexivity|constructor]. }
  rewrite <- Eqs in *.
  assert (1 ≤ Z.of_nat (length qs)) by (rewrite Eqs; simpl; lia).
  destruct (search_steps g qs k Hok Hqs ltac:(lia) Hfit)
    as (all & g'' & Hlen & _ & ->).
  destruct Hok as (_ & Hcc & _). unfold INT_MAX in *.
  assert (current_count g ≤ 2 ^ 31 - 1) by nia.
  assert (∀ x, x ∈ Z.of_nat <$> seq 0 (length qs) →
            ∃ l, search_query all (current_count g) k x = Ret l
                 ∧ Z.of_nat (length l) = current_count g) as Hall.
  { intros x Hx. apply list_elem_of_fmap in Hx as (j & -> & Hj).
    apply elem_of_seq in Hj.
    assert (Z.of_nat j * current_count g + current_count g
            ≤ current_count g * Z.of_nat (length qs)) by nia.
    apply search_query_negative_k; unfold INT_MAX; lia. }
  destruct (for_each_total (search_query all (current_count g) k)
              (Z.of_nat <$> seq 0 (length qs))) as [fr Hfr].
  { intros x Hx. destruct (Hall x Hx) as (l & Hl & _). eauto. }
  rewrite Hfr. exists fr, g''. split; [reflexivity|].
  apply for_each_ret in Hfr. split.
  { apply Forall2_length in Hfr.
    rewrite length_fmap, length_seq in Hfr. lia. }
  apply Forall_lookup. intros j l Hl.
  destruct (Forall2_lookup_r _ _ _ _ _ Hfr Hl) as (x & Hx & Hrun).
  destruct (Hall x) as (l' & Hl' & Hlen'); [eapply list_elem_of_lookup_2, Hx|].
  congruence.
Qed.

(** ** Further properties of the construction of the index *)

Lemma add_single_vector_returns g v :
  gpu_ok g → dim g ≤ Z.of_nat (length v) →
  current_count g < max_vectors g →
  ∃ g', add_single_vector g v = Ret (true, g')
        ∧ dim g' = dim g ∧ max_vectors g' = max_vectors g
        ∧ max_batch_size g' = max_batch_size g.
Proof.
  intros (Hdim & Hcc & Hmb & Ldb & Ldbn & Ldq & Ldqn & Lres & Hnorms & Hsz)
    Hv Hroom.
  unfold add_single_vector, INT_MAX, sizeof_float in *.
  replace (max_vectors g <=? current_count g) with false
    by (symmetry; apply Z.leb_gt; lia).
  assert (0 ≤ current_count g * dim g
          ∧ (current_count g + 1) * dim g ≤ max_vectors g * dim g)
    as [? ?] by nia.
  rewrite (wrap64_small (current_count g * dim g)) by lia.
  rewrite (wrap64_small (dim g * 4)) by lia.
  unfold cudaMemcpy, sizeof_float. rewrite Z.div_mul by lia.
  replace (Z.of_nat (length v) <? dim g) with false
    by (symmetry; apply Z.ltb_ge; lia).
  replace (Z.of_nat (length (d_db g)) <? current_count g * dim g + dim g)
    with false by (symmetry; apply Z.ltb_ge; lia).
  cbn [orb]. rewrite outcome_bind_ret.
  change (4 / 4) with 1. cbn [length].
  replace (Z.of_nat 1 <? 1) with false by reflexivity.
  replace (Z.of_nat (length (d_db_norms g)) <? current_count g + 1)
    with false by (symmetry; apply Z.ltb_ge; lia).
  cbn [orb]. rewrite outcome_bind_ret. eexists. split; [reflexivity|].
  repeat split.
Qed.

(** X18.  [add_single_vector].  On an index with room it returns [true]:
    the vector becomes the row [current_count], the rows that were there
    are unchanged, the count goes up by one and the norm cache stays right
    ([gpu_ok]).  On a full index it returns [false] and changes nothing. *)
Theorem add_single_vector_spec g v :
  gpu_ok g → dim g ≤ Z.of_nat (length v) →
  (current_count g < max_vectors g →
   ∃ g', add_single_vector g v = Ret (true, g')
         ∧ gpu_ok g'
         ∧ current_count g' = current_count g + 1
         ∧ db_row g' (current_count g) = take (Z.to_nat (dim g)) v
         ∧ ∀ r, 0 ≤ r < current_count g → db_row g' r = db_row g r)
  ∧ (current_count g = max_vectors g →
     add_single_vector g v = Ret (false, g)).
Proof.
  intros Hok Hv. split.
  - intros Hroom.
    destruct (add_single_vector_returns g v Hok Hv Hroom) as (g' & Ha & _).
    exists g'. split; [exact Ha|].
    destruct (add_single_vector_ok g v true g' Hok Ha)
      as [(Hf & _)|(_ & Hok' & Hc & Hrow & _ & Hkeep)]; [discriminate|].
    auto.
  - intros Hfull. unfold add_single_vector. rewrite Hfull, Z.leb_refl.
    reflexivity.
Qed.

Lemma add_all_snoc g vs (v : list F) :
  add_all g (vs ++ [v])
  = (g' ← add_all g vs; r ← add_single_vector g' v; Ret r.2).
Proof. unfold add_all. rewrite foldl_snoc. reflexivity. Qed.

Lemma add_all_ok g (vs : list (list F)) :
  gpu_ok g → current_count g + Z.of_nat (length vs) ≤ max_vectors g →
  Forall (λ v, dim g ≤ Z.of_nat (length v)) vs →
  ∃ g', add_all g vs = Ret g' ∧ gpu_ok g'
        ∧ dim g' = dim g ∧ max_vectors g' = max_vectors g
        ∧ max_batch_size g' = max_batch_size g
        ∧ current_count g' = current_count g + Z.of_nat (length vs)
        ∧ (∀ i v, vs !! i = Some v →
             db_row g' (current_count g + Z.of_nat i)
             = take (Z.to_nat (dim g)) v)
        ∧ (∀ r, 0 ≤ r < current_count g → db_row g' r = db_row g r).
Proof.
  intros Hok. induction vs as [|v vs IH] using rev_ind; intros Hroom Hvs.
  { exists g. split; [reflexivity|]. split; [exact Hok|].
    repeat split; try (simpl; lia).
    intros i v Hi. rewrite lookup_nil in Hi. discriminate. }
  rewrite length_app in Hroom. simpl in Hroom.
  apply Forall_app in Hvs as [Hvs Hv]. apply Forall_inv in Hv.
  destruct IH as (g1 & Hrun & Hok1 & Hd1 & Hm1 & Hb1 & Hc1 & Hnew1 & Hold1);
    [lia | exact Hvs |].
  assert (0 ≤ current_count g) by (destruct Hok as (_ & ? & _); lia).
  destruct (add_single_vector_returns g1 v Hok1) as (g' & Ha & Hd & Hm & Hb);
    [lia | lia |].
  destruct (add_single_vector_ok g1 v true g' Hok1 Ha)
    as [(Hf & _)|(_ & Hok' & Hc & Hrow & _ & Hkeep)]; [discriminate|].
  exists g'. rewrite add_all_snoc, Hrun, outcome_bind_ret, Ha.
  split; [reflexivity|]. split; [exact Hok'|].
  split; [congruence|]. split; [congruence|]. split; [congruence|].
  split; [rewrite length_app; simpl; lia|]. split.
  - intros i w Hi. destruct (decide (i < length vs)%nat) as [Hlt|Hge].
    + rewrite lookup_app_l in Hi by exact Hlt.
      rewrite Hkeep by lia. apply Hnew1, Hi.
    + rewrite lookup_app_r in Hi by lia.
      apply list_lookup_singleton_Some in Hi as [Hi <-].
      replace (current_count g + Z.of_nat i) with (current_count g1) by lia.
      rewrite Hrow, Hd1. reflexivity.
  - intros r Hr. rewrite Hkeep by lia. apply Hold1, Hr.
Qed.

(** X19.  An index built by adds.  The constructor followed by
    [add_single_vector] of the vectors [vs], no more than the capacity and
    each of at least [dimension] floats, returns an index that holds them
    in order: row [i] is the first [dimension] floats of the vector [i],
    the count is their number, and the norm cache is right ([gpu_ok]). *)
Theorem index_built_by_adds dimension capacity (junk : F) vs :
  1 ≤ dimension ≤ INT_MAX → 0 ≤ capacity →
  capacity * dimension * 4 < 2 ^ 64 → capacity * 100 * 4 < 2 ^ 64 →
  Z.of_nat (length vs) ≤ capacity →
  Forall (λ v, dimension ≤ Z.of_nat (length v)) vs →
  ∃ g, add_all (new dimension capacity junk) vs = Ret g
       ∧ gpu_ok g ∧ current_count g = Z.of_nat (length vs)
       ∧ ∀ i v, vs !! i = Some v →
           db_row g (Z.of_nat i) = take (Z.to_nat dimension) v.
Proof.
  intros Hd Hc Hdb Hres Hn Hvs.
  destruct (new_index_ok dimension capacity junk Hd Hc Hdb Hres)
    as [Hok H0].
  destruct (add_all_ok (new dimension capacity junk) vs Hok)
    as (g & Hrun & Hok' & _ & _ & _ & Hcount & Hrows & _).
  { rewrite H0. simpl. lia. }
  { exact Hvs. }
  exists g. split; [exact Hrun|]. split; [exact Hok'|].
  rewrite H0 in Hcount, Hrows. split; [lia|].
  intros i v Hi. apply (Hrows i v Hi).
Qed.

(** X20.  [load_data] within the capacity.  The index takes the
    [slab_count] rows of the slab in place of what it held: the count is
    [slab_count], row [r] is the row [r] of the slab, and the kernel has
    filled the norm cache with the norm of every row ([gpu_ok]). *)
Theorem load_data_uploads g slab_count (slab_data : list F) :
  gpu_ok g → 0 ≤ slab_count ≤ max_vectors g →
  slab_count * dim g + 256 ≤ INT_MAX →
  slab_count * dim g ≤ Z.of_nat (length slab_data) →
  ∃ g', load_data g slab_count slab_data = Ret g'
        ∧ gpu_ok g' ∧ current_count g' = slab_count
        ∧ (∀ r, 0 ≤ r < slab_count →
             db_row g' r
             = take (Z.to_nat (dim g))
                 (drop (Z.to_nat (r * dim g)) slab_data))
        ∧ (∀ r, 0 ≤ r < slab_count →
             d_db_norms g' !! Z.to_nat r
             = Some (sum_sq (take (Z.to_nat (dim g))
                               (drop (Z.to_nat (r * dim g)) slab_data)))).
Proof.
  intros Hok Hn Hfit Hdata.
  destruct (load_data_ok g slab_count slab_data Hok Hn Hfit Hdata)
    as (g' & Hload & Hok' & Hc & Hrows).
  exists g'. split; [exact Hload|]. split; [exact Hok'|].
  split; [exact Hc|]. split; [exact Hrows|].
  intros r Hr. rewrite <- Hrows by exact Hr.
  destruct Hok' as (_ & _ & _ & _ & _ & _ & _ & _ & Hnorms & _).
  apply Hnorms. lia.
Qed.

(** A slab of more rows than the index has room for. *)
Lemma load_data_past_capacity g slab_count (slab_data : list F) :
  gpu_ok g → max_vectors g < slab_count →
  slab_count * dim g * 4 < 2 ^ 64 →
  load_data g slab_count slab_data = Undefined.
Proof.
  intros (Hdim & Hcc & Hmb & Ldb & _) Hn Hsz. unfold load_data, sizeof_float.
  assert (0 ≤ slab_count * dim g ∧ max_vectors g * dim g < slab_count * dim g)
    as [? ?] by nia.
  rewrite (wrap64_small (slab_count * dim g)) by lia.
  rewrite (wrap64_small (slab_count * dim g * 4)) by lia.
  rewrite cudaMemcpy_overrun; [reflexivity|].
  unfold sizeof_float. rewrite Z.div_mul by lia. lia.
Qed.

(** X21.  [load_data] beyond the capacity.  [load_data] does not compare
    the count of the slab with [max_vectors]: for a slab of more rows than
    the index was allocated for, the copy runs past the end of [d_db] and
    the call has no defined outcome. *)
Theorem load_data_overrun g slab_count (slab_data : list F) :
  gpu_ok g → max_vectors g < slab_count →
  slab_count * dim g * 4 < 2 ^ 64 →
  load_data g slab_count slab_data = Undefined.
Proof. apply load_data_past_capacity. Qed.

(** What [search_one] returns. *)
Lemma search_one_props g q k :
  gpu_ok g → Z.of_nat (length q) = dim g → 1 ≤ max_batch_size g →
  0 ≤ k ≤ INT_MAX → current_count g + 256 ≤ INT_MAX →
  ∃ l g', search_one g q k = Ret (l, g')
          ∧ search g [q] k = Ret ([l], g')
          ∧ Z.of_nat (length l) = Z.min k (current_count g)
          ∧ NoDup (id <$> l)
          ∧ (∀ r, r ∈ l →
               0 ≤ id r < current_count g
               ∧ query_scores g' 0 !! Z.to_nat (id r) = Some (score r))
          ∧ (comparable (query_scores g' 0) →
             StronglySorted result_lt l
             ∧ ∀ r x s, head l = Some r →
                 0 ≤ x < current_count g →
                 query_scores g' 0 !! Z.to_nat x = Some s →
                 fltb s (score r) = false).
Proof.
  intros Hok Hq Hmb Hk Hfit.
  assert (Forall (λ q0 : list F, Z.of_nat (length q0) = dim g) [q]) as Hqs
    by (constructor; [exact Hq | constructor]).
  pose proof Hok as (_ & Hcc & _).
  destruct (search_returns g [q] k Hok Hqs) as (res & g' & Hs);
    [simpl; lia | exact Hk | simpl; lia |].
  destruct (search_inv g [q] k res g' Hok Hqs ltac:(simpl; lia) Hs)
    as [Hlen Hall].
  destruct res as [|l [|l' res']]; try discriminate.
  destruct (Hall 0%nat l eq_refl)
    as (all & Hsize & Hrun & Hw & Hcol & Hlook).
  change (Z.of_nat 0) with 0 in *.
  destruct (search_query_props all (current_count g) k 0 l
              ltac:(lia) Hk Hsize Hrun) as (Hn & Hsorted & Hnd & Helem).
  rewrite Hw, Hcol in Hsorted.
  exists l, g'. split; [unfold search_one; rewrite Hs; reflexivity|].
  split; [exact Hs|]. split; [exact Hn|]. split; [exact Hnd|]. split.
  { intros r Hr. destruct (Helem r Hr) as [Hid Hsc].
    split; [exact Hid|]. rewrite Hw, (Hlook _ Hid) in Hsc. exact Hsc. }
  intros Hcmp. specialize (Hsorted Hcmp). split; [exact Hsorted|].
  intros r x s Hhead Hx Hsc. destruct l as [|r0 l0]; [discriminate|].
  injection Hhead as ->.
  destruct (search_query_topk all (current_count g) k 0 (r :: l0)
              ltac:(lia) Hsize Hrun) with (i := x) (s := s)
    as [Hin|Hafter].
  - rewrite Hw, Hcol. exact Hcmp.
  - exact Hx.
  - rewrite Hw, (Hlook _ Hx). exact Hsc.
  - apply elem_of_cons in Hin as [<-|Hin].
    + simpl. destruct (fltb s s) eqn:E; [|reflexivity].
      rewrite (fltb_asym _ _ E) in E. discriminate.
    + apply StronglySorted_inv in Hsorted as [_ Hall'].
      rewrite Forall_forall in Hall'. apply (Hall' _ Hin).
  - apply (Hafter r). left.
Qed.

(** X22.  [search_one].  On an index of [current_count] rows it returns
    the single list that [search] returns for the batch of that one query,
    so the [\[0\]] that it takes exists: [min k current_count] results of
    distinct rows, with the scores of these rows in the buffer of the
    scores.  When the scores are comparable, the results are in ascending
    order and no score of the buffer is below that of the first result. *)
Theorem search_one_spec g q k :
  gpu_ok g → Z.of_nat (length q) = dim g → 1 ≤ max_batch_size g →
  0 ≤ k ≤ INT_MAX → current_count g + 256 ≤ INT_MAX →
  ∃ l g', search_one g q k = Ret (l, g')
          ∧ search g [q] k = Ret ([l], g')
          ∧ Z.of_nat (length l) = Z.min k (current_count g)
          ∧ NoDup (id <$> l)
          ∧ (∀ r, r ∈ l →
               0 ≤ id r < current_count g
               ∧ query_scores g' 0 !! Z.to_nat (id r) = Some (score r))
          ∧ (comparable (query_scores g' 0) →
             StronglySorted result_lt l
             ∧ ∀ r x s, head l = Some r →
                 0 ≤ x < current_count g →
                 query_scores g' 0 !! Z.to_nat x = Some s →
                 fltb s (score r) = false).
Proof. apply search_one_props. Qed.

End Facts.

(** ** The index of the specification's search scenario *)

Lemma example_index_built :
  add_vectors (new 4 8 0) example_rows = Ret example_index.
Proof. vm_compute. reflexivity. Qed.

Lemma example_index_ok : gpu_ok example_index.
Proof.
  unfold gpu_ok.
  repeat split; try (vm_compute; first [reflexivity | discriminate]).
  intros r Hr. change (current_count example_index) with 3 in Hr.
  assert (r = 0 ∨ r = 1 ∨ r = 2) as [->|[->| ->]] by lia;
    vm_compute; reflexivity.
Qed.

(** The search scenario of the specification: the rows [1,0,0,0],
    [0,1,0,0], [1,1,0,0], the query [1,0,0,0] and [k = 3] give the rows
    0, 2, 1 with the scores 0, 1, 2. *)
Example exact_search_scenario :
  ∃ g', search example_index [example_query] 3 = Ret ([example_results], g').
Proof. vm_compute. eauto. Qed.

(** ** Floats *)

(** Among the floats that are not NaN, [operator<] is the order of the
    ranks. *)
Lemma SFltb_rank (x y : float32) :
  f32_is_nan x = false → f32_is_nan y = false →
  SFltb x y = true ↔ rank_lt (f32_rank x) (f32_rank y).
Proof.
  unfold SFltb, rank_lt.
  destruct x as [sx|sx| |sx mx ex], y as [sy|sy| |sy my ey]; simpl;
    try discriminate; intros _ _;
    try destruct sx; try destruct sy; simpl;
    try (split; [discriminate | lia]); try (split; [reflexivity | lia]);
    try (split; [lia | reflexivity]).
  - change (PosDef.Pos.compare_cont Eq mx my) with (Pos.compare mx my).
    destruct (Z.compare_spec ex ey) as [He|He|He];
      [|split; [discriminate | lia] | split; [lia | reflexivity]].
    destruct (Pos.compare_spec mx my) as [Hm|Hm|Hm]; simpl;
      [split; [discriminate | lia] | split; [discriminate | lia]
      | split; [lia | reflexivity]].
  - change (PosDef.Pos.compare_cont Eq mx my) with (Pos.compare mx my).
    destruct (Z.compare_spec ex ey) as [He|He|He];
      [|split; [lia | reflexivity] | split; [discriminate | lia]].
    destruct (Pos.compare_spec mx my) as [Hm|Hm|Hm]; simpl;
      [split; [discriminate | lia] | split; [lia | reflexivity]
      | split; [discriminate | lia]].
Qed.

(** Floats none of which is NaN are comparable. *)
Lemma float32_comparable (l : list float32) :
  forallb (λ x, negb (f32_is_nan x)) l = true → comparable l.
Proof.
  intros Hl x y z Hx Hy Hz Hxy.
  rewrite forallb_forall in Hl.
  assert (∀ a, a ∈ l → f32_is_nan a = false) as Hnan.
  { intros a Ha. apply list_elem_of_In in Ha. apply Hl in Ha.
    destruct (f32_is_nan a); [discriminate|reflexivity]. }
  cbn [fltb float32_scalar] in *.
  apply SFltb_rank in Hxy; auto.
  destruct (SFltb x z) eqn:Hxz; [left; reflexivity|]. right.
  apply SFltb_rank; auto.
  assert (¬ rank_lt (f32_rank x) (f32_rank z)) as Hn.
  { intros Hr. apply SFltb_rank in Hr; auto. congruence. }
  unfold rank_lt in *.
  destruct (f32_rank x) as [[x1 x2] x3], (f32_rank y) as [[y1 y2] y3],
    (f32_rank z) as [[z1 z2] z3]. simpl in *. lia.
Qed.

Lemma nan_index_ok : gpu_ok nan_index.
Proof.
  unfold gpu_ok.
  repeat split; try (vm_compute; first [reflexivity | discriminate]).
  intros r Hr. change (current_count nan_index) with 3 in Hr.
  assert (r = 0 ∨ r = 1 ∨ r = 2) as [->|[->| ->]] by lia;
    vm_compute; reflexivity.
Qed.

Lemma rounding_index_ok : gpu_ok rounding_index.
Proof.
  unfold gpu_ok.
  repeat split; try (vm_compute; first [reflexivity | discriminate]).
  intros r Hr. change (current_count rounding_index) with 2 in Hr.
  assert (r = 0 ∨ r = 1) as [->| ->] by lia; vm_compute; reflexivity.
Qed.

(** C4, a counterexample to it.  The index holds the rows [0,0,0,0],
    [3e38,3e38,0,0] and [1,0,0,0], all finite; the query is [1,0,0,0] and
    [k = 3].  The norm of the second row is the infinity, the product gives
    the opposite infinity, and the kernel adds them: the scores are 1, NaN
    and 0.  [search] returns the rows 2, 0, 1, which are not in order (row 2
    stands before row 1 at a score that is not below), and no arrangement
    of these three results is in order. *)
Lemma search_unsorted_with_nan :
  gpu_ok nan_index
  ∧ Forall (λ q, Z.of_nat (length q) = dim nan_index) [nan_query]
  ∧ ∃ g', search nan_index [nan_query] 3 = Ret ([nan_results], g')
          ∧ ¬ StronglySorted result_lt nan_results
          ∧ ∀ l, l ≡ₚ nan_results → ¬ StronglySorted result_lt l.
Proof.
  split; [exact nan_index_ok|]. split; [repeat constructor|].
  assert (Forall (λ l, ¬ StronglySorted result_lt l)
            (permutations nan_results)) as Hall.
  { apply (bool_decide_unpack _). vm_compute. exact I. }
  assert (∀ l, l ≡ₚ nan_results → ¬ StronglySorted result_lt l) as Hperm.
  { intros l Hl. rewrite Forall_forall in Hall. apply Hall.
    apply permutations_Permutation. symmetry. exact Hl. }
  eexists. split; [vm_compute; reflexivity|].
  split; [apply Hperm; reflexivity | exact Hperm].
Qed.

Lemma search_results_ordered_witness :
  ∃ g', search rounding_index [rounding_query] 2
        = Ret ([rounding_results], g')
    ∧ comparable (query_scores g' 0)
    ∧ Z.of_nat (length rounding_results)
      = Z.min 2 (current_count rounding_index)
    ∧ NoDup (id <$> rounding_results)
    ∧ StronglySorted result_lt rounding_results.
Proof.
  assert (∃ g', search rounding_index [rounding_query] 2
                = Ret ([rounding_results], g')
            ∧ forallb (λ x, negb (f32_is_nan x)) (query_scores g' 0) = true)
    as (g' & Hs & Hnan) by (eexists; split; vm_compute; reflexivity).
  exists g'. split; [exact Hs|].
  pose proof (float32_comparable _ Hnan) as Hcmp. split; [exact Hcmp|].
  destruct (search_results_ordered rounding_index [rounding_query] 2
              rounding_index_ok)
    as (Hshape & _).
  - repeat constructor.
  - vm_compute. discriminate.
  - split; vm_compute; discriminate.
  - destruct (Hshape _ _ Hs) as [_ Hall].
    destruct (Hall 0%nat rounding_results eq_refl)
      as (Hn & Hnd & _ & Hsorted).
    split; [exact Hn|]. split; [exact Hnd|]. exact (Hsorted Hcmp).
Defined.

Lemma search_score_identity_witness :
  ∃ g', search example_index [example_query] 3 = Ret ([example_results], g')
  ∧ ∀ j q l r,
      [example_query] !! j = Some q → [example_results] !! j = Some l →
      r ∈ l →
      0 ≤ id r < current_count example_index
      ∧ score r = l2_identity (db_row example_index (id r)) q
      ∧ l2_identity (db_row example_index (id r)) q
        = sq_dist (db_row example_index (id r)) q.
Proof.
  destruct exact_search_scenario as [g' Hs]. exists g'.
  split; [exact Hs|].
  apply (search_score_identity example_index [example_query] 3
           [example_results] g').
  - exact example_index_ok.
  - repeat constructor.
  - vm_compute. discriminate.
  - exact Hs.
Defined.

(** C7, a counterexample to it.  The index of three rows is asked for 101
    queries, one more than [max_batch_size]: [search] throws nothing, it
    has gone on to the copies. *)
Lemma search_accepts_oversized_batch :
  max_batch_size example_index < Z.of_nat (length oversized_batch)
  ∧ ¬ ∃ e, search example_index oversized_batch 5 = Throw e.
Proof.
  split; [reflexivity|]. intros [e He]. vm_compute in He. discriminate.
Qed.

Lemma search_batch_unchecked_witness :
  search example_index oversized_batch 5 = Undefined
  ∧ ∀ e, search example_index oversized_batch 5 ≠ Throw e.
Proof.
  apply (search_batch_unchecked example_index oversized_batch 5).
  - exact example_index_ok.
  - split; vm_compute; [reflexivity | discriminate].
Defined.

(** ** The further properties on the examples *)

Lemma new_example_ok : gpu_ok (new 4 8 0).
Proof. apply (new_index_ok 4 8 0); unfold INT_MAX; lia. Qed.

Lemma example_index_junk_ok : gpu_ok example_index_junk.
Proof.
  unfold gpu_ok.
  repeat split; try (vm_compute; first [reflexivity | discriminate]).
  intros r Hr. change (current_count example_index_junk) with 3 in Hr.
  assert (r = 0 ∨ r = 1 ∨ r = 2) as [->|[->| ->]] by lia;
    vm_compute; reflexivity.
Qed.

Lemma example_queries_dim :
  Forall (λ q : list Z, Z.of_nat (length q) = dim example_index)
    [example_query].
Proof. repeat constructor. Qed.

Lemma search_returns_smallest_witness :
  ∃ g', search example_index [example_query] 2
        = Ret ([[mk_result 0 0; mk_result 2 1]], g')
    ∧ comparable (query_scores g' 0)
    ∧ query_scores g' 0 !! Z.to_nat 1 = Some 2
    ∧ (mk_result 1 2 ∈ [mk_result 0 0; mk_result 2 1]
       ∨ ∀ r, r ∈ [mk_result 0 0; mk_result 2 1] →
           result_lt r (mk_result 1 2)).
Proof.
  assert (∃ g', search example_index [example_query] 2
                = Ret ([[mk_result 0 0; mk_result 2 1]], g')
            ∧ query_scores g' 0 !! Z.to_nat 1 = Some 2)
    as (g' & Hs & Hsc) by (eexists; split; vm_compute; reflexivity).
  exists g'. split; [exact Hs|].
  pose proof (exact_comparable (query_scores g' 0)) as Hcmp.
  split; [exact Hcmp|]. split; [exact Hsc|].
  assert (Z.of_nat (length [example_query]) ≤ max_batch_size example_index)
    as Hbatch by (vm_compute; discriminate).
  assert (0 ≤ 1 < current_count example_index) as Hx
    by (change (current_count example_index) with 3; lia).
  exact (search_returns_smallest example_index [example_query] 2
           [[mk_result 0 0; mk_result 2 1]] g' example_index_ok
           example_queries_dim Hbatch Hs 0%nat [mk_result 0 0; mk_result 2 1]
           1 2 eq_refl Hcmp Hx Hsc).
Defined.

Lemma example_rows_agree r :
  0 ≤ r < current_count example_index →
  db_row example_index r = db_row example_index_junk r.
Proof.
  change (current_count example_index) with 3. intros Hr.
  assert (r = 0 ∨ r = 1 ∨ r = 2) as [->|[->| ->]] by lia;
    vm_compute; reflexivity.
Qed.

Lemma search_depends_on_rows_only_witness :
  ∃ res1 g1' res2 g2',
    search example_index [example_query] 3 = Ret (res1, g1')
    ∧ search example_index_junk [example_query] 3 = Ret (res2, g2')
    ∧ d_results example_index ≠ d_results example_index_junk
    ∧ res1 = res2.
Proof.
  destruct exact_search_scenario as [g1' Hs1].
  assert (∃ res2 g2',
            search example_index_junk [example_query] 3 = Ret (res2, g2'))
    as (res2 & g2' & Hs2) by (vm_compute; eauto).
  assert (Z.of_nat (length [example_query]) ≤ max_batch_size example_index)
    as Hb1 by (vm_compute; discriminate).
  assert (Z.of_nat (length [example_query])
          ≤ max_batch_size example_index_junk)
    as Hb2 by (vm_compute; discriminate).
  assert (dim example_index = dim example_index_junk) as Hdim
    by (vm_compute; reflexivity).
  assert (current_count example_index = current_count example_index_junk)
    as Hcc by (vm_compute; reflexivity).
  exists [example_results], g1', res2, g2'.
  split; [exact Hs1|]. split; [exact Hs2|].
  split; [vm_compute; discriminate|].
  exact (search_depends_on_rows_only example_index example_index_junk
           [example_query] 3 [example_results] res2 g1' g2'
           example_index_ok example_index_junk_ok Hdim Hcc
           example_rows_agree example_queries_dim Hb1 Hb2 Hs1 Hs2).
Defined.

Lemma search_keeps_index_witness :
  ∃ g', search example_index [example_query] 3 = Ret ([example_results], g')
        ∧ gpu_ok g' ∧ d_db g' = d_db example_index
        ∧ current_count g' = current_count example_index.
Proof.
  destruct exact_search_scenario as [g' Hs]. exists g'.
  split; [exact Hs|].
  pose proof (search_keeps_index example_index [example_query] 3
                [example_results] g' example_index_ok example_queries_dim)
    as Hkeep.
  destruct Hkeep as (Hok & Hdb & _ & Hc & _);
    [vm_compute; discriminate | exact Hs |].
  split; [exact Hok|]. split; [exact Hdb | exact Hc].
Defined.

Lemma search_negative_k_witness :
  ∃ res g', search example_index [example_query] (-1) = Ret (res, g')
            ∧ length res = length [example_query]
            ∧ Forall (λ l, Z.of_nat (length l)
                           = current_count example_index) res.
Proof.
  apply (search_negative_k example_index [example_query] (-1)
           example_index_ok example_queries_dim);
    try (vm_compute; discriminate).
  lia.
Defined.

Lemma add_single_vector_spec_witness :
  ∃ g', add_single_vector example_index example_query = Ret (true, g')
        ∧ gpu_ok g'
        ∧ current_count g' = current_count example_index + 1
        ∧ db_row g' (current_count example_index)
          = take (Z.to_nat (dim example_index)) example_query
        ∧ ∀ r, 0 ≤ r < current_count example_index →
            db_row g' r = db_row example_index r.
Proof.
  apply (add_single_vector_spec example_index example_query
           example_index_ok);
    vm_compute; first [reflexivity | discriminate].
Defined.

Lemma index_built_by_adds_witness :
  ∃ g, add_all (new 4 8 0) example_rows = Ret g
       ∧ gpu_ok g ∧ current_count g = Z.of_nat (length example_rows)
       ∧ ∀ i v, example_rows !! i = Some v →
           db_row g (Z.of_nat i) = take (Z.to_nat 4) v.
Proof.
  apply (index_built_by_adds 4 8 0 example_rows);
    try (unfold INT_MAX; lia); try (vm_compute; discriminate).
  repeat constructor; vm_compute; discriminate.
Defined.

Lemma load_data_uploads_witness :
  ∃ g', load_data (new 4 8 0) 3 (concat example_rows) = Ret g'
        ∧ gpu_ok g' ∧ current_count g' = 3
        ∧ (∀ r, 0 ≤ r < 3 →
             db_row g' r
             = take (Z.to_nat (dim (new 4 8 0)))
                 (drop (Z.to_nat (r * dim (new 4 8 0)))
                    (concat example_rows)))
        ∧ (∀ r, 0 ≤ r < 3 →
             d_db_norms g' !! Z.to_nat r
             = Some (sum_sq
                       (take (Z.to_nat (dim (new 4 8 0)))
                          (drop (Z.to_nat (r * dim (new 4 8 0)))
                             (concat example_rows))))).
Proof.
  apply (load_data_uploads (new 4 8 0) 3 (concat example_rows)
           new_example_ok);
    vm_compute; intuition discriminate.
Defined.

Lemma load_data_overrun_witness :
  max_vectors (new 4 8 0) < 9
  ∧ load_data (new 4 8 0) 9 (replicate 36 0) = Undefined.
Proof.
  split; [reflexivity|].
  apply (load_data_overrun (new 4 8 0) 9 (replicate 36 0) new_example_ok);
    reflexivity.
Defined.

Lemma search_one_spec_witness :
  ∃ l g', search_one rounding_index rounding_query 1 = Ret (l, g')
          ∧ search rounding_index [rounding_query] 1 = Ret ([l], g')
          ∧ Z.of_nat (length l) = Z.min 1 (current_count rounding_index)
          ∧ NoDup (id <$> l)
          ∧ (∀ r, r ∈ l →
               0 ≤ id r < current_count rounding_index
               ∧ query_scores g' 0 !! Z.to_nat (id r) = Some (score r))
          ∧ (comparable (query_scores g' 0) →
             StronglySorted result_lt l
             ∧ ∀ r x s, head l = Some r →
                 0 ≤ x < current_count rounding_index →
                 query_scores g' 0 !! Z.to_nat x = Some s →
                 fltb s (score r) = false).
Proof.
  apply (search_one_spec rounding_index rounding_query 1 rounding_index_ok);
    vm_compute; first [reflexivity | discriminate | intuition discriminate].
Defined.

End GpuIndexFacts.

(** * Facts about main.cpp *)

Module MainFacts.
Import Main.

Section Facts.
Context {F : Type} `{Scalar F}.
Variable float_of_bytes : list byte → F.

Local Abbreviation floats := (floats float_of_bytes).
Local Abbreviation consistent := (consistent float_of_bytes).

(** ** Buffers read as floats *)

Lemma floats_length bs : length (floats bs) = (length bs / 4)%nat.
Proof. unfold Main.floats. rewrite length_fmap, length_seq. reflexivity. Qed.

Lemma floats_lookup bs i :
  floats bs !! i
  = if decide (i < length bs / 4)%nat
    then Some (float_of_bytes (take 4 (drop (4 * i) bs))) else None.
Proof.
  unfold Main.floats. rewrite list_lookup_fmap.
  case_decide as Hi.
  - rewrite lookup_seq_lt by exact Hi. reflexivity.
  - rewrite lookup_seq_ge by lia. reflexivity.
Qed.

(** Row [a / d] of a buffer of rows of [d] floats. *)
Lemma floats_row bs a d :
  (4 * (a + d) ≤ length bs)%nat →
  take d (drop a (floats bs)) = floats (take (4 * d) (drop (4 * a) bs)).
Proof.
  intros Hfit. apply list_eq. intros i.
  assert (a + d ≤ length bs / 4)%nat by (apply Nat.div_le_lower_bound; lia).
  assert (length (take (4 * d) (drop (4 * a) bs)) / 4 = d)%nat as Hlen.
  { rewrite length_take, length_drop.
    replace (Nat.min (4 * d) (length bs - 4 * a)) with (d * 4)%nat by lia.
    apply Nat.div_mul. lia. }
  rewrite lookup_take, lookup_drop, !floats_lookup, Hlen.
  destruct (decide (i < d)%nat) as [Hi|Hi]; [|reflexivity].
  rewrite decide_True by lia. do 2 f_equal.
  rewrite row_of_take by lia. rewrite drop_drop. do 2 f_equal. lia.
Qed.

Lemma floats_whole v d :
  length v = (4 * d)%nat → length (floats v) = d.
Proof.
  intros Hv. rewrite floats_length, Hv, Nat.mul_comm. apply Nat.div_mul. lia.
Qed.

(** ** One vector stored *)

Lemma dim_bound d :
  1 ≤ d → MAX_CAPACITY * d + 256 ≤ INT_MAX → d ≤ 2147.
Proof. unfold MAX_CAPACITY, INT_MAX. lia. Qed.

(** The statements of [store_vector] on the two slabs. *)
Lemma store_slabs_ok db uid v :
  consistent db →
  Z.of_nat (length v) = 4 * GLOBAL_DIM db →
  0 ≤ uid < 2 ^ 64 → IdSlab.user_auto (id_db db) !! uid = None →
  let n := MatrixSlab.get_count (mat_db db) in
  ∃ mat id',
    MatrixSlab.add_vector (mat_db db) v = Ret mat
    ∧ IdSlab.insert (id_db db) uid (to_int64 n)
      = Ret (Some (IdSlab.auto_id (id_db db)), id')
    ∧ MatrixSlab.slab_ok mat ∧ MatrixSlab.get_dim mat = GLOBAL_DIM db
    ∧ MatrixSlab.header_in_range (MatrixSlab.header mat)
    ∧ MatrixSlab.get_capacity mat ≤ Z.max 1000 (2 * (n + 1))
    ∧ MatrixSlab.get_count mat = n + 1
    ∧ MatrixSlab.read_row mat n = v
    ∧ (∀ r, 0 ≤ r < n →
         MatrixSlab.read_row mat r = MatrixSlab.read_row (mat_db db) r)
    ∧ IdSlab.inv id' ∧ IdSlab.mapped_in_range id' ∧ IdSlab.logged id'
    ∧ IdSlab.auto_id id' ≤ n + 1
    ∧ IdSlab.get_row_from_user id' uid = n
    ∧ (∀ u, u ≠ uid →
         IdSlab.user_auto id' !! u = IdSlab.user_auto (id_db db) !! u
         ∧ IdSlab.get_row_from_user id' u
           = IdSlab.get_row_from_user (id_db db) u).
Proof.
  intros (Hd & Hdmax & Hslab & Hsdim & Hhdr & Hcap & Hgpu & Hgdim & Hgmax
          & Hgb & Hcc & Hrows & Hinv & Hrange & Hlog & Haid & Hlive)
    Hv Huid Hfresh n.
  pose proof (dim_bound _ Hd Hdmax) as Hd'.
  fold n in Hcap, Hcc, Hrows, Haid, Hlive.
  pose proof Hslab as (_ & Hsc & Hsn & _ & _). fold n in Hsn.
  pose proof Hgpu as (_ & Hroom & _). rewrite Hgmax, Hcc in Hroom.
  unfold MAX_CAPACITY in *.
  (* the slab *)
  destruct (MatrixSlabFacts.add_vector_returns (mat_db db) v Hslab)
    as [mat Hmat].
  { rewrite Hsdim. lia. }
  { right. rewrite Hsdim. unfold MatrixSlab.sizeof_SlabHeader, OFF_MAX.
    assert (GLOBAL_DIM db * MatrixSlab.get_capacity (mat_db db)
            ≤ 2147 * 2000000) by nia.
    lia. }
  destruct (MatrixSlabFacts.add_vector_rows (mat_db db) v mat Hslab)
    as (Hn' & Hrow & Hkeep); [rewrite Hsdim; exact Hv | exact Hmat |].
  fold n in Hn', Hrow, Hkeep.
  pose proof (MatrixSlabFacts.add_vector_header_in_range _ _ _ Hhdr Hmat)
    as Hhdr'.
  pose proof (MatrixSlabFacts.add_vector_header _ _ _ Hmat) as Hh.
  destruct (MatrixSlabFacts.add_vector_ok (mat_db db) v mat Hslab)
    as [Hslab' Hsdim']; [lia | exact Hmat |].
  assert (MatrixSlab.get_capacity mat ≤ Z.max 1000 (2 * (n + 1))) as Hcap'.
  { unfold n, MatrixSlab.get_capacity, MatrixSlab.get_count in *.
    rewrite Hh.
    destruct (_ <=? _) eqn:E; simpl.
    - apply Z.leb_le in E. rewrite wrap64_small by lia. lia.
    - lia. }
  (* the id log *)
  destruct Hinv as [Hid Hmax].
  assert (to_int64 n = n) as Hrow64.
  { unfold to_int64. rewrite Z.mod_small by lia.
    replace (n <? 2 ^ 63) with true by (symmetry; apply Z.ltb_lt; lia).
    reflexivity. }
  pose proof (IdSlabFacts.insert_fresh_returns (id_db db) uid n Hfresh)
    as Hins.
  rewrite Hid in Haid.
  specialize (Hins ltac:(unfold vector_max_size; lia)).
  set (id' := IdSlab.mk (<[uid := IdSlab.auto_id (id_db db)]>
                           (IdSlab.user_auto (id_db db)))
                (IdSlab.auto_row (id_db db) ++ [n])
                (IdSlab.write_log_entry IdSlab.OP_INSERT uid
                   (IdSlab.auto_id (id_db db)) n (IdSlab.logfile (id_db db)))
                (wrap64 (IdSlab.auto_id (id_db db) + 1))) in *.
  assert (IdSlab.inv id') as Hinv'
    by (eapply IdSlabFacts.insert_inv; [split; eassumption | exact Hins]).
  assert (IdSlab.mapped_in_range id') as Hrange'
    by (eapply IdSlabFacts.insert_range;
        [split; eassumption | exact Hrange | exact Hins]).
  assert (IdSlab.logged id') as Hlog'.
  { eapply (IdSlabFacts.insert_logged (id_db db) uid n);
      [split; eassumption | exact Hlog | lia | lia | exact Hins]. }
  assert (IdSlab.get_row_from_user id' uid = n) as Hlook.
  { unfold IdSlab.get_row_from_user, id'. simpl.
    rewrite lookup_insert_eq, Hid. apply IdSlabFacts.get_row_last. }
  assert (∀ u, u ≠ uid →
            IdSlab.user_auto id' !! u = IdSlab.user_auto (id_db db) !! u
            ∧ IdSlab.get_row_from_user id' u
              = IdSlab.get_row_from_user (id_db db) u) as Hother.
  { intros u Hne. unfold IdSlab.get_row_from_user, id'. simpl.
    rewrite lookup_insert_ne by congruence. split; [reflexivity|].
    destruct (IdSlab.user_auto (id_db db) !! u) as [a|] eqn:Hua;
      [|reflexivity].
    apply Hrange in Hua.
    apply IdSlabFacts.get_row_push with n; [reflexivity|lia|lia]. }
  exists mat, id'. rewrite Hrow64.
  split; [exact Hmat|]. split; [exact Hins|]. split; [exact Hslab'|].
  split; [congruence|]. split; [exact Hhdr'|]. split; [exact Hcap'|].
  split; [exact Hn'|]. split; [exact Hrow|]. split; [exact Hkeep|].
  split; [exact Hinv'|]. split; [exact Hrange'|]. split; [exact Hlog'|].
  split; [|split; [exact Hlook | exact Hother]].
  unfold id'. simpl. unfold vec_size in *.
  rewrite wrap64_small by lia. lia.
Qed.

Lemma store_vector_ok db uid v :
  consistent db →
  MatrixSlab.get_count (mat_db db) < MAX_CAPACITY →
  Z.of_nat (length v) = 4 * GLOBAL_DIM db →
  0 ≤ uid < 2 ^ 64 → IdSlab.user_auto (id_db db) !! uid = None →
  ∃ db', store_vector float_of_bytes db uid v = Ret db'
    ∧ consistent db'
    ∧ GLOBAL_DIM db' = GLOBAL_DIM db
    ∧ MatrixSlab.get_count (mat_db db') = MatrixSlab.get_count (mat_db db) + 1
    ∧ IdSlab.get_row_from_user (id_db db') uid
      = MatrixSlab.get_count (mat_db db)
    ∧ MatrixSlab.read_row (mat_db db') (MatrixSlab.get_count (mat_db db)) = v
    ∧ GpuIndex.db_row (gpu db') (MatrixSlab.get_count (mat_db db)) = floats v
    ∧ (∀ u, u ≠ uid →
         IdSlab.get_row_from_user (id_db db') u
         = IdSlab.get_row_from_user (id_db db) u)
    ∧ (∀ r, 0 ≤ r < MatrixSlab.get_count (mat_db db) →
         MatrixSlab.read_row (mat_db db') r
         = MatrixSlab.read_row (mat_db db) r).
Proof.
  intros Hcons Hroom Hv Huid Hfresh.
  destruct (store_slabs_ok db uid v Hcons Hv Huid Hfresh)
    as (mat & id' & Hmat & Hins & Hslab' & Hsdim' & Hhdr' & Hcap' & Hn'
        & Hrow & Hkeep & Hinv' & Hrange' & Hlog' & Haid' & Hlook & Hother).
  destruct Hcons
    as (Hd & Hdmax & Hslab & Hsdim & Hhdr & Hcap & Hgpu & Hgdim & Hgmax
        & Hgb & Hcc & Hrows & Hinv & Hrange & Hlog & Haid & Hlive).
  pose proof (dim_bound _ Hd Hdmax) as Hd'.
  pose proof Hslab as (_ & _ & Hsn & _).
  set (n := MatrixSlab.get_count (mat_db db)) in *.
  unfold MAX_CAPACITY in *.
  (* the index *)
  assert (length (floats v) = Z.to_nat (GLOBAL_DIM db)) as Lv
    by (apply floats_whole; lia).
  destruct (GpuIndexFacts.add_single_vector_returns (gpu db) (floats v) Hgpu)
    as (g & Hg & Hgd & Hgm & Hgbs); [lia | lia |].
  destruct (GpuIndexFacts.add_single_vector_ok (gpu db) (floats v) true g
              Hgpu Hg)
    as [(Hf & _)|(_ & Hgpu' & Hc' & Hgrow & _ & Hgkeep)]; [discriminate|].
  rewrite Hgdim, take_ge in Hgrow by lia. rewrite Hcc in Hgrow, Hgkeep, Hc'.
  (* together *)
  exists (mk_db id' mat g (GLOBAL_DIM db)).
  split.
  { unfold store_vector. fold n. rewrite Hmat, outcome_bind_ret.
    rewrite Hins, outcome_bind_ret, Hg. reflexivity. }
  split.
  { unfold Main.consistent, MAX_CAPACITY. simpl. rewrite Hn'.
    split; [exact Hd|]. split; [exact Hdmax|]. split; [exact Hslab'|].
    split; [congruence|]. split; [exact Hhdr'|]. split; [exact Hcap'|].
    split; [exact Hgpu'|]. split; [congruence|]. split; [congruence|].
    split; [congruence|]. split; [exact Hc'|]. split.
    { intros r Hr. destruct (decide (r = n)) as [->|Hne].
      - rewrite Hgrow, Hrow. reflexivity.
      - rewrite Hgkeep, Hkeep by lia. apply Hrows. lia. }
    split; [exact Hinv'|]. split; [exact Hrange'|]. split; [exact Hlog'|].
    split; [exact Haid'|].
    intros u Hu. destruct (decide (u = uid)) as [->|Hne].
    - rewrite Hlook. lia.
    - destruct (Hother u Hne) as [Hua Hl]. rewrite Hl.
      assert (is_Some (IdSlab.user_auto (id_db db) !! u)) as Hu'
        by (rewrite <- Hua; exact Hu).
      specialize (Hlive u Hu'). lia. }
  simpl. split; [reflexivity|]. split; [exact Hn'|]. split; [exact Hlook|].
  split; [exact Hrow|]. split; [exact Hgrow|].
  split; [intros u Hne; apply Hother, Hne | exact Hkeep].
Qed.

Lemma put_is_store db uid v :
  consistent db → Z.of_nat (length v) = 4 * GLOBAL_DIM db →
  IdSlab.get_row_from_user (id_db db) uid = -1 →
  put float_of_bytes db uid v = store_vector float_of_bytes db uid v
  ∧ IdSlab.user_auto (id_db db) !! uid = None.
Proof.
  intros Hcons Hv Hlook.
  pose proof Hcons as (Hd & Hdmax & _ & _ & _ & _ & _ & _ & _ & _ & _ & _
                       & _ & _ & _ & _ & Hlive).
  pose proof (dim_bound _ Hd Hdmax) as Hd'.
  split.
  - unfold put.
    replace (Z.of_nat (length v) / 4 =? wrap64 (GLOBAL_DIM db)) with true.
    2:{ symmetry. apply Z.eqb_eq. rewrite wrap64_small by lia.
        rewrite Hv, Z.mul_comm. apply Z.div_mul. lia. }
    rewrite Hlook. reflexivity.
  - destruct (IdSlab.user_auto (id_db db) !! uid) eqn:Hu; [|reflexivity].
    specialize (Hlive uid). rewrite Hu in Hlive.
    specialize (Hlive ltac:(eauto)). lia.
Qed.

(** X23.  The command [put] on a consistent database with room in the
    index.  For a vector of [GLOBAL_DIM] floats and a user id whose lookup
    gives -1, the three stores take the vector under the same row index:
    the lookup of the user gives the old count, that row of the slab is the
    vector, that row of the index is the vector read as floats; the rows
    and the users that were there are unchanged and the database is
    consistent again.  For a live user [put] changes nothing. *)
Theorem put_stores_vector db uid v :
  consistent db →
  MatrixSlab.get_count (mat_db db) < MAX_CAPACITY →
  Z.of_nat (length v) = 4 * GLOBAL_DIM db → 0 ≤ uid < 2 ^ 64 →
  (IdSlab.get_row_from_user (id_db db) uid = -1 →
   ∃ db', put float_of_bytes db uid v = Ret db'
     ∧ consistent db'
     ∧ MatrixSlab.get_count (mat_db db')
       = MatrixSlab.get_count (mat_db db) + 1
     ∧ IdSlab.get_row_from_user (id_db db') uid
       = MatrixSlab.get_count (mat_db db)
     ∧ MatrixSlab.read_row (mat_db db') (MatrixSlab.get_count (mat_db db))
       = v
     ∧ GpuIndex.db_row (gpu db') (MatrixSlab.get_count (mat_db db))
       = floats v
     ∧ (∀ u, u ≠ uid →
          IdSlab.get_row_from_user (id_db db') u
          = IdSlab.get_row_from_user (id_db db) u)
     ∧ (∀ r, 0 ≤ r < MatrixSlab.get_count (mat_db db) →
          MatrixSlab.read_row (mat_db db') r
          = MatrixSlab.read_row (mat_db db) r))
  ∧ (is_Some (IdSlab.user_auto (id_db db) !! uid) →
     put float_of_bytes db uid v = Ret db).
Proof.
  intros Hcons Hroom Hv Huid.
  split.
  - intros Hlook.
    destruct (put_is_store db uid v Hcons Hv Hlook) as [Hput Hfresh].
    destruct (store_vector_ok db uid v Hcons Hroom Hv Huid Hfresh)
      as (db' & Hst & Hc' & _ & Hrest).
    exists db'. rewrite Hput.
    split; [exact Hst|]. split; [exact Hc' | exact Hrest].
  - intros Hu.
    pose proof Hcons as (Hd & Hdmax & _ & _ & _ & _ & _ & _ & _ & _ & _ & _
                         & _ & _ & _ & _ & Hlive).
    pose proof (dim_bound _ Hd Hdmax) as Hd'.
    specialize (Hlive uid Hu). unfold put.
    replace (Z.of_nat (length v) / 4 =? wrap64 (GLOBAL_DIM db)) with true.
    2:{ symmetry. apply Z.eqb_eq. rewrite wrap64_small by lia.
        rewrite Hv, Z.mul_comm. apply Z.div_mul. lia. }
    replace (IdSlab.get_row_from_user (id_db db) uid =? -1) with false
      by (symmetry; apply Z.eqb_neq; lia).
    reflexivity.
Qed.

(** ** The start of [main] *)

Lemma new_index_fields dimension capacity (junk : F) :
  GpuIndex.dim (GpuIndex.new dimension capacity junk) = dimension
  ∧ GpuIndex.max_vectors (GpuIndex.new dimension capacity junk) = capacity
  ∧ GpuIndex.max_batch_size (GpuIndex.new dimension capacity junk) = 100
  ∧ GpuIndex.current_count (GpuIndex.new dimension capacity junk) = 0.
Proof. repeat split. Qed.

Lemma main_index_ok d (junk : F) :
  1 ≤ d → MAX_CAPACITY * d + 256 ≤ INT_MAX →
  GpuIndex.gpu_ok (GpuIndex.new d MAX_CAPACITY junk).
Proof.
  intros Hd Hdmax. pose proof (dim_bound _ Hd Hdmax).
  apply GpuIndexFacts.new_index_ok; unfold MAX_CAPACITY, INT_MAX in *; lia.
Qed.

Lemma load_data_fields (g : GpuIndex.t) n (data : list F) g' :
  GpuIndex.load_data g n data = Ret g' →
  GpuIndex.dim g' = GpuIndex.dim g
  ∧ GpuIndex.max_vectors g' = GpuIndex.max_vectors g
  ∧ GpuIndex.max_batch_size g' = GpuIndex.max_batch_size g.
Proof.
  unfold GpuIndex.load_data. intros Hl.
  apply bind_ret_inv in Hl as (db & _ & Hl).
  apply bind_ret_inv in Hl as (norms & _ & [= <-]). repeat split.
Qed.

(** The start on the two files of a database: the objects are those that
    wrote the files, and what is left is the upload. *)
Lemma startup_reopens id mat garbage (junk : F) :
  1 ≤ MatrixSlab.get_dim mat ≤ INT_MAX →
  MatrixSlab.header_in_range (MatrixSlab.header mat) →
  IdSlab.inv id → IdSlab.logged id →
  startup float_of_bytes (Some (MatrixSlab.file_of mat))
    (Some (IdSlab.logfile id)) garbage junk
  = (g' ← (if 0 <? MatrixSlab.get_count mat
           then GpuIndex.load_data
                  (GpuIndex.new (MatrixSlab.get_dim mat) MAX_CAPACITY junk)
                  (MatrixSlab.get_count mat)
                  (floats (MatrixSlab.get_data_ptr mat))
           else Ret (GpuIndex.new (MatrixSlab.get_dim mat) MAX_CAPACITY
                       junk));
     Ret (mk_db id mat g' (MatrixSlab.get_dim mat))).
Proof.
  intros Hd Hhdr Hinv Hlog. unfold startup, INT_MAX in *.
  rewrite !MatrixSlabFacts.open_file_of by exact Hhdr.
  rewrite outcome_bind_ret, to_int32_small by (unfold INT_MAX; lia).
  rewrite outcome_bind_ret, IdSlabFacts.logged_reopen by assumption.
  rewrite outcome_bind_ret, wrap64_small by lia.
  rewrite MatrixSlabFacts.open_file_of by exact Hhdr.
  rewrite outcome_bind_ret. reflexivity.
Qed.

(** The database that [main] creates on no file. *)
Lemma new_database_consistent (junk : F) :
  consistent
    (mk_db IdSlab.slab_empty
       (MatrixSlab.mk
          (MatrixSlab.mk_header MatrixSlab.MAGIC 0 0 128
             MatrixSlab.INITIAL_CAPACITY (replicate 96 x00))
          (replicate (Z.to_nat (4 * 128 * MatrixSlab.INITIAL_CAPACITY)) x00))
       (GpuIndex.new 128 MAX_CAPACITY junk) 128).
Proof.
  assert (MatrixSlab.sizeof_SlabHeader
          + 4 * 128 * MatrixSlab.INITIAL_CAPACITY ≤ OFF_MAX) as Hfit
    by (vm_compute; discriminate).
  pose proof (MatrixSlabFacts.new_slab_state 128 ltac:(lia) Hfit) as Hnew.
  destruct (MatrixSlabFacts.new_slab_ok 128 _ ltac:(lia) Hfit Hnew)
    as (Hok & Hdim & Hcap).
  pose proof (MatrixSlabFacts.new_header_in_range 128 _ ltac:(lia) Hnew)
    as Hhdr.
  set (mat := MatrixSlab.mk _ _) in *.
  assert (MatrixSlab.get_count mat = 0) as Hcount by reflexivity.
  unfold Main.consistent.
  cbn [GLOBAL_DIM mat_db id_db gpu]. rewrite Hcount.
  split; [lia|]. split; [vm_compute; discriminate|].
  split; [exact Hok|]. split; [exact Hdim|]. split; [exact Hhdr|].
  split; [rewrite Hcap; vm_compute; discriminate|].
  split; [apply main_index_ok; [lia | vm_compute; discriminate]|].
  split; [reflexivity|]. split; [reflexivity|]. split; [reflexivity|].
  split; [reflexivity|]. split; [intros r Hr; lia|].
  split; [apply IdSlabFacts.reachable_inv, IdSlabFacts.reachable_slab_empty|].
  split;
    [apply IdSlabFacts.reachable_range, IdSlabFacts.reachable_slab_empty|].
  split; [apply IdSlabFacts.logged_empty|].
  split; [reflexivity|].
  intros u [a Hu]. simpl in Hu. rewrite lookup_empty in Hu. discriminate.
Qed.

(** X24.  The start on no file.  [main] creates a database of dimension
    128: an empty id slab, a vector slab of count 0 and capacity 1000, an
    empty index of capacity [MAX_CAPACITY], and nothing is uploaded.  The
    database is consistent. *)
Theorem startup_new_database garbage (junk : F) :
  ∃ db, startup float_of_bytes None None garbage junk = Ret db
    ∧ consistent db ∧ GLOBAL_DIM db = 128
    ∧ id_db db = IdSlab.slab_empty
    ∧ MatrixSlab.get_count (mat_db db) = 0
    ∧ MatrixSlab.get_capacity (mat_db db) = MatrixSlab.INITIAL_CAPACITY
    ∧ GpuIndex.current_count (gpu db) = 0.
Proof.
  assert (MatrixSlab.sizeof_SlabHeader
          + 4 * 128 * MatrixSlab.INITIAL_CAPACITY ≤ OFF_MAX) as Hfit
    by (vm_compute; discriminate).
  pose proof (MatrixSlabFacts.new_slab_state 128 ltac:(lia) Hfit) as Hnew.
  pose proof (new_database_consistent junk) as Hcons.
  set (mat := MatrixSlab.mk _ _) in *.
  exists (mk_db IdSlab.slab_empty mat (GpuIndex.new 128 MAX_CAPACITY junk)
            128).
  split; [|split; [exact Hcons | repeat split]].
  unfold startup. rewrite outcome_bind_ret.
  change (IdSlab.new None garbage) with (Ret IdSlab.slab_empty).
  rewrite outcome_bind_ret.
  change (wrap64 128) with 128. rewrite Hnew, outcome_bind_ret.
  reflexivity.
Qed.

(** The rows of an index loaded from a slab. *)
Lemma uploaded_rows mat (g' : GpuIndex.t) d :
  MatrixSlab.slab_ok mat → MatrixSlab.get_dim mat = d → 1 ≤ d →
  (∀ r, 0 ≤ r < MatrixSlab.get_count mat →
     GpuIndex.db_row g' r
     = take (Z.to_nat d)
         (drop (Z.to_nat (r * d)) (floats (MatrixSlab.get_data_ptr mat)))) →
  ∀ r, 0 ≤ r < MatrixSlab.get_count mat →
    GpuIndex.db_row g' r = floats (MatrixSlab.read_row mat r).
Proof.
  intros (_ & Hc & Hn & Hlen & _) Hdim Hd Hrows r Hr.
  rewrite Hrows by exact Hr. unfold MatrixSlab.read_row.
  rewrite Hdim in *. unfold MatrixSlab.get_data_ptr, MatrixSlab.sizeof_float.
  assert (0 ≤ r * d ∧ (r + 1) * d ≤ d * MatrixSlab.get_capacity mat)
    as [? ?] by nia.
  rewrite floats_row by nia.
  do 2 f_equal; [|f_equal]; lia.
Qed.

(** The start of [main] on the files of two slabs that fit together. *)
Lemma startup_loads id mat garbage (junk : F) :
  1 ≤ MatrixSlab.get_dim mat →
  MAX_CAPACITY * MatrixSlab.get_dim mat + 256 ≤ INT_MAX →
  MatrixSlab.slab_ok mat →
  MatrixSlab.header_in_range (MatrixSlab.header mat) →
  MatrixSlab.get_capacity mat ≤ Z.max 1000 (2 * MatrixSlab.get_count mat) →
  MatrixSlab.get_count mat ≤ MAX_CAPACITY →
  IdSlab.inv id → IdSlab.mapped_in_range id → IdSlab.logged id →
  IdSlab.auto_id id ≤ MatrixSlab.get_count mat →
  (∀ u, is_Some (IdSlab.user_auto id !! u) →
     0 ≤ IdSlab.get_row_from_user id u < MatrixSlab.get_count mat) →
  ∃ g', startup float_of_bytes (Some (MatrixSlab.file_of mat))
          (Some (IdSlab.logfile id)) garbage junk
        = Ret (mk_db id mat g' (MatrixSlab.get_dim mat))
    ∧ consistent (mk_db id mat g' (MatrixSlab.get_dim mat)).
Proof.
  intros Hd Hdmax Hslab Hhdr Hcap Hccmax Hinv Hrange Hlog Haid Hlive.
  pose proof (dim_bound _ Hd Hdmax) as Hd'.
  pose proof Hslab as (_ & Hsc & Hsn & Hlen & _).
  set (d := MatrixSlab.get_dim mat) in *.
  pose proof (main_index_ok d junk Hd Hdmax) as Hg0.
  set (g0 := GpuIndex.new d MAX_CAPACITY junk) in *.
  destruct (new_index_fields d MAX_CAPACITY junk)
    as (Hg0d & Hg0m & Hg0b & Hg0c). fold g0 in Hg0d, Hg0m, Hg0b, Hg0c.
  set (n := MatrixSlab.get_count mat) in *.
  assert (∃ g', (if 0 <? n
                 then GpuIndex.load_data g0 n
                        (floats (MatrixSlab.get_data_ptr mat))
                 else Ret g0) = Ret g'
            ∧ GpuIndex.gpu_ok g' ∧ GpuIndex.dim g' = d
            ∧ GpuIndex.max_vectors g' = MAX_CAPACITY
            ∧ GpuIndex.max_batch_size g' = 100
            ∧ GpuIndex.current_count g' = n
            ∧ ∀ r, 0 ≤ r < n →
                GpuIndex.db_row g' r = floats (MatrixSlab.read_row mat r))
    as (g' & Hload & Hok' & Hd1 & Hm1 & Hb1 & Hc1 & Hrows').
  { destruct (0 <? n) eqn:En.
    - apply Z.ltb_lt in En.
      destruct (GpuIndexFacts.load_data_ok g0 n
                  (floats (MatrixSlab.get_data_ptr mat)) Hg0)
        as (g' & Hl & Hok' & Hc' & Hr').
      { rewrite Hg0m. lia. }
      { rewrite Hg0d. unfold MAX_CAPACITY, INT_MAX in *. nia. }
      { rewrite Hg0d, floats_length. unfold MatrixSlab.get_data_ptr.
        assert (length (MatrixSlab.data_region mat)
                = (Z.to_nat (d * MatrixSlab.get_capacity mat) * 4)%nat)
          as -> by nia.
        rewrite Nat.div_mul by lia. nia. }
      destruct (load_data_fields _ _ _ _ Hl) as (Hd1 & Hm1 & Hb1).
      exists g'. split; [exact Hl|]. split; [exact Hok'|].
      split; [congruence|]. split; [congruence|]. split; [congruence|].
      split; [exact Hc'|].
      apply (uploaded_rows mat g' d); assumption || reflexivity.
    - apply Z.ltb_ge in En. exists g0. split; [reflexivity|].
      split; [exact Hg0|]. repeat split; try assumption; try lia. }
  exists g'. split.
  { rewrite startup_reopens; try assumption; [|unfold INT_MAX; lia].
    fold d g0 n. rewrite Hload. reflexivity. }
  unfold Main.consistent. cbn [GLOBAL_DIM mat_db id_db gpu]. fold n d.
  split; [exact Hd|]. split; [exact Hdmax|]. split; [exact Hslab|].
  split; [reflexivity|].
  repeat (split; [assumption|]). assumption.
Qed.

(** X25.  The restart.  [main] started on the two files of a consistent
    database finds the objects that wrote them, the id slab and the vector
    slab, with the same dimension, and uploads the rows of the slab: the
    database it holds is consistent, with the same rows in the index. *)
Theorem startup_restores_database db garbage (junk : F) :
  consistent db →
  ∃ db', startup float_of_bytes (Some (MatrixSlab.file_of (mat_db db)))
           (Some (IdSlab.logfile (id_db db))) garbage junk = Ret db'
    ∧ consistent db'
    ∧ id_db db' = id_db db ∧ mat_db db' = mat_db db
    ∧ GLOBAL_DIM db' = GLOBAL_DIM db
    ∧ GpuIndex.current_count (gpu db') = GpuIndex.current_count (gpu db)
    ∧ ∀ r, 0 ≤ r < GpuIndex.current_count (gpu db) →
        GpuIndex.db_row (gpu db') r = GpuIndex.db_row (gpu db) r.
Proof.
  intros Hcons.
  pose proof Hcons
    as (Hd & Hdmax & Hslab & Hsdim & Hhdr & Hcap & Hgpu & Hgdim & Hgmax
        & Hgb & Hcc & Hrows & Hinv & Hrange & Hlog & Haid & Hlive).
  pose proof Hgpu as (_ & Hccmax & _). rewrite Hgmax, Hcc in Hccmax.
  rewrite <- Hsdim in Hd, Hdmax.
  destruct (startup_loads (id_db db) (mat_db db) garbage junk Hd Hdmax Hslab
              Hhdr Hcap ltac:(lia) Hinv Hrange Hlog Haid Hlive)
    as (g' & Hst & Hcons').
  rewrite Hsdim in Hst, Hcons'.
  exists (mk_db (id_db db) (mat_db db) g' (GLOBAL_DIM db)).
  split; [exact Hst|]. split; [exact Hcons'|].
  destruct Hcons'
    as (_ & _ & _ & _ & _ & _ & _ & _ & _ & _ & Hcc' & Hrows' & _).
  cbn [GLOBAL_DIM mat_db id_db gpu] in *.
  split; [reflexivity|]. split; [reflexivity|]. split; [reflexivity|].
  split; [congruence|].
  intros r Hr. rewrite Hcc in Hr. rewrite Hrows', Hrows by exact Hr.
  reflexivity.
Qed.

(** X26.  The vector after the last one the index has room for.  On a
    consistent database of [MAX_CAPACITY] vectors, [put] of a new user
    still appends the vector to the slab and logs the user, while
    [add_single_vector] refuses it and leaves the index as it is: the slab
    then holds one row more than the index.  The next start of [main] on
    the two files hands [load_data] a slab of more rows than the index was
    allocated for, and has no defined outcome. *)
Theorem put_past_capacity db uid v garbage (junk : F) :
  consistent db →
  MatrixSlab.get_count (mat_db db) = MAX_CAPACITY →
  Z.of_nat (length v) = 4 * GLOBAL_DIM db → 0 ≤ uid < 2 ^ 64 →
  IdSlab.get_row_from_user (id_db db) uid = -1 →
  ∃ db', put float_of_bytes db uid v = Ret db'
    ∧ gpu db' = gpu db
    ∧ MatrixSlab.get_count (mat_db db') = MAX_CAPACITY + 1
    ∧ MatrixSlab.read_row (mat_db db') MAX_CAPACITY = v
    ∧ IdSlab.get_row_from_user (id_db db') uid = MAX_CAPACITY
    ∧ startup float_of_bytes (Some (MatrixSlab.file_of (mat_db db')))
        (Some (IdSlab.logfile (id_db db'))) garbage junk = Undefined.
Proof.
  intros Hcons Hfull Hv Huid Hlook.
  pose proof Hcons as (Hd & Hdmax & _ & _ & _ & _ & Hgpu & _ & Hgmax & _
                       & Hcc & _ & _ & _ & _ & _ & Hlive).
  pose proof (dim_bound _ Hd Hdmax) as Hd'.
  assert (IdSlab.user_auto (id_db db) !! uid = None) as Hfresh.
  { destruct (IdSlab.user_auto (id_db db) !! uid) eqn:Hu; [|reflexivity].
    specialize (Hlive uid). rewrite Hu in Hlive.
    specialize (Hlive ltac:(eauto)). lia. }
  destruct (store_slabs_ok db uid v Hcons Hv Huid Hfresh)
    as (mat & id' & Hmat & Hins & Hslab' & Hsdim' & Hhdr' & Hcap' & Hn'
        & Hrow & Hkeep & Hinv' & Hrange' & Hlog' & Haid' & Hlook' & Hother).
  rewrite Hfull in *.
  exists (mk_db id' mat (gpu db) (GLOBAL_DIM db)).
  cbn [mat_db id_db gpu].
  split.
  { unfold put.
    replace (Z.of_nat (length v) / 4 =? wrap64 (GLOBAL_DIM db)) with true.
    2:{ symmetry. apply Z.eqb_eq. rewrite wrap64_small by lia.
        rewrite Hv, Z.mul_comm. apply Z.div_mul. lia. }
    rewrite Hlook. cbn [negb Z.eqb Pos.eqb].
    unfold store_vector.
    rewrite Hmat, outcome_bind_ret, Hfull, Hins, outcome_bind_ret.
    unfold GpuIndex.add_single_vector.
    replace (GpuIndex.max_vectors (gpu db)
             <=? GpuIndex.current_count (gpu db)) with true
      by (symmetry; apply Z.leb_le; lia).
    reflexivity. }
  split; [reflexivity|]. split; [exact Hn'|]. split; [exact Hrow|].
  split; [exact Hlook'|].
  rewrite startup_reopens;
    [|rewrite Hsdim'; unfold INT_MAX; lia | assumption..].
  rewrite Hn'.
  replace (0 <? MAX_CAPACITY + 1) with true by reflexivity.
  rewrite GpuIndexFacts.load_data_past_capacity; [reflexivity| | |].
  - apply main_index_ok; rewrite Hsdim'; assumption.
  - cbn [GpuIndex.max_vectors GpuIndex.new]. lia.
  - cbn [GpuIndex.dim GpuIndex.new]. rewrite Hsdim'.
    unfold MAX_CAPACITY. lia.
Qed.

(** ** The commands that search *)

(** The memory that [find] copies for the row of a user. *)
Lemma read_row_length mat r :
  MatrixSlab.slab_ok mat → 0 ≤ r < MatrixSlab.get_capacity mat →
  Z.of_nat (length (MatrixSlab.read_row mat r)) = 4 * MatrixSlab.get_dim mat.
Proof.
  intros (Hd & Hc & Hn & Hlen & _) Hr.
  unfold MatrixSlab.read_row, MatrixSlab.get_data_ptr,
    MatrixSlab.sizeof_float.
  rewrite length_take, length_drop.
  assert (0 ≤ r * MatrixSlab.get_dim mat
          ∧ (r + 1) * MatrixSlab.get_dim mat
            ≤ MatrixSlab.get_dim mat * MatrixSlab.get_capacity mat)
    as [? ?] by nia.
  lia.
Qed.

(** What is left of results of distinct rows when one row is filtered
    out. *)
Lemma filter_except {A} (f : A → Z) (a : Z) (l : list A) :
  NoDup (f <$> l) →
  NoDup (f <$> filter (λ x, f x ≠ a) l)
  ∧ (length l ≤ S (length (filter (λ x, f x ≠ a) l)))%nat.
Proof.
  induction l as [|x l IH]; intros Hnd; [split; [constructor | simpl; lia]|].
  rewrite fmap_cons in Hnd. apply NoDup_cons in Hnd as [Hx Hnd].
  destruct (IH Hnd) as [IH1 IH2]. rewrite filter_cons.
  destruct (decide (f x ≠ a)) as [Hne|Heq].
  - split; [|simpl; lia].
    rewrite fmap_cons. apply NoDup_cons. split; [|exact IH1].
    intros Hin. apply Hx.
    apply list_elem_of_fmap in Hin as (y & -> & Hy).
    apply list_elem_of_filter in Hy as [_ Hy].
    apply list_elem_of_fmap. eauto.
  - split; [exact IH1|].
    assert (f x = a) as Ha by (destruct (decide (f x = a)); [auto | tauto]).
    assert (filter (λ y, f y ≠ a) l = l) as ->; [|simpl; lia].
    clear -Hx Ha. induction l as [|y l IH]; [reflexivity|].
    rewrite filter_cons. destruct (decide (f y ≠ a)) as [_|Hy].
    + f_equal. apply IH. intros Hin. apply Hx. rewrite fmap_cons. right.
      exact Hin.
    + exfalso. apply Hx. rewrite fmap_cons.
      assert (f y = a) as -> by (destruct (decide (f y = a)); [auto | tauto]).
      rewrite Ha. left.
Qed.

Lemma StronglySorted_filter {A} (R : relation A) (P : A → Prop)
    `{∀ x, Decision (P x)} (l : list A) :
  StronglySorted R l → StronglySorted R (filter P l).
Proof.
  induction 1 as [|x l Hs IH Hall]; [constructor|].
  rewrite filter_cons. destruct (decide (P x)); [|exact IH].
  constructor; [exact IH|].
  apply Forall_forall. intros y Hy. apply list_elem_of_filter in Hy as [_ Hy].
  rewrite Forall_forall in Hall. apply Hall, Hy.
Qed.

(** X27.  The command [find] for a live user of a consistent database.
    The row index of the user is in range and the copy of its row stays
    inside the mapped data; the query is that row of the slab, read as
    floats, and [search_one] returns for it.  What is printed is the list
    of [search_one] without the row of the user: of the [min 5 count]
    results at most one is left out, the rows printed are distinct rows of
    the database, each with its score in the buffer of the scores, and in
    ascending order when the scores are comparable.  The database is
    consistent after the command, with the same rows in the index. *)
Theorem find_prints_neighbours db uid :
  consistent db →
  IdSlab.get_row_from_user (id_db db) uid ≠ -1 →
  let row := IdSlab.get_row_from_user (id_db db) uid in
  let n := MatrixSlab.get_count (mat_db db) in
  ∃ l0 l g',
    find float_of_bytes db uid
    = Ret (l, mk_db (id_db db) (mat_db db) g' (GLOBAL_DIM db))
    ∧ GpuIndex.search_one (gpu db)
        (floats (MatrixSlab.read_row (mat_db db) row)) 5 = Ret (l0, g')
    ∧ l = filter (λ x, GpuIndex.id x ≠ row) l0
    ∧ consistent (mk_db (id_db db) (mat_db db) g' (GLOBAL_DIM db))
    ∧ GpuIndex.d_db g' = GpuIndex.d_db (gpu db)
    ∧ 0 ≤ row < n
    ∧ Z.min 5 n - 1 ≤ Z.of_nat (length l) ≤ Z.min 5 n
    ∧ NoDup (GpuIndex.id <$> l)
    ∧ (∀ x, x ∈ l →
         GpuIndex.id x ≠ row ∧ 0 ≤ GpuIndex.id x < n
         ∧ GpuIndex.query_scores g' 0 !! Z.to_nat (GpuIndex.id x)
           = Some (GpuIndex.score x))
    ∧ (GpuIndex.comparable (GpuIndex.query_scores g' 0) →
       StronglySorted GpuIndex.result_lt l).
Proof.
  intros Hcons Hlook row n.
  pose proof Hcons
    as (Hd & Hdmax & Hslab & Hsdim & Hhdr & Hcap & Hgpu & Hgdim & Hgmax
        & Hgb & Hcc & Hrows & Hinv & Hrange & Hlog & Haid & Hlive).
  pose proof (dim_bound _ Hd Hdmax) as Hd'.
  pose proof Hgpu as (_ & Hroom & _). rewrite Hgmax, Hcc in Hroom.
  pose proof Hslab as (_ & Hsc & Hsn & Hlen & _). rewrite Hsdim in Hlen.
  fold n in Hcc, Hrows, Haid, Hlive, Hroom, Hsn.
  set (d := GLOBAL_DIM db) in *.
  unfold MAX_CAPACITY in *.
  assert (0 ≤ row < n) as Hrow.
  { apply Hlive. unfold row, IdSlab.get_row_from_user in *.
    destruct (IdSlab.user_auto (id_db db) !! uid); [eauto|congruence]. }
  set (q := MatrixSlab.read_row (mat_db db) row).
  assert (Z.of_nat (length (floats q)) = d) as Hq.
  { rewrite (floats_whole q (Z.to_nat d)); [lia|].
    pose proof (read_row_length (mat_db db) row Hslab ltac:(lia)) as Hl.
    fold q in Hl. rewrite Hsdim in Hl. fold d in Hl. lia. }
  destruct (GpuIndexFacts.search_one_props (gpu db) (floats q) 5 Hgpu)
    as (l & g' & Hone & Hs & Hl & Hnd & Hin & Hordered);
    [lia | lia | unfold INT_MAX; lia | unfold INT_MAX; lia |].
  assert (Forall (λ q0 : list F, Z.of_nat (length q0) = GpuIndex.dim (gpu db))
            [floats q]) as Hqs
    by (constructor; [lia | constructor]).
  destruct (GpuIndexFacts.search_state_ok (gpu db) [floats q] 5 [l] g' Hgpu
              Hqs ltac:(simpl; lia) Hs)
    as (Hgpu' & Hdb' & Hnorms' & Hcc' & Hdim' & Hmax' & Hmb').
  assert (∀ r, GpuIndex.db_row g' r = GpuIndex.db_row (gpu db) r) as Hsame
    by (intros r; unfold GpuIndex.db_row; rewrite Hdb', Hdim'; reflexivity).
  assert (wrap64 row = row) as Hwrap by (apply wrap64_small; lia).
  destruct (filter_except GpuIndex.id row l Hnd) as [Hnd' Hshort].
  exists l, (filter (λ x, GpuIndex.id x ≠ row) l), g'.
  split.
  { unfold find. fold row d.
    replace (row =? -1) with false by (symmetry; apply Z.eqb_neq; lia).
    replace (d <? 0) with false by (symmetry; apply Z.ltb_ge; lia).
    assert (0 ≤ row * d ≤ 1000000 * 2147) by nia.
    unfold int64_checked, OFF_MAX.
    replace ((row * d <? - 2 ^ 63) || (2 ^ 63 - 1 <? row * d)) with false
      by (symmetry; apply orb_false_iff; split; apply Z.ltb_ge; lia).
    rewrite outcome_bind_ret.
    rewrite (wrap64_small d) by lia. rewrite (wrap64_small (d * 4)) by lia.
    unfold MatrixSlab.get_data_ptr.
    replace ((row * d <? 0)
             || (Z.of_nat (length (MatrixSlab.data_region (mat_db db)))
                 <? row * d * 4 + d * 4)) with false
      by (symmetry; apply orb_false_iff; split; apply Z.ltb_ge; nia).
    replace (take (Z.to_nat (d * 4))
               (drop (Z.to_nat (row * d * 4))
                  (MatrixSlab.data_region (mat_db db)))) with q.
    2:{ unfold q, MatrixSlab.read_row, MatrixSlab.get_data_ptr,
          MatrixSlab.sizeof_float. rewrite Hsdim. reflexivity. }
    rewrite Hone, outcome_bind_ret, Hwrap. reflexivity. }
  split; [exact Hone|]. split; [reflexivity|].
  split.
  { unfold Main.consistent, MAX_CAPACITY. cbn [GLOBAL_DIM mat_db id_db gpu].
    fold n d.
    split; [exact Hd|]. split; [exact Hdmax|]. split; [exact Hslab|].
    split; [exact Hsdim|]. split; [exact Hhdr|]. split; [exact Hcap|].
    split; [exact Hgpu'|]. split; [congruence|]. split; [congruence|].
    split; [congruence|]. split; [congruence|].
    split; [intros r Hr; rewrite Hsame; apply Hrows, Hr|].
    repeat (split; [assumption|]). assumption. }
  split; [exact Hdb'|]. split; [exact Hrow|].
  rewrite Hcc in Hl, Hin.
  split.
  { pose proof (length_filter (λ x, GpuIndex.id x ≠ row) l). lia. }
  split; [exact Hnd'|].
  split.
  { intros x Hx. apply list_elem_of_filter in Hx as [Hne Hx].
    destruct (Hin x Hx) as [Hid Hscore].
    split; [exact Hne|]. split; [exact Hid | exact Hscore]. }
  intros Hcmp. apply StronglySorted_filter, Hordered, Hcmp.
Qed.

(** The loop of [batch] ends before its fuel does: the result is the same
    for every fuel of at least [n - i]. *)
Lemma batch_loop_fuel fuel1 fuel2 (g : GpuIndex.t) qs n i :
  n - i ≤ Z.of_nat fuel1 → n - i ≤ Z.of_nat fuel2 →
  batch_loop fuel1 g qs n i = batch_loop fuel2 g qs n i.
Proof.
  revert fuel2 g i.
  induction fuel1 as [|fuel1 IH]; intros fuel2 g i H1 H2.
  - destruct fuel2; simpl;
      replace (i <? n) with false by (symmetry; apply Z.ltb_ge; lia);
      reflexivity.
  - destruct fuel2 as [|fuel2]; simpl.
    + replace (i <? n) with false by (symmetry; apply Z.ltb_ge; lia).
      reflexivity.
    + destruct (i <? n) eqn:E; [|reflexivity].
      destruct (GpuIndex.search g _ 5) as [r| |]; [|reflexivity..].
      rewrite !outcome_bind_ret. unfold GpuIndex.int_checked.
      destruct (_ || _) eqn:Ei; [reflexivity|].
      rewrite !outcome_bind_ret. apply IH; unfold GPU_BATCH_LIMIT; lia.
Qed.

Lemma batch_loop_ok qs n fuel :
  n = Z.of_nat (length qs) → n + GPU_BATCH_LIMIT ≤ INT_MAX →
  ∀ (g : GpuIndex.t) i,
    GpuIndex.gpu_ok g → GpuIndex.max_batch_size g = 100 →
    GpuIndex.current_count g ≤ MAX_CAPACITY →
    Forall (λ q, Z.of_nat (length q) = GpuIndex.dim g) qs →
    0 ≤ i → n - i ≤ Z.of_nat fuel →
    ∃ g', batch_loop fuel g qs n i = Ret g'
      ∧ GpuIndex.gpu_ok g' ∧ GpuIndex.d_db g' = GpuIndex.d_db g
      ∧ GpuIndex.current_count g' = GpuIndex.current_count g
      ∧ GpuIndex.dim g' = GpuIndex.dim g
      ∧ GpuIndex.max_vectors g' = GpuIndex.max_vectors g
      ∧ GpuIndex.max_batch_size g' = GpuIndex.max_batch_size g.
Proof.
  intros Hn Hmax. unfold GPU_BATCH_LIMIT, MAX_CAPACITY, INT_MAX in *.
  induction fuel as [|fuel IH]; intros g i Hok Hmb Hcc Hqs Hi Hfuel.
  - exists g. simpl.
    replace (i <? n) with false by (symmetry; apply Z.ltb_ge; lia).
    split; [reflexivity|]. split; [exact Hok | repeat split].
  - simpl. destruct (i <? n) eqn:E;
      [|exists g; split; [reflexivity|]; split; [exact Hok|repeat split]].
    apply Z.ltb_lt in E. unfold GPU_BATCH_LIMIT.
    set (chunk := take (Z.to_nat (Z.min 100 (n - i)))
                    (drop (Z.to_nat i) qs)).
    assert (Z.of_nat (length chunk) = Z.min 100 (n - i)) as Hlen
      by (unfold chunk; rewrite length_take, length_drop; lia).
    assert (Forall (λ q, Z.of_nat (length q) = GpuIndex.dim g) chunk)
      as Hchunk by (apply Forall_take, Forall_drop, Hqs).
    pose proof Hok as (_ & Hcc0 & _).
    destruct (GpuIndexFacts.search_returns g chunk 5 Hok Hchunk)
      as (res & g1 & Hs);
      [lia | unfold INT_MAX; lia | unfold INT_MAX; nia |].
    destruct (GpuIndexFacts.search_state_ok g chunk 5 res g1 Hok Hchunk
                ltac:(lia) Hs)
      as (Hok1 & Hdb1 & _ & Hcc1 & Hdim1 & Hmax1 & Hmb1).
    rewrite Hs, outcome_bind_ret. unfold GpuIndex.int_checked, INT_MAX.
    replace ((i + 100 <? - 2 ^ 31) || (2 ^ 31 - 1 <? i + 100)) with false
      by (symmetry; apply orb_false_iff; split; apply Z.ltb_ge; lia).
    rewrite outcome_bind_ret. cbn [snd].
    destruct (IH g1 (i + 100) Hok1) as (g' & Hg' & Hok' & Hdb' & Hrest);
      [congruence | lia | rewrite Hdim1; exact Hqs | lia | lia |].
    exists g'. split; [exact Hg'|]. split; [exact Hok'|].
    destruct Hrest as (? & ? & ? & ?). repeat split; congruence.
Qed.

(** X28.  The command [batch] on a consistent database, for [n] queries of
    [GLOBAL_DIM] floats with [n + GPU_BATCH_LIMIT] in the range of [int].
    The loop hands [search] chunks of at most [GPU_BATCH_LIMIT] queries,
    which is the batch size the index was allocated for, so every call
    returns; the command ends and leaves the database consistent, with the
    buffer of the rows as it was. *)
Theorem batch_runs db (qs : list (list F)) :
  consistent db →
  Forall (λ q, Z.of_nat (length q) = GLOBAL_DIM db) qs →
  Z.of_nat (length qs) + GPU_BATCH_LIMIT ≤ INT_MAX →
  ∃ g', batch db qs = Ret (mk_db (id_db db) (mat_db db) g' (GLOBAL_DIM db))
    ∧ consistent (mk_db (id_db db) (mat_db db) g' (GLOBAL_DIM db))
    ∧ GpuIndex.d_db g' = GpuIndex.d_db (gpu db)
    ∧ GpuIndex.current_count g' = GpuIndex.current_count (gpu db).
Proof.
  intros Hcons Hqs Hn.
  pose proof Hcons
    as (Hd & Hdmax & Hslab & Hsdim & Hhdr & Hcap & Hgpu & Hgdim & Hgmax
        & Hgb & Hcc & Hrows & Hinv & Hrange & Hlog & Haid & Hlive).
  pose proof Hgpu as (_ & Hroom & _). rewrite Hgmax in Hroom.
  destruct (batch_loop_ok qs (Z.of_nat (length qs)) (length qs) eq_refl Hn
              (gpu db) 0 Hgpu Hgb)
    as (g' & Hg' & Hok' & Hdb' & Hcc' & Hdim' & Hmax' & Hmb');
    [lia | rewrite Hgdim; exact Hqs | lia | lia |].
  assert (∀ r, GpuIndex.db_row g' r = GpuIndex.db_row (gpu db) r) as Hsame
    by (intros r; unfold GpuIndex.db_row; rewrite Hdb', Hdim'; reflexivity).
  exists g'. split; [unfold batch; rewrite Hg'; reflexivity|].
  split; [|split; assumption].
  unfold Main.consistent. cbn [GLOBAL_DIM mat_db id_db gpu].
  split; [exact Hd|]. split; [exact Hdmax|]. split; [exact Hslab|].
  split; [exact Hsdim|]. split; [exact Hhdr|]. split; [exact Hcap|].
  split; [exact Hok'|]. split; [congruence|]. split; [congruence|].
  split; [congruence|]. split; [congruence|].
  split; [intros r Hr; rewrite Hsame; apply Hrows, Hr|].
  repeat (split; [assumption|]). assumption.
Qed.

End Facts.

(** ** The examples *)

Lemma example_db_consistent : consistent le_decode example_db.
Proof. apply new_database_consistent. Qed.

Lemma example_vector_length :
  Z.of_nat (length example_vector) = 4 * GLOBAL_DIM example_db.
Proof. reflexivity. Qed.

Lemma example_db_one_ok :
  put le_decode example_db 7 example_vector = Ret example_db_one
  ∧ consistent le_decode example_db_one
  ∧ GLOBAL_DIM example_db_one = 128
  ∧ MatrixSlab.get_count (mat_db example_db_one) = 1
  ∧ IdSlab.get_row_from_user (id_db example_db_one) 7 = 0
  ∧ ∀ u, u ≠ 7 → IdSlab.get_row_from_user (id_db example_db_one) u = -1.
Proof.
  destruct (put_is_store le_decode example_db 7 example_vector
              example_db_consistent example_vector_length eq_refl)
    as [Hput Hfresh].
  destruct (store_vector_ok le_decode example_db 7 example_vector
              example_db_consistent eq_refl example_vector_length
              ltac:(lia) Hfresh)
    as (db' & Hst & Hc & Hd & Hn & Hlook & _ & _ & Hother & _).
  rewrite <- Hput in Hst.
  assert (example_db_one = db') as ->
    by (unfold example_db_one; rewrite Hst; reflexivity).
  split; [exact Hst|]. split; [exact Hc|]. split; [exact Hd|].
  split; [exact Hn|]. split; [exact Hlook|].
  intros u Hu. rewrite (Hother u Hu). reflexivity.
Qed.

Lemma example_db_two_ok :
  consistent le_decode example_db_two
  ∧ MatrixSlab.get_count (mat_db example_db_two) = 2
  ∧ IdSlab.get_row_from_user (id_db example_db_two) 7 = 0.
Proof.
  destruct example_db_one_ok as (_ & Hc & Hd & Hn & Hrow & Hnone).
  assert (Z.of_nat (length example_vector_two)
          = 4 * GLOBAL_DIM example_db_one) as Hv
    by (rewrite Hd; reflexivity).
  destruct (put_is_store le_decode example_db_one 8 example_vector_two
              Hc Hv (Hnone 8 ltac:(lia)))
    as [Hput Hfresh].
  destruct (store_vector_ok le_decode example_db_one 8 example_vector_two
              Hc ltac:(rewrite Hn; reflexivity) Hv ltac:(lia) Hfresh)
    as (db' & Hst & Hc' & _ & Hn' & _ & _ & _ & Hother & _).
  rewrite <- Hput in Hst.
  assert (example_db_two = db') as ->
    by (unfold example_db_two; rewrite Hst; reflexivity).
  split; [exact Hc'|]. split; [rewrite Hn', Hn; reflexivity|].
  rewrite (Hother 7 ltac:(lia)). exact Hrow.
Qed.

Lemma slab_million_ok :
  MatrixSlab.slab_ok slab_million
  ∧ MatrixSlab.header_in_range (MatrixSlab.header slab_million).
Proof.
  unfold MatrixSlab.slab_ok, MatrixSlab.header_in_range, slab_million,
    MatrixSlab.get_dim, MatrixSlab.get_capacity, MatrixSlab.get_count,
    MatrixSlab.sizeof_SlabHeader, MatrixSlab.MAGIC, OFF_MAX, MAX_CAPACITY.
  cbn [MatrixSlab.header MatrixSlab.data_region MatrixSlab.dim
       MatrixSlab.capacity MatrixSlab.count MatrixSlab.magic
       MatrixSlab.version MatrixSlab.pad].
  rewrite length_replicate, Z2Nat.id by lia.
  repeat split; try lia.
Qed.

Lemma example_db_full_ok :
  consistent le_decode example_db_full
  ∧ id_db example_db_full = IdSlab.slab_empty
  ∧ mat_db example_db_full = slab_million
  ∧ GLOBAL_DIM example_db_full = 128.
Proof.
  destruct slab_million_ok as [Hok Hhdr].
  destruct (startup_loads le_decode IdSlab.slab_empty slab_million
              IdSlab.no_garbage 0)
    as (g' & Hst & Hc); try assumption.
  - change (MatrixSlab.get_dim slab_million) with 128. lia.
  - change (MatrixSlab.get_dim slab_million) with 128.
    unfold MAX_CAPACITY, INT_MAX. lia.
  - change (MatrixSlab.get_capacity slab_million) with 1024000.
    change (MatrixSlab.get_count slab_million) with 1000000. lia.
  - change (MatrixSlab.get_count slab_million) with 1000000.
    unfold MAX_CAPACITY. lia.
  - apply IdSlabFacts.reachable_inv, IdSlabFacts.reachable_slab_empty.
  - apply IdSlabFacts.reachable_range, IdSlabFacts.reachable_slab_empty.
  - apply IdSlabFacts.logged_empty.
  - change (MatrixSlab.get_count slab_million) with 1000000.
    change (IdSlab.auto_id IdSlab.slab_empty) with 0. lia.
  - intros u [a Hu]. simpl in Hu. rewrite lookup_empty in Hu. discriminate.
  - change (IdSlab.logfile IdSlab.slab_empty) with (@nil byte) in Hst.
    change (MatrixSlab.get_dim slab_million) with 128 in Hst, Hc.
    assert (example_db_full = mk_db IdSlab.slab_empty slab_million g' 128)
      as -> by (unfold example_db_full; rewrite Hst; reflexivity).
    split; [exact Hc | repeat split].
Qed.

Lemma put_stores_vector_witness :
  ∃ db', put le_decode example_db 7 example_vector = Ret db'
    ∧ consistent le_decode db'
    ∧ MatrixSlab.get_count (mat_db db')
      = MatrixSlab.get_count (mat_db example_db) + 1
    ∧ IdSlab.get_row_from_user (id_db db') 7
      = MatrixSlab.get_count (mat_db example_db)
    ∧ MatrixSlab.read_row (mat_db db')
        (MatrixSlab.get_count (mat_db example_db))
      = example_vector
    ∧ GpuIndex.db_row (gpu db') (MatrixSlab.get_count (mat_db example_db))
      = floats le_decode example_vector
    ∧ (∀ u, u ≠ 7 →
         IdSlab.get_row_from_user (id_db db') u
         = IdSlab.get_row_from_user (id_db example_db) u)
    ∧ (∀ r, 0 ≤ r < MatrixSlab.get_count (mat_db example_db) →
         MatrixSlab.read_row (mat_db db') r
         = MatrixSlab.read_row (mat_db example_db) r).
Proof.
  apply (put_stores_vector le_decode example_db 7 example_vector
           example_db_consistent eq_refl example_vector_length
           ltac:(lia)).
  reflexivity.
Defined.

Lemma startup_restores_database_witness :
  ∃ db', startup le_decode
           (Some (MatrixSlab.file_of (mat_db example_db_one)))
           (Some (IdSlab.logfile (id_db example_db_one)))
           IdSlab.no_garbage 0 = Ret db'
    ∧ consistent le_decode db'
    ∧ id_db db' = id_db example_db_one
    ∧ mat_db db' = mat_db example_db_one
    ∧ GLOBAL_DIM db' = GLOBAL_DIM example_db_one
    ∧ GpuIndex.current_count (gpu db')
      = GpuIndex.current_count (gpu example_db_one)
    ∧ ∀ r, 0 ≤ r < GpuIndex.current_count (gpu example_db_one) →
        GpuIndex.db_row (gpu db') r = GpuIndex.db_row (gpu example_db_one) r.
Proof.
  apply (startup_restores_database le_decode example_db_one
           IdSlab.no_garbage 0).
  apply example_db_one_ok.
Defined.

Lemma put_past_capacity_witness :
  ∃ db', put le_decode example_db_full 8 example_vector = Ret db'
    ∧ gpu db' = gpu example_db_full
    ∧ MatrixSlab.get_count (mat_db db') = MAX_CAPACITY + 1
    ∧ MatrixSlab.read_row (mat_db db') MAX_CAPACITY = example_vector
    ∧ IdSlab.get_row_from_user (id_db db') 8 = MAX_CAPACITY
    ∧ startup le_decode (Some (MatrixSlab.file_of (mat_db db')))
        (Some (IdSlab.logfile (id_db db'))) IdSlab.no_garbage 0 = Undefined.
Proof.
  destruct example_db_full_ok as (Hc & Hid & Hmat & Hd).
  apply (put_past_capacity le_decode example_db_full 8 example_vector
           IdSlab.no_garbage 0 Hc).
  - rewrite Hmat. reflexivity.
  - rewrite Hd. reflexivity.
  - lia.
  - rewrite Hid. reflexivity.
Defined.

Lemma find_prints_neighbours_witness :
  ∃ l g', find le_decode example_db_two 7
          = Ret (l, mk_db (id_db example_db_two) (mat_db example_db_two) g'
                      (GLOBAL_DIM example_db_two))
    ∧ (1 ≤ length l)%nat
    ∧ ∀ x, x ∈ l → GpuIndex.id x = 1.
Proof.
  destruct example_db_two_ok as (Hc & Hn & Hrow).
  pose proof (find_prints_neighbours le_decode example_db_two 7 Hc) as Hfind.
  cbv zeta in Hfind. rewrite Hrow, Hn in Hfind.
  destruct (Hfind ltac:(lia))
    as (l0 & l & g' & Hf & _ & _ & _ & _ & _ & Hlen & _ & Hin & _).
  exists l, g'. split; [exact Hf|]. split; [lia|].
  intros x Hx. destruct (Hin x Hx) as (? & ? & _). lia.
Defined.

Lemma example_batch_dim :
  Forall (λ q : list Z, Z.of_nat (length q) = GLOBAL_DIM example_db_one)
    example_batch.
Proof.
  destruct example_db_one_ok as (_ & _ & -> & _).
  repeat constructor.
Qed.

Lemma batch_runs_witness :
  ∃ g', batch example_db_one example_batch
        = Ret (mk_db (id_db example_db_one) (mat_db example_db_one) g'
                 (GLOBAL_DIM example_db_one))
    ∧ consistent le_decode
        (mk_db (id_db example_db_one) (mat_db example_db_one) g'
           (GLOBAL_DIM example_db_one))
    ∧ GpuIndex.d_db g' = GpuIndex.d_db (gpu example_db_one)
    ∧ GpuIndex.current_count g'
      = GpuIndex.current_count (gpu example_db_one).
Proof.
  destruct example_db_one_ok as (_ & Hc & _).
  apply (batch_runs le_decode example_db_one example_batch Hc
           example_batch_dim).
  vm_compute. discriminate.
Defined.

End MainFacts.
